(** * LLIK: a shallow embedding of the inverse-kinematics solver (llik.cpp)

    The development follows the C++ source function by function.  Single
    precision values are IEEE-754 binary32 numbers (the Standard Library's
    [SpecFloat] at precision 24), 16-bit joint ids and 8-bit flag words are
    integers, [std::map] and [std::set] are finite maps and sets iterated in
    ascending key order, and the shared joint objects live in a store indexed
    by their skeleton key.  A null-pointer dereference or an undefined
    conversion is the failure [None] of the error monad. *)

From Stdlib Require Import ZArith List Bool Lia.
From Stdlib Require Import Floats.SpecFloat.
From stdpp Require Import gmap sorting list.

Local Open Scope Z_scope.

(** ** Single precision arithmetic *)

Module F32.

Definition prec : Z := 24.
Definition emax : Z := 128.

Definition t : Type := spec_float.

Definition zero : t := S754_zero false.
Definition of_dyadic (m e : Z) : t := binary_normalize prec emax m e false.
(* conversion of an integer, as in [(F32)(num_targets)] *)
Definition of_Z (z : Z) : t := of_dyadic z 0.
Definition one : t := of_Z 1.

Definition add : t -> t -> t := SFadd prec emax.
Definition sub : t -> t -> t := SFsub prec emax.
Definition mul : t -> t -> t := SFmul prec emax.
Definition div : t -> t -> t := SFdiv prec emax.
Definition sqrt : t -> t := SFsqrt prec emax.
Definition opp : t -> t := SFopp.
Definition abs : t -> t := SFabs.

Definition ltb : t -> t -> bool := SFltb.
Definition leb : t -> t -> bool := SFleb.
Definition gtb (a b : t) : bool := SFltb b a.
Definition eqb : t -> t -> bool := SFeqb.

Definition is_nan (x : t) : bool :=
  match x with S754_nan => true | _ => false end.

(* [(S32)x]: truncation toward zero; the conversion is undefined for a
   NaN, an infinity or a value outside the range of S32. *)
Definition to_S32 (x : t) : option Z :=
  match x with
  | S754_zero _ => Some 0
  | S754_finite s m e =>
      let a := match e with
               | Z0 => Zpos m
               | Zpos _ => Z.shiftl (Zpos m) e
               | Zneg _ => Z.shiftr (Zpos m) (- e)
               end in
      let z := if s then - a else a in
      if (- 2147483648 <=? z) && (z <=? 2147483647) then Some z else None
  | _ => None
  end.

(* decimal literals: the correctly rounded quotient of two integers *)
Definition ratio (n d : positive) : t :=
  div (S754_finite false n 0) (S754_finite false d 0).

(* [!=] on floats: a NaN differs from everything *)
Definition neqb (a b : t) : bool := negb (eqb a b).

End F32.

Abbreviation F32 := F32.t.

(** Modelled from the spec: the constants [F_PI] and [F_TWO_PI] of the
    absent llmath.h, the single precision numbers nearest to pi and 2 pi. *)
Definition F_PI : F32 := S754_finite false 13176795 (-22).
Definition F_TWO_PI : F32 := S754_finite false 13176795 (-21).

Definition VERY_SMALL_ANGLE : F32 := F32.mul (F32.ratio 1 1000) F_PI.

(** ** Angle helpers *)

Definition remove_multiples_of_two_pi (angle : F32) : option F32 :=
  n ← F32.to_S32 (F32.div angle F_TWO_PI);
  Some (F32.sub angle (F32.mul F_TWO_PI (F32.of_Z n))).

(* The two reference arguments are returned as the pair
   (min_angle, max_angle). *)
Module F64.
(* double precision steps of mixed expressions such as [0.5 * x] *)
Definition prec : Z := 53.
Definition emax : Z := 1024.
Definition half : spec_float := S754_finite false 4503599627370496 (-53).
Definition add : spec_float -> spec_float -> spec_float := SFadd prec emax.
Definition mul : spec_float -> spec_float -> spec_float := SFmul prec emax.
(* conversion of a double to F32, rounding to nearest even *)
Definition to_F32 (x : spec_float) : F32 :=
  match x with
  | S754_finite s m e => binary_round F32.prec F32.emax s m e
  | _ => x
  end.
End F64.

Definition compute_angle_limits (min_angle max_angle : F32) : option (F32 * F32) :=
  max_angle ← remove_multiples_of_two_pi max_angle;
  let max_angle := if F32.gtb max_angle F_PI then F32.sub max_angle F_TWO_PI else max_angle in
  min_angle ← remove_multiples_of_two_pi min_angle;
  let min_angle := if F32.gtb min_angle F_PI then F32.sub min_angle F_TWO_PI else min_angle in
  if F32.gtb min_angle max_angle
  then Some (max_angle, min_angle)
  else Some (min_angle, max_angle).

(** ** Vectors and quaternions *)

Record LLVector3 := mkVec { mV_x : F32; mV_y : F32; mV_z : F32 }.

(* [mQ[VX]], [mQ[VY]], [mQ[VZ]], [mQ[VW]] *)
Record LLQuaternion := mkQuat { mQ_x : F32; mQ_y : F32; mQ_z : F32; mQ_w : F32 }.

Definition LLVector3_zero : LLVector3 := mkVec F32.zero F32.zero F32.zero.
Definition LLQuaternion_DEFAULT : LLQuaternion :=
  mkQuat F32.zero F32.zero F32.zero F32.one.

(** The vector and quaternion classes (v3math.h, llquaternion.h) and the
    hash combiner are not part of the sources at hand: their operations are
    the members of an interface, and every statement below holds for all
    its implementations. *)

Inductive ConstraintType :=
  | NULL_CONSTRAINT
  | UNKNOWN_CONSTRAINT
  | SIMPLE_CONE_CONSTRAINT
  | TWIST_LIMITED_CONE_CONSTRAINT
  | SHOULDER_CONSTRAINT
  | ELBOW_CONSTRAINT
  | KNEE_CONSTRAINT
  | ACUTE_ELLIPSOIDAL_CONE_CONSTRAINT
  | DOUBLE_LIMITED_HINGE_CONSTRAINT.

(* the values handed to [boost::hash_combine] *)
Inductive HashArg :=
  | HashType (t : ConstraintType)
  | HashVec (v : LLVector3)
  | HashF32 (x : F32).

Class MathKernel := {
  (* LLVector3 *)
  vec_add : LLVector3 -> LLVector3 -> LLVector3;        (* a + b *)
  vec_sub : LLVector3 -> LLVector3 -> LLVector3;        (* a - b *)
  vec_neg : LLVector3 -> LLVector3;                     (* -a *)
  vec_scale : F32 -> LLVector3 -> LLVector3;            (* k * a *)
  vec_div : LLVector3 -> F32 -> LLVector3;              (* a / k *)
  vec_dot : LLVector3 -> LLVector3 -> F32;              (* a * b *)
  vec_cross : LLVector3 -> LLVector3 -> LLVector3;      (* a % b *)
  vec_length : LLVector3 -> F32;                        (* a.length() *)
  vec_normalize : LLVector3 -> LLVector3;               (* a.normalize() *)
  vec_scaledVec : LLVector3 -> LLVector3 -> LLVector3;  (* a.scaledVec(b) *)
  vec_rot : LLVector3 -> LLQuaternion -> LLVector3;     (* v * q *)
  dist_vec : LLVector3 -> LLVector3 -> F32;
  (* LLQuaternion *)
  quat_mul : LLQuaternion -> LLQuaternion -> LLQuaternion;   (* p * q *)
  quat_add : LLQuaternion -> LLQuaternion -> LLQuaternion;   (* p + q *)
  quat_sub : LLQuaternion -> LLQuaternion -> LLQuaternion;   (* p - q *)
  quat_conjugate : LLQuaternion -> LLQuaternion;
  quat_normalize : LLQuaternion -> LLQuaternion;
  shortestArc : LLVector3 -> LLVector3 -> LLQuaternion;
  quat_lerp : F32 -> LLQuaternion -> LLQuaternion -> LLQuaternion;
  getAngleAxis : LLQuaternion -> F32 * LLVector3;
  setAngleAxis : F32 -> LLVector3 -> LLQuaternion;
  (* LLQuaternion::almost_equal with its default tolerance *)
  almost_equal : LLQuaternion -> LLQuaternion -> bool;
  almost_equal_tol : LLQuaternion -> LLQuaternion -> F32 -> bool;
  (* boost::hash_combine(seed, v): the new seed *)
  hash_combine : N -> HashArg -> N
}.

(** ** Flags *)

Definition CONFIG_FLAG_LOCAL_POS : Z := Z.shiftl 1 0.
Definition CONFIG_FLAG_LOCAL_ROT : Z := Z.shiftl 1 1.
Definition CONFIG_FLAG_LOCAL_SCALE : Z := Z.shiftl 1 2.
Definition CONFIG_FLAG_DISABLE_CONSTRAINT : Z := Z.shiftl 1 3.
Definition CONFIG_FLAG_TARGET_POS : Z := Z.shiftl 1 4.
Definition CONFIG_FLAG_TARGET_ROT : Z := Z.shiftl 1 5.
Definition CONFIG_FLAG_HAS_DELEGATED : Z := Z.shiftl 1 6.

Definition IK_FLAG_LOCAL_ROT : Z := Z.shiftl 1 1.
Definition IK_FLAG_ACTIVE : Z := Z.shiftl 1 5.
Definition IK_FLAG_LOCAL_ROT_LOCKED : Z := Z.shiftl 1 7.

Definition MASK_POS : Z := Z.lor CONFIG_FLAG_TARGET_POS CONFIG_FLAG_LOCAL_POS.
Definition MASK_ROT : Z := Z.lor CONFIG_FLAG_TARGET_ROT CONFIG_FLAG_LOCAL_ROT.

Definition IK_DEFAULT_ACCEPTABLE_ERROR : F32 := F32.ratio 5 10000.

(* [(flags & mask) > 0] *)
Definition has_flag (flags mask : Z) : bool := 0 <? Z.land flags mask.

(** ** Iteration over std::map and std::set: ascending keys *)

Definition key_le {V : Type} (a b : Z * V) : Prop := a.1 <= b.1.

#[global] Instance key_le_dec {V : Type} (a b : Z * V) : Decision (key_le a b).
Proof. unfold key_le. apply _. Defined.

Definition map_items {V : Type} (m : gmap Z V) : list (Z * V) :=
  merge_sort key_le (map_to_list m).

Definition set_items (s : gset Z) : list Z := merge_sort Z.le (elements s).

(** ** Joint::Config *)

Module Config.

Record t := mk {
  mLocalPos : LLVector3;
  mLocalRot : LLQuaternion;
  mLocalScale : LLVector3;
  mTargetPos : LLVector3;
  mTargetRot : LLQuaternion;
  mFlags : Z;
  (* Modelled from the spec: the chain limit is declared in the absent
     header; it defaults to 255. *)
  mChainLimit : Z
}.

Definition default : t :=
  mk LLVector3_zero LLQuaternion_DEFAULT LLVector3_zero LLVector3_zero
     LLQuaternion_DEFAULT 0 255.

Definition hasLocalPos (c : t) : bool := has_flag (mFlags c) CONFIG_FLAG_LOCAL_POS.
Definition hasLocalRot (c : t) : bool := has_flag (mFlags c) CONFIG_FLAG_LOCAL_ROT.
Definition hasLocalScale (c : t) : bool := has_flag (mFlags c) CONFIG_FLAG_LOCAL_SCALE.
Definition constraintIsDisabled (c : t) : bool :=
  has_flag (mFlags c) CONFIG_FLAG_DISABLE_CONSTRAINT.
Definition hasTargetPos (c : t) : bool := has_flag (mFlags c) CONFIG_FLAG_TARGET_POS.
Definition hasTargetRot (c : t) : bool := has_flag (mFlags c) CONFIG_FLAG_TARGET_ROT.
Definition hasDelegated (c : t) : bool := has_flag (mFlags c) CONFIG_FLAG_HAS_DELEGATED.
Definition getFlags (c : t) : Z := mFlags c.
Definition getChainLimit (c : t) : Z := mChainLimit c.

Section WithKernel.
Context {K : MathKernel}.

Definition setLocalPos (pos : LLVector3) (c : t) : t :=
  mk pos (mLocalRot c) (mLocalScale c) (mTargetPos c) (mTargetRot c)
     (Z.lor (mFlags c) CONFIG_FLAG_LOCAL_POS) (mChainLimit c).

Definition setLocalRot (rot : LLQuaternion) (c : t) : t :=
  mk (mLocalPos c) (quat_normalize rot) (mLocalScale c) (mTargetPos c) (mTargetRot c)
     (Z.lor (mFlags c) CONFIG_FLAG_LOCAL_ROT) (mChainLimit c).

Definition setLocalScale (scale : LLVector3) (c : t) : t :=
  mk (mLocalPos c) (mLocalRot c) scale (mTargetPos c) (mTargetRot c)
     (Z.lor (mFlags c) CONFIG_FLAG_LOCAL_SCALE) (mChainLimit c).

Definition setTargetPos (pos : LLVector3) (c : t) : t :=
  mk (mLocalPos c) (mLocalRot c) (mLocalScale c) pos (mTargetRot c)
     (Z.lor (mFlags c) CONFIG_FLAG_TARGET_POS) (mChainLimit c).

Definition setTargetRot (rot : LLQuaternion) (c : t) : t :=
  mk (mLocalPos c) (mLocalRot c) (mLocalScale c) (mTargetPos c) (quat_normalize rot)
     (Z.lor (mFlags c) CONFIG_FLAG_TARGET_ROT) (mChainLimit c).
End WithKernel.

End Config.

(* returns value of aliased angle clamped to the range [min_angle, max_angle] *)
Definition compute_clamped_angle (angle min_angle max_angle : F32) : option F32 :=
  if F32.gtb angle max_angle || F32.ltb angle min_angle then
    (* compute invalid bisector; the product with the literal 0.5 and the
       sum are double precision operations *)
    let invalid_bisector :=
      F64.to_F32 (F64.add max_angle
                    (F64.mul F64.half (F32.sub F_TWO_PI (F32.sub max_angle min_angle)))) in
    (* remove full cycles from angle *)
    n ← F32.to_S32 (F32.div angle F_TWO_PI);
    let angle := F32.sub angle (F32.mul (F32.of_Z n) F_TWO_PI) in
    if (F32.gtb angle max_angle && F32.ltb angle invalid_bisector)
       || F32.ltb angle (F32.sub invalid_bisector F_TWO_PI)
    then Some max_angle
    else if F32.ltb angle min_angle || F32.gtb angle invalid_bisector
    then Some min_angle
    else Some angle
  else Some angle.

(** ** Constraints *)

Module Constraint.

(* the data members of the derived classes *)
Inductive variant :=
  | SimpleCone (mMaxAngle mCosConeAngle mSinConeAngle : F32)
  | TwistLimitedCone (mConeAngle mCosConeAngle mSinConeAngle mMinTwist mMaxTwist : F32)
  | ShoulderConstraint (mConeAxis : LLVector3)
  | ElbowConstraint (mPivotAxis mPivotXForward : LLVector3)
      (mMinBend mMaxBend mMinTwist mMaxTwist : F32)
  | KneeConstraint (mPivotAxis mPivotXForward : LLVector3) (mMinBend mMaxBend : F32)
  | AcuteEllipsoidalCone (mUp mLeft : LLVector3)
      (mXForward mXUp mXDown mXLeft mXRight : F32)
      (mQuadrantScales mQuadrantCosAngles mQuadrantCotAngles : list F32)
  | DoubleLimitedHinge (mUp mLeft : LLVector3) (mMinYaw mMaxYaw mMinPitch mMaxPitch : F32).

(* the base class members, and the derived part *)
Record t := mk {
  mForward : LLVector3;
  mType : ConstraintType;
  derived : variant
}.

Section WithKernel.
Context {K : MathKernel}.

(* LLIK::Constraint::generateHash *)
Definition base_generateHash (c : t) : N :=
  let seed := 0%N in
  let seed := hash_combine seed (HashType (mType c)) in
  let seed := hash_combine seed (HashVec (mForward c)) in
  seed.

(* the overrides of generateHash, by dynamic type *)
Definition generateHash (c : t) : N :=
  let seed := base_generateHash c in
  match derived c with
  | SimpleCone mMaxAngle _ _ =>
      hash_combine seed (HashF32 mMaxAngle)
  | TwistLimitedCone mConeAngle _ _ mMinTwist mMaxTwist =>
      let seed := hash_combine seed (HashF32 mConeAngle) in
      let seed := hash_combine seed (HashF32 mMinTwist) in
      hash_combine seed (HashF32 mMaxTwist)
  | ShoulderConstraint _ => seed
  | ElbowConstraint mPivotAxis _ mMinBend mMaxBend mMinTwist mMaxTwist =>
      let seed := hash_combine seed (HashVec mPivotAxis) in
      let seed := hash_combine seed (HashF32 mMinBend) in
      let seed := hash_combine seed (HashF32 mMaxBend) in
      let seed := hash_combine seed (HashF32 mMinTwist) in
      hash_combine seed (HashF32 mMaxTwist)
  | KneeConstraint mPivotAxis _ mMinBend mMaxBend =>
      let seed := hash_combine seed (HashVec mPivotAxis) in
      let seed := hash_combine seed (HashF32 mMinBend) in
      hash_combine seed (HashF32 mMaxBend)
  | AcuteEllipsoidalCone mUp mLeft mXForward mXUp mXDown mXLeft mXRight _ _ _ =>
      let seed := hash_combine seed (HashVec mUp) in
      let seed := hash_combine seed (HashF32 mXForward) in
      let seed := hash_combine seed (HashF32 mXUp) in
      let seed := hash_combine seed (HashF32 mXDown) in
      let seed := hash_combine seed (HashVec mLeft) in
      hash_combine seed (HashF32 mXRight)
  | DoubleLimitedHinge mUp _ mMinYaw mMaxYaw mMinPitch mMaxPitch =>
      let seed := hash_combine seed (HashVec mUp) in
      let seed := hash_combine seed (HashF32 mMinYaw) in
      let seed := hash_combine seed (HashF32 mMaxYaw) in
      let seed := hash_combine seed (HashF32 mMinPitch) in
      hash_combine seed (HashF32 mMaxPitch)
  end.

(* LLIK::AcuteEllipsoidalCone::AcuteEllipsoidalCone(forward_axis, up_axis,
   forward, up, left, down, right) *)
Definition newAcuteEllipsoidalCone (forward_axis up_axis : LLVector3)
    (forward up left down right : F32) : t :=
  let mXForward := forward in
  let mXUp := up in
  let mXDown := down in
  let mXLeft := left in
  let mXRight := right in
  let mUp := vec_normalize up_axis in
  let mForward := vec_normalize (vec_cross (vec_cross mUp forward_axis) mUp) in
  let mLeft := vec_cross mUp mForward in
  let up := F32.abs (F32.div up forward) in
  let left := F32.abs (F32.div left forward) in
  let down := F32.abs (F32.div down forward) in
  let right := F32.abs (F32.div right forward) in
  let scales := [F32.div up right; F32.div up left; F32.div down left; F32.div down right] in
  let cos0 := F32.div F32.one (F32.sqrt (F32.add (F32.mul up up) F32.one)) in
  let cot0 := F32.div F32.one up in
  let cos2 := F32.div F32.one (F32.sqrt (F32.add (F32.mul down down) F32.one)) in
  let cot2 := F32.div F32.one down in
  mk mForward ACUTE_ELLIPSOIDAL_CONE_CONSTRAINT
     (AcuteEllipsoidalCone mUp mLeft mXForward mXUp mXDown mXLeft mXRight
        scales [cos0; cos0; cos2; cos2] [cot0; cot0; cot2; cot2]).
(* LLIK::ElbowConstraint::ElbowConstraint(forward_axis, pivot_axis,
   min_bend, max_bend, min_twist, max_twist) *)
Definition newElbowConstraint (forward_axis pivot_axis : LLVector3)
    (min_bend max_bend min_twist max_twist : F32) : option t :=
  let mForward := vec_normalize forward_axis in
  let mPivotAxis := vec_normalize (vec_cross mForward (vec_cross pivot_axis mForward)) in
  let mPivotXForward := vec_cross mPivotAxis mForward in
  bend ← compute_angle_limits min_bend max_bend;
  twist ← compute_angle_limits min_twist max_twist;
  Some (mk mForward ELBOW_CONSTRAINT
          (ElbowConstraint mPivotAxis mPivotXForward bend.1 bend.2 twist.1 twist.2)).

(* LLIK::SimpleCone::computeAdjustedLocalRot *)
Definition SimpleCone_computeAdjustedLocalRot (mForward : LLVector3)
    (mCosConeAngle mSinConeAngle : F32) (joint_local_rot : LLQuaternion)
    : LLQuaternion :=
  let forward := vec_rot mForward joint_local_rot in
  let forward_component := vec_dot forward mForward in
  if F32.ltb forward_component mCosConeAngle then
    (* the joint's version of mForward lies outside the cone
       so we project it onto the surface of the cone... *)
    let perp := vec_normalize (vec_sub forward (vec_scale forward_component mForward)) in
    let new_forward :=
      vec_add (vec_scale mCosConeAngle mForward) (vec_scale mSinConeAngle perp) in
    (* ... then compute the adjusted rotation *)
    let adjustment := shortestArc forward new_forward in
    quat_normalize (quat_mul joint_local_rot adjustment)
  else joint_local_rot.
End WithKernel.

End Constraint.

(** The projections [computeAdjustedLocalRot] of the derived classes
    evaluate [std::cos], [std::sin], [std::acos] and [std::atan2] in single
    precision, whose roundings the C++ library does not fix: the virtual
    method is a member of an interface of its own. *)
Class Projection := {
  computeAdjustedLocalRot : Constraint.t -> LLQuaternion -> LLQuaternion
}.

(** ** Joints *)

(* the LLJoint behind [mInfoPtr] *)
Record JointInfo := mkInfo {
  info_getPosition : LLVector3;
  info_getEnd : LLVector3;
  info_getScale : LLVector3;
  info_getJointNum : Z
}.

Module Joint.

(* A [Joint::ptr_t] is the key under which the solver's skeleton holds
   the joint; [mConfig] points into [Solver::mJointConfigs] and is the
   key of the pointed entry. *)
Record t := mk {
  mChildren : list Z;
  mLocalPos : LLVector3;
  mPos : LLVector3;
  mLocalRot : LLQuaternion;
  mRot : LLQuaternion;
  mLocalScale : LLVector3;
  mBone : LLVector3;
  mParent : option Z;
  mConstraint : option Constraint.t;
  mLocalPosLength : F32;
  mID : Z;
  mInfoPtr : JointInfo;
  mConfig : option Z;
  mConfigFlags : Z;
  mIkFlags : Z
}.

Definition set_mChildren (v : list Z) (j : t) : t :=
  mk v (mLocalPos j) (mPos j) (mLocalRot j) (mRot j) (mLocalScale j) (mBone j)
     (mParent j) (mConstraint j) (mLocalPosLength j) (mID j) (mInfoPtr j)
     (mConfig j) (mConfigFlags j) (mIkFlags j).
Definition set_mLocalPos (v : LLVector3) (j : t) : t :=
  mk (mChildren j) v (mPos j) (mLocalRot j) (mRot j) (mLocalScale j) (mBone j)
     (mParent j) (mConstraint j) (mLocalPosLength j) (mID j) (mInfoPtr j)
     (mConfig j) (mConfigFlags j) (mIkFlags j).
Definition set_mPos (v : LLVector3) (j : t) : t :=
  mk (mChildren j) (mLocalPos j) v (mLocalRot j) (mRot j) (mLocalScale j) (mBone j)
     (mParent j) (mConstraint j) (mLocalPosLength j) (mID j) (mInfoPtr j)
     (mConfig j) (mConfigFlags j) (mIkFlags j).
Definition set_mLocalRot (v : LLQuaternion) (j : t) : t :=
  mk (mChildren j) (mLocalPos j) (mPos j) v (mRot j) (mLocalScale j) (mBone j)
     (mParent j) (mConstraint j) (mLocalPosLength j) (mID j) (mInfoPtr j)
     (mConfig j) (mConfigFlags j) (mIkFlags j).
Definition set_mRot (v : LLQuaternion) (j : t) : t :=
  mk (mChildren j) (mLocalPos j) (mPos j) (mLocalRot j) v (mLocalScale j) (mBone j)
     (mParent j) (mConstraint j) (mLocalPosLength j) (mID j) (mInfoPtr j)
     (mConfig j) (mConfigFlags j) (mIkFlags j).
Definition set_mLocalScale (v : LLVector3) (j : t) : t :=
  mk (mChildren j) (mLocalPos j) (mPos j) (mLocalRot j) (mRot j) v (mBone j)
     (mParent j) (mConstraint j) (mLocalPosLength j) (mID j) (mInfoPtr j)
     (mConfig j) (mConfigFlags j) (mIkFlags j).
Definition set_mBone (v : LLVector3) (j : t) : t :=
  mk (mChildren j) (mLocalPos j) (mPos j) (mLocalRot j) (mRot j) (mLocalScale j) v
     (mParent j) (mConstraint j) (mLocalPosLength j) (mID j) (mInfoPtr j)
     (mConfig j) (mConfigFlags j) (mIkFlags j).
Definition set_mParent (v : option Z) (j : t) : t :=
  mk (mChildren j) (mLocalPos j) (mPos j) (mLocalRot j) (mRot j) (mLocalScale j) (mBone j)
     v (mConstraint j) (mLocalPosLength j) (mID j) (mInfoPtr j)
     (mConfig j) (mConfigFlags j) (mIkFlags j).
Definition set_mConstraint (v : option Constraint.t) (j : t) : t :=
  mk (mChildren j) (mLocalPos j) (mPos j) (mLocalRot j) (mRot j) (mLocalScale j) (mBone j)
     (mParent j) v (mLocalPosLength j) (mID j) (mInfoPtr j)
     (mConfig j) (mConfigFlags j) (mIkFlags j).
Definition set_mLocalPosLength (v : F32) (j : t) : t :=
  mk (mChildren j) (mLocalPos j) (mPos j) (mLocalRot j) (mRot j) (mLocalScale j) (mBone j)
     (mParent j) (mConstraint j) v (mID j) (mInfoPtr j)
     (mConfig j) (mConfigFlags j) (mIkFlags j).
Definition set_config (c : option Z) (flags : Z) (j : t) : t :=
  mk (mChildren j) (mLocalPos j) (mPos j) (mLocalRot j) (mRot j) (mLocalScale j) (mBone j)
     (mParent j) (mConstraint j) (mLocalPosLength j) (mID j) (mInfoPtr j)
     c flags (mIkFlags j).
Definition set_mIkFlags (v : Z) (j : t) : t :=
  mk (mChildren j) (mLocalPos j) (mPos j) (mLocalRot j) (mRot j) (mLocalScale j) (mBone j)
     (mParent j) (mConstraint j) (mLocalPosLength j) (mID j) (mInfoPtr j)
     (mConfig j) (mConfigFlags j) v.

(** *** Accessors and flag methods *)

Definition hasPosTarget (j : t) : bool := has_flag (mConfigFlags j) CONFIG_FLAG_TARGET_POS.
Definition hasRotTarget (j : t) : bool := has_flag (mConfigFlags j) CONFIG_FLAG_TARGET_ROT.
Definition hasDisabledConstraint (j : t) : bool :=
  has_flag (mConfigFlags j) CONFIG_FLAG_DISABLE_CONSTRAINT.
(* [mIkFlags & IK_FLAG_ACTIVE], converted to bool *)
Definition isActive (j : t) : bool := negb (Z.land (mIkFlags j) IK_FLAG_ACTIVE =? 0).
Definition localRotLocked (j : t) : bool := has_flag (mIkFlags j) IK_FLAG_LOCAL_ROT_LOCKED.
Definition getNumChildren (j : t) : Z := Z.of_nat (length (mChildren j)).
Definition getID (j : t) : Z := mID j.

Definition activate (j : t) : t := set_mIkFlags (Z.lor (mIkFlags j) IK_FLAG_ACTIVE) j.
Definition flagForHarvest (j : t) : t :=
  set_mIkFlags (Z.lor (mIkFlags j) IK_FLAG_LOCAL_ROT) j.

Definition addChild (child : Z) (j : t) : t := set_mChildren (mChildren j ++ [child]) j.

(* we only remember the config here *)
Definition setConfig (key : Z) (config : Config.t) (j : t) : t :=
  set_config (Some key) (Config.getFlags config) j.

Definition resetFlags (j : t) : t :=
  (* root Joint always has IK_FLAG_LOCAL_ROT_LOCKED set *)
  set_mIkFlags (match mParent j with Some _ => 0 | None => IK_FLAG_LOCAL_ROT_LOCKED end)
    (set_config None 0 j).

Definition setWorldPos (pos : LLVector3) (j : t) : t := set_mPos pos j.
Definition setWorldRot (rot : LLQuaternion) (j : t) : t := set_mRot rot j.

Definition setLocalRot (new_local_rot : LLQuaternion) (j : t) : t :=
  if negb (localRotLocked j) then set_mLocalRot new_local_rot j else j.

Definition lockLocalRot (local_rot : LLQuaternion) (j : t) : t :=
  let j := set_mLocalRot local_rot j in
  let j := set_mIkFlags (Z.lor (mIkFlags j) IK_FLAG_LOCAL_ROT_LOCKED) j in
  let j := activate j in
  match mParent j with
  | None => set_mRot local_rot j
  | Some _ => j
  end.

Definition MIN_INVERTABLE_SCALE : F32 := F32.ratio 1 1000000000000000.

Section WithKernel.
Context {K : MathKernel}.

Definition computeWorldEndPos (j : t) : LLVector3 :=
  vec_add (mPos j) (vec_rot (mBone j) (mRot j)).

Definition resetFromInfo (j : t) : t :=
  let scale := info_getScale (mInfoPtr j) in
  let j := set_mLocalPos (vec_scaledVec (info_getPosition (mInfoPtr j)) scale) j in
  let j := set_mBone (vec_scaledVec (info_getEnd (mInfoPtr j)) scale) j in
  let j := set_mLocalPosLength (vec_length (mLocalPos j)) j in
  set_mLocalScale (mkVec F32.one F32.one F32.one) j.

(* Joint::Joint(LLJoint* info_ptr) *)
Definition new (info : JointInfo) : t :=
  resetFromInfo
    (mk [] LLVector3_zero LLVector3_zero LLQuaternion_DEFAULT LLQuaternion_DEFAULT
        LLVector3_zero LLVector3_zero None None F32.zero (info_getJointNum info) info
        None 0 0).

Definition setLocalPos (pos : LLVector3) (j : t) : t :=
  let j := set_mLocalPos (vec_scaledVec pos (mLocalScale j)) j in
  let j := set_mLocalPosLength (vec_length (mLocalPos j)) j in
  match mParent j with
  | None => set_mPos (mLocalPos j) j
  | Some _ => j
  end.

Definition setLocalScale (scale : LLVector3) (j : t) : t :=
  let re (s old : F32) : F32 :=
    if F32.gtb old MIN_INVERTABLE_SCALE then F32.div s old else F32.zero in
  let re_scale :=
    mkVec (re (mV_x scale) (mV_x (mLocalScale j)))
          (re (mV_y scale) (mV_y (mLocalScale j)))
          (re (mV_z scale) (mV_z (mLocalScale j))) in
  let j := set_mLocalScale scale j in
  let j := set_mBone (vec_scaledVec (mBone j) re_scale) j in
  let j := set_mLocalPos (vec_scaledVec (mLocalPos j) re_scale) j in
  set_mLocalPosLength (vec_length (mLocalPos j)) j.
End WithKernel.

End Joint.

(* the joint objects, by pointer *)
Abbreviation Heap := (gmap Z Joint.t).
Abbreviation ConfigMap := (gmap Z Config.t).

(** ** Kinematic primitives on the store

    A method that reaches through [mParent], [mChildren] or [mConfig] runs
    on the store of all joints; dereferencing a null or unknown pointer is
    the failure [None]. *)

Section Kinematics.
Context {K : MathKernel} {P : Projection}.

Definition write (p : Z) (j : Joint.t) (h : Heap) : Heap := <[p := j]> h.

(* [mConfig->...] *)
Definition deref_config (cfgs : ConfigMap) (j : Joint.t) : option Config.t :=
  k ← Joint.mConfig j; cfgs !! k.

(* averaging of quaternions: a summand with negative real part is negated
   to keep all arithmetic on the same hypersphere *)
Definition accumulate (avg adjustment : LLQuaternion) : LLQuaternion :=
  if F32.ltb (mQ_w adjustment) F32.zero
  then quat_sub avg adjustment
  else quat_add avg adjustment.

Definition quat_origin : LLQuaternion := mkQuat F32.zero F32.zero F32.zero F32.zero.

(* the pairs (local_targets[i], world_targets[i]) *)
Definition collectTargetPositions (cfgs : ConfigMap) (this : Z) (h : Heap)
    : option (list (LLVector3 * LLVector3)) :=
  j ← h !! this;
  if Joint.hasPosTarget j then
    cfg ← deref_config cfgs j;
    Some [(Joint.mBone j, Config.mTargetPos cfg)]
  else
    children ← mapM (λ c, h !! c) (Joint.mChildren j);
    Some (map (λ c, (Joint.mLocalPos c, Joint.mPos c))
              (filter (λ c, Joint.isActive c = true) children)).

(* Joint::updateLocalRot, with the enforcement of the constraint left to
   the caller's [enforceConstraint] *)
Definition updateLocalRot_with (enforceConstraint : Z -> Heap -> option (Heap * bool))
    (enforce_constraints : bool) (this : Z) (h : Heap) : option (Heap * bool) :=
  j ← h !! this;
  pp ← Joint.mParent j;
  parent ← h !! pp;
  let inv_parentRot := quat_conjugate (Joint.mRot parent) in
  let new_local_rot := quat_normalize (quat_mul (Joint.mRot j) inv_parentRot) in
  if negb (almost_equal new_local_rot (Joint.mLocalRot j)) then
    if Joint.localRotLocked j then Some (h, true)
    else
      let h := write this (Joint.set_mLocalRot new_local_rot j) h in
      if enforce_constraints then enforceConstraint this h else Some (h, false)
  else Some (h, false).

(* [updateLocalRot(false)] *)
Definition updateLocalRot_false : Z -> Heap -> option (Heap * bool) :=
  updateLocalRot_with (λ _ h, Some (h, false)) false.

(* LLIK::Constraint::enforce: returns 'true' if joint was adjusted *)
Definition Constraint_enforce (c : Constraint.t) (joint : Z) (h : Heap)
    : option (Heap * bool) :=
  j ← h !! joint;
  let local_rot := Joint.mLocalRot j in
  let adjusted_local_rot := computeAdjustedLocalRot c local_rot in
  if negb (almost_equal adjusted_local_rot local_rot) then
    Some (write joint (Joint.setLocalRot adjusted_local_rot j) h, true)
  else Some (h, false).

Definition MIN_PIVOT_LENGTH : F32 := F32.ratio 1 1000000.

(* the triangle of the parent ("shoulder" or "hip"), the joint and its end:
   bend_pivot, lower_pivot, upper_pivot and the lower bone *)
Definition bend_geometry (mPivotAxis : LLVector3) (upper lower : Joint.t)
    : LLVector3 * LLVector3 * LLVector3 * LLVector3 :=
  let shoulder := Joint.mPos upper in
  let elbow := Joint.mPos lower in
  let wrist := Joint.computeWorldEndPos lower in
  let lower_pivot := vec_rot mPivotAxis (Joint.mRot lower) in
  let upper_pivot := vec_rot mPivotAxis (Joint.mRot upper) in
  let lower_arm := vec_normalize (vec_sub wrist elbow) in
  let upper_arm := vec_normalize (vec_sub elbow shoulder) in
  let bend_pivot := vec_cross upper_arm lower_arm in
  let length := vec_length bend_pivot in
  let bend_pivot :=
    if F32.ltb length MIN_PIVOT_LENGTH then upper_pivot else vec_div bend_pivot length in
  (bend_pivot, lower_pivot, upper_pivot, lower_arm).

(* the forearm twist relative to bend_pivot *)
Definition measured_twist (bend_pivot lower_pivot lower_arm : LLVector3) : F32 :=
  let adjustment := shortestArc bend_pivot lower_pivot in
  let '(angle, axis) := getAngleAxis adjustment in
  if F32.ltb (vec_dot axis lower_arm) F32.zero
  then F32.mul angle (F32.opp F32.one)
  else angle.

Definition ElbowConstraint_enforce (c : Constraint.t)
    (mPivotAxis : LLVector3) (mMinTwist mMaxTwist : F32)
    (elbow_joint : Z) (h : Heap) : option (Heap * bool) :=
  elbow ← h !! elbow_joint;
  match Joint.mParent elbow with
  | None =>
      (* the elbow has no shoulder --> rely on the base algorithm *)
      Constraint_enforce c elbow_joint h
  | Some shoulder_joint =>
      shoulder ← h !! shoulder_joint;
      let '(bend_pivot, lower_pivot, upper_pivot, lower_arm) :=
        bend_geometry mPivotAxis shoulder elbow in
      let elbow_rot := Joint.mRot elbow in
      let angle := measured_twist bend_pivot lower_pivot lower_arm in
      (* enforce elbow twist *)
      new_twist ← compute_clamped_angle angle mMinTwist mMaxTwist;
      '(h, something_changed) ←
        (if F32.neqb new_twist angle then
           let adjustment := setAngleAxis (F32.sub new_twist angle) lower_arm in
           let elbow_rot := quat_normalize (quat_mul elbow_rot adjustment) in
           e ← h !! elbow_joint;
           Some (write elbow_joint (Joint.setWorldRot elbow_rot e) h, true)
         else Some (h, false));
      shoulder ← h !! shoulder_joint;
      let shoulder_rot := Joint.mRot shoulder in
      (* back-rotate the shoulder to align its notion of pivot_axis *)
      let adjustment := shortestArc upper_pivot bend_pivot in
      r ←
        (if negb (almost_equal_tol adjustment LLQuaternion_DEFAULT VERY_SMALL_ANGLE) then
           let shoulder_rot := quat_normalize (quat_mul shoulder_rot adjustment) in
           let shoulder := Joint.setWorldRot shoulder_rot shoulder in
           let h := write shoulder_joint shoulder h in
           h ← match Joint.mParent shoulder with
               | Some _ => fst <$> updateLocalRot_false shoulder_joint h
               | None =>
                   Some (write shoulder_joint
                           (Joint.setLocalRot (Joint.mRot shoulder) shoulder) h)
               end;
           Some (h, true)
         else Some (h, something_changed));
      let '(h, something_changed) := (r : Heap * bool) in
      if something_changed then
        r ← updateLocalRot_false elbow_joint h;
        Some (r.1, true)
      else Some (h, false)
  end.

Definition MIN_KNEE_TWIST : F32 := F32.ratio 1 10.

Definition KneeConstraint_enforce (c : Constraint.t) (mPivotAxis : LLVector3)
    (knee_joint : Z) (h : Heap) : option (Heap * bool) :=
  knee ← h !! knee_joint;
  match Joint.mParent knee with
  | None =>
      (* the knee has no thigh --> rely on the base algorithm *)
      Constraint_enforce c knee_joint h
  | Some hip_joint =>
      hip ← h !! hip_joint;
      let '(bend_pivot, lower_pivot, upper_pivot, lower_leg) :=
        bend_geometry mPivotAxis hip knee in
      let knee_rot := Joint.mRot knee in
      let angle := measured_twist bend_pivot lower_pivot lower_leg in
      '(h, knee_rot, something_changed) ←
        (if F32.gtb (F32.abs angle) MIN_KNEE_TWIST then
           let adjustment := setAngleAxis (F32.opp angle) lower_leg in
           let knee_rot := quat_normalize (quat_mul knee_rot adjustment) in
           k ← h !! knee_joint;
           Some (write knee_joint (Joint.setWorldRot knee_rot k) h, knee_rot, true)
         else Some (h, knee_rot, false));
      hip ← h !! hip_joint;
      let hip_rot := Joint.mRot hip in
      let adjustment := shortestArc upper_pivot bend_pivot in
      r ←
        (if negb (almost_equal_tol adjustment LLQuaternion_DEFAULT VERY_SMALL_ANGLE) then
           let hip_rot := quat_normalize (quat_mul hip_rot adjustment) in
           let hip := Joint.setWorldRot hip_rot hip in
           new_local ← match Joint.mParent hip with
                       | Some pelvis_joint =>
                           pelvis ← h !! pelvis_joint;
                           let parent_rot_inv := quat_conjugate (Joint.mRot pelvis) in
                           Some (quat_normalize (quat_mul hip_rot parent_rot_inv))
                       | None => Some (Joint.mRot hip)
                       end;
           Some (write hip_joint (Joint.setLocalRot new_local hip) h, hip_rot, true)
         else Some (h, hip_rot, something_changed));
      let '(h, hip_rot, something_changed) := (r : Heap * LLQuaternion * bool) in
      if something_changed then
        let parent_rot_inv := quat_conjugate hip_rot in
        let new_local_rot := quat_normalize (quat_mul knee_rot parent_rot_inv) in
        k ← h !! knee_joint;
        Some (write knee_joint (Joint.setLocalRot new_local_rot k) h, true)
      else Some (h, false)
  end.

(* the virtual call [mConstraint->enforce] on this joint: dispatch on the
   dynamic type *)
Definition enforce (c : Constraint.t) (joint : Z) (h : Heap) : option (Heap * bool) :=
  match Constraint.derived c with
  | Constraint.ElbowConstraint mPivotAxis _ _ _ mMinTwist mMaxTwist =>
      ElbowConstraint_enforce c mPivotAxis mMinTwist mMaxTwist joint h
  | Constraint.KneeConstraint mPivotAxis _ _ _ =>
      KneeConstraint_enforce c mPivotAxis joint h
  | _ => Constraint_enforce c joint h
  end.

Definition enforceConstraint (this : Z) (h : Heap) : option (Heap * bool) :=
  j ← h !! this;
  match Joint.mConstraint j with
  | Some c =>
      if negb (Joint.localRotLocked j) && negb (Joint.hasDisabledConstraint j)
      then enforce c this h
      else Some (h, false)
  | None => Some (h, false)
  end.

(* returns 'true' if constraint was enforced *)
Definition updateLocalRot : bool -> Z -> Heap -> option (Heap * bool) :=
  updateLocalRot_with enforceConstraint.

(* a loop whose body may fail *)
Fixpoint foldM {A B : Type} (f : B -> A -> option B) (b : B) (l : list A) : option B :=
  match l with
  | [] => Some b
  | a :: l => b' ← f b a; foldM f b' l
  end.

(* the loop over [mChildren] that updates the local rotation of every
   active child *)
Definition updateActiveChildren (enforce_constraints : bool) (children : list Z)
    (h : Heap) : option (Heap * bool) :=
  foldM (λ (acc : Heap * bool) child,
           let '(h, something_changed) := acc in
           c ← h !! child;
           if Joint.isActive c then
             r ← updateLocalRot enforce_constraints child h;
             Some (r.1, r.2 || something_changed)
           else Some (h, something_changed))
        (h, false) children.

(* the loop of updateEndInward that recomputes mRot from the children:
   the running value of avg_rot, which is also assigned to mRot in each
   round *)
Definition averageChildRots (children : list Z) (h : Heap) : option LLQuaternion :=
  foldM (λ (avg_rot : LLQuaternion) child,
           c ← h !! child;
           let child_local_rot_inv := quat_conjugate (Joint.mLocalRot c) in
           let rot := quat_mul child_local_rot_inv (Joint.mRot c) in
           Some (quat_normalize (accumulate avg_rot rot)))
        quat_origin children.

(* updateEndInward, first part: mPos and mRot of the joint itself *)
Definition updateEndInward_self (cfgs : ConfigMap) (this : Z) (h : Heap)
    : option Heap :=
  j ← h !! this;
  j ← (if Joint.hasRotTarget j then
         cfg ← deref_config cfgs j;
         let j := Joint.set_mRot (Config.mTargetRot cfg) j in
         if Joint.hasPosTarget j then
           Some (Joint.set_mPos
                   (vec_sub (Config.mTargetPos cfg) (vec_rot (Joint.mBone j) (Joint.mRot j))) j)
         else Some j
       else
         targets ← collectTargetPositions cfgs this h;
         match targets with
         | [(local_target, world_target)] =>
             (* special handling for the most common num_targets=1 case *)
             let bone_dir := vec_normalize (vec_sub world_target (Joint.mPos j)) in
             let j := Joint.set_mPos
                        (vec_sub world_target (vec_scale (vec_length local_target) bone_dir)) j in
             let old_bone := vec_rot local_target (Joint.mRot j) in
             let adjustment := shortestArc old_bone bone_dir in
             Some (Joint.set_mRot (quat_normalize (quat_mul (Joint.mRot j) adjustment)) j)
         | _ =>
             let '(new_pos, avg_adjustment) :=
               fold_left
                 (λ (acc : LLVector3 * LLQuaternion) (target : LLVector3 * LLVector3),
                    let '(new_pos, avg_adjustment) := acc in
                    let '(local_target, world_target) := target in
                    let new_bone := vec_normalize (vec_sub world_target (Joint.mPos j)) in
                    let new_bone := vec_scale (vec_length local_target) new_bone in
                    let new_pos := vec_add new_pos (vec_sub world_target new_bone) in
                    let old_bone := vec_rot local_target (Joint.mRot j) in
                    let adjustment := shortestArc old_bone new_bone in
                    (new_pos, accumulate avg_adjustment adjustment))
                 targets (LLVector3_zero, quat_origin) in
             parent_active ← match Joint.mParent j with
                             | Some pp => parent ← h !! pp; Some (Joint.isActive parent)
                             | None => Some false
                             end;
             let j := if parent_active : bool
                      then Joint.set_mPos
                             (vec_div new_pos (F32.of_Z (Z.of_nat (length targets)))) j
                      else j in
             let avg_adjustment := quat_normalize avg_adjustment in
             Some (Joint.set_mRot (quat_normalize (quat_mul (Joint.mRot j) avg_adjustment)) j)
         end);
  Some (write this j h).

(* updateEndInward, last part: during the inward pass child swings parent
   whenever its constraint is enforced so we need to recompute mRot *)
Definition updateEndInward_average (this : Z) (h : Heap) : option Heap :=
  j ← h !! this;
  match Joint.mChildren j with
  | [] => Some h
  | children =>
      avg_rot ← averageChildRots children h;
      Some (write this (Joint.set_mRot avg_rot j) h)
  end.

Definition updateEndInward (cfgs : ConfigMap) (enforce_constraints : bool)
    (this : Z) (h : Heap) : option Heap :=
  h ← updateEndInward_self cfgs this h;
  j ← h !! this;
  (* now that we know mRot --> update children mLocalRot *)
  r ← updateActiveChildren enforce_constraints (Joint.mChildren j) h;
  let '(h, something_changed) := (r : Heap * bool) in
  if something_changed then updateEndInward_average this h else Some h.

Definition applyLocalRot (cfgs : ConfigMap) (this : Z) (h : Heap) : option Heap :=
  j ← h !! this;
  match Joint.mParent j with
  | Some pp =>
      parent ← h !! pp;
      if Joint.hasRotTarget j then
        cfg ← deref_config cfgs j;
        (* apply backpressure by lerping toward new_rot *)
        let new_rot := quat_mul (Joint.mLocalRot j) (Joint.mRot parent) in
        let WORLD_ROT_TARGET_BACKPRESSURE_COEF := F32.ratio 1 2 in
        let j := Joint.set_mRot
                   (quat_lerp WORLD_ROT_TARGET_BACKPRESSURE_COEF (Config.mTargetRot cfg) new_rot) j in
        (* recompute mLocalRot *)
        let inv_parentRot := quat_conjugate (Joint.mRot parent) in
        Some (write this
                (Joint.set_mLocalRot (quat_normalize (quat_mul (Joint.mRot j) inv_parentRot)) j) h)
      else
        Some (write this
                (Joint.set_mRot
                   (quat_normalize (quat_mul (Joint.mLocalRot j) (Joint.mRot parent))) j) h)
  | None =>
      (* for root Joint: local-frame is world-frame *)
      Some (write this (Joint.set_mRot (Joint.mLocalRot j) j) h)
  end.

(* the common tail of updateEndOutward and updateOutward *)
Definition updateLocalRot_and_apply (cfgs : ConfigMap) (enforce_constraints : bool)
    (this : Z) (h : Heap) : option Heap :=
  r ← updateLocalRot enforce_constraints this h;
  if (r.2 : bool) then applyLocalRot cfgs this r.1 else Some r.1.

Definition updateEndOutward (cfgs : ConfigMap) (enforce_constraints : bool)
    (this : Z) (h : Heap) : option Heap :=
  j ← h !! this;
  (* mParent is expected to be non-null. *)
  pp ← Joint.mParent j;
  parent ← h !! pp;
  let j := Joint.set_mPos
             (vec_add (Joint.mPos parent) (vec_rot (Joint.mLocalPos j) (Joint.mRot parent))) j in
  if Joint.localRotLocked j then
    Some (write this
            (Joint.set_mRot (quat_mul (Joint.mLocalRot j) (Joint.mRot parent)) j) h)
  else
    j ← (if Joint.hasRotTarget j then
           cfg ← deref_config cfgs j;
           let j := Joint.set_mRot (Config.mTargetRot cfg) j in
           if Joint.hasPosTarget j then
             Some (Joint.set_mPos
                     (vec_sub (Config.mTargetPos cfg)
                              (vec_rot (Joint.mBone j) (Joint.mRot j))) j)
           else Some j
         else
           targets ← collectTargetPositions cfgs this h;
           let rot :=
             match targets with
             | [(local_target, world_target)] =>
                 let new_bone := vec_sub world_target (Joint.mPos j) in
                 let old_bone := vec_rot local_target (Joint.mRot j) in
                 let adjustment := shortestArc old_bone new_bone in
                 quat_mul (Joint.mRot j) adjustment
             | _ =>
                 let avg_adjustment :=
                   fold_left
                     (λ (avg_adjustment : LLQuaternion) (target : LLVector3 * LLVector3),
                        let '(local_target, world_target) := target in
                        let new_bone := vec_sub world_target (Joint.mPos j) in
                        let old_bone := vec_rot local_target (Joint.mRot j) in
                        accumulate avg_adjustment (shortestArc old_bone new_bone))
                     targets quat_origin in
                 quat_mul (Joint.mRot j) (quat_normalize avg_adjustment)
             end in
           Some (Joint.set_mRot (quat_normalize rot) j));
    updateLocalRot_and_apply cfgs enforce_constraints this (write this j h).

(* this Joint's child is specified in argument *)
Definition updateInward (enforce_constraints : bool) (child : Z)
    (this : Z) (h : Heap) : option Heap :=
  j ← h !! this;
  c ← h !! child;
  let old_pos := Joint.mPos j in
  let bone_dir := vec_normalize (vec_sub (Joint.mPos c) old_pos) in
  let j := Joint.set_mPos
             (vec_sub (Joint.mPos c) (vec_scale (Joint.mLocalPosLength c) bone_dir)) j in
  let old_bone := vec_rot (Joint.mLocalPos c) (Joint.mRot j) in
  let adjustment := shortestArc old_bone bone_dir in
  let j := Joint.set_mRot (quat_normalize (quat_mul (Joint.mRot j) adjustment)) j in
  let h := write this j h in
  (* now that we know mRot --> update child->mLocalRot *)
  r ← updateLocalRot enforce_constraints child h;
  let '(h, enforced) := (r : Heap * bool) in
  if enforced then
    j ← h !! this;
    c ← h !! child;
    let child_local_rot_inv := quat_conjugate (Joint.mLocalRot c) in
    let j := Joint.set_mRot (quat_normalize (quat_mul child_local_rot_inv (Joint.mRot c))) j in
    let j := Joint.set_mPos
               (vec_sub (Joint.mPos c) (vec_rot (Joint.mLocalPos c) (Joint.mRot j))) j in
    Some (write this j h)
  else Some h.

(* updateOutward, first part: mPos and mRot of the joint from its parent *)
Definition updateOutward_self (parent j : Joint.t) : Joint.t :=
  let old_end_pos := vec_add (Joint.mPos j) (vec_rot (Joint.mBone j) (Joint.mRot j)) in
  let j := Joint.set_mPos
             (vec_add (Joint.mPos parent) (vec_rot (Joint.mLocalPos j) (Joint.mRot parent))) j in
  let new_bone := vec_sub old_end_pos (Joint.mPos j) in
  let old_bone := vec_rot (Joint.mBone j) (Joint.mRot j) in
  let dQ := shortestArc old_bone new_bone in
  Joint.set_mRot (quat_normalize (quat_mul (Joint.mRot j) dQ)) j.

Definition updateOutward (cfgs : ConfigMap) (enforce_constraints : bool)
    (this : Z) (h : Heap) : option Heap :=
  j ← h !! this;
  (* mParent is expected to be non-null. *)
  pp ← Joint.mParent j;
  parent ← h !! pp;
  updateLocalRot_and_apply cfgs enforce_constraints this
    (write this (updateOutward_self parent j) h).

Definition updateChildLocalRots (this : Z) (h : Heap) : option Heap :=
  j ← h !! this;
  (* child constraints are NOT enforced at this step *)
  fst <$> updateActiveChildren false (Joint.mChildren j) h.

Definition reset (this : Z) (h : Heap) : option Heap :=
  j ← h !! this;
  let j := Joint.resetFromInfo j in
  let j := Joint.set_mLocalRot LLQuaternion_DEFAULT j in
  match Joint.mParent j with
  | Some pp =>
      parent ← h !! pp;
      let j := Joint.set_mPos
                 (vec_add (Joint.mPos parent)
                          (vec_rot (Joint.mLocalPos j) (Joint.mRot parent))) j in
      Some (write this (Joint.set_mRot (Joint.mRot parent) j) h)
  | None =>
      let j := Joint.set_mPos (Joint.mLocalPos j) j in
      Some (write this (Joint.set_mRot (Joint.mLocalRot j) j) h)
  end.

Definition setParent (parent : option Z) (this : Z) (h : Heap) : option Heap :=
  j ← h !! this;
  let j := Joint.set_mParent parent j in
  let j := match parent with
           | None =>
               (* The root's local orientation is never updated by the IK
                  algorithm, which is why we flag it as "locked". *)
               Joint.set_mIkFlags IK_FLAG_LOCAL_ROT_LOCKED j
           | Some _ => j
           end in
  reset this (write this j h).

Definition relaxRot (blend_factor : F32) (this : Z) (h : Heap) : option Heap :=
  j ← h !! this;
  let j := if negb (Joint.localRotLocked j)
           then Joint.set_mLocalRot
                  (quat_lerp blend_factor (Joint.mLocalRot j) LLQuaternion_DEFAULT) j
           else j in
  match Joint.mParent j with
  | Some pp =>
      parent ← h !! pp;
      (* we always recompute world-frame transform because parent may have relaxed *)
      let j := Joint.set_mRot
                 (quat_normalize (quat_mul (Joint.mLocalRot j) (Joint.mRot parent))) j in
      Some (write this
              (Joint.set_mPos
                 (vec_add (Joint.mPos parent)
                          (vec_rot (Joint.mLocalPos j) (Joint.mRot parent))) j) h)
  | None =>
      let j := Joint.set_mRot (Joint.mLocalRot j) j in
      Some (write this (Joint.set_mPos (Joint.mLocalPos j) j) h)
  end.

(* [std::min(std::max(blend_factor, 0.0f), 1.0f)] *)
Definition clamp01 (x : F32) : F32 :=
  let x := if F32.ltb x F32.zero then F32.zero else x in
  if F32.ltb F32.one x then F32.one else x.

(* The recursion follows the children; [depth] bounds the number of nested
   calls, and running out of it is a failure. *)
Fixpoint relaxRotationsRecursively (depth : nat) (blend_factor : F32)
    (this : Z) (h : Heap) : option Heap :=
  match depth with
  | O => None
  | S depth =>
      let blend_factor := clamp01 blend_factor in
      h ← relaxRot blend_factor this h;
      j ← h !! this;
      foldM (λ h child,
               c ← h !! child;
               if Joint.isActive c
               then relaxRotationsRecursively depth blend_factor child h
               else Some h)
            h (Joint.mChildren j)
  end.

(* takes reference to a null Joint::ptr_t and updates it if it finds only
   one active child *)
Definition getSingleActiveChild (this : Joint.t) (h : Heap) : option (option Z) :=
  children ← mapM (λ c, j ← h !! c; Some (c, j)) (Joint.mChildren this);
  match filter (λ cj, Joint.isActive cj.2 = true) children with
  | [cj] => Some (Some cj.1)
  | _ => Some None
  end.
End Kinematics.

(** ** The solver *)

Module Solver.

Record t := mk {
  mSkeleton : Heap;
  mJointConfigs : ConfigMap;
  mChainMap : gmap Z (list Z);
  mSubBaseIds : gset Z;     (* HACK: whitelist of sub-bases *)
  mSubRootIds : gset Z;     (* HACK: whitelist of sub-roots *)
  mActiveRoots : gset Z;
  mActiveJoints : list Z;
  mWristJoints : list Z;
  mAcceptableError : F32;
  mLastError : F32;
  mRootID : Z
}.

(* LLIK::Solver::Solver() *)
Definition new : t :=
  mk ∅ ∅ ∅ ∅ ∅ ∅ [] [] IK_DEFAULT_ACCEPTABLE_ERROR F32.zero (-1).

Definition set_mSkeleton (v : Heap) (s : t) : t :=
  mk v (mJointConfigs s) (mChainMap s) (mSubBaseIds s) (mSubRootIds s) (mActiveRoots s)
     (mActiveJoints s) (mWristJoints s) (mAcceptableError s) (mLastError s) (mRootID s).
Definition set_mJointConfigs (v : ConfigMap) (s : t) : t :=
  mk (mSkeleton s) v (mChainMap s) (mSubBaseIds s) (mSubRootIds s) (mActiveRoots s)
     (mActiveJoints s) (mWristJoints s) (mAcceptableError s) (mLastError s) (mRootID s).
Definition set_mChainMap (v : gmap Z (list Z)) (s : t) : t :=
  mk (mSkeleton s) (mJointConfigs s) v (mSubBaseIds s) (mSubRootIds s) (mActiveRoots s)
     (mActiveJoints s) (mWristJoints s) (mAcceptableError s) (mLastError s) (mRootID s).
Definition set_mActiveRoots (v : gset Z) (s : t) : t :=
  mk (mSkeleton s) (mJointConfigs s) (mChainMap s) (mSubBaseIds s) (mSubRootIds s) v
     (mActiveJoints s) (mWristJoints s) (mAcceptableError s) (mLastError s) (mRootID s).
Definition set_mActiveJoints (v : list Z) (s : t) : t :=
  mk (mSkeleton s) (mJointConfigs s) (mChainMap s) (mSubBaseIds s) (mSubRootIds s)
     (mActiveRoots s) v (mWristJoints s) (mAcceptableError s) (mLastError s) (mRootID s).
Definition set_mLastError (v : F32) (s : t) : t :=
  mk (mSkeleton s) (mJointConfigs s) (mChainMap s) (mSubBaseIds s) (mSubRootIds s)
     (mActiveRoots s) (mActiveJoints s) (mWristJoints s) (mAcceptableError s) v (mRootID s).

Definition setRootID (root_id : Z) (s : t) : t :=
  mk (mSkeleton s) (mJointConfigs s) (mChainMap s) (mSubBaseIds s) (mSubRootIds s)
     (mActiveRoots s) (mActiveJoints s) (mWristJoints s) (mAcceptableError s)
     (mLastError s) root_id.
Definition setSubBaseIds (ids : gset Z) (s : t) : t :=
  mk (mSkeleton s) (mJointConfigs s) (mChainMap s) ids (mSubRootIds s)
     (mActiveRoots s) (mActiveJoints s) (mWristJoints s) (mAcceptableError s)
     (mLastError s) (mRootID s).
Definition setSubRootIds (ids : gset Z) (s : t) : t :=
  mk (mSkeleton s) (mJointConfigs s) (mChainMap s) (mSubBaseIds s) ids
     (mActiveRoots s) (mActiveJoints s) (mWristJoints s) (mAcceptableError s)
     (mLastError s) (mRootID s).
Definition setAcceptableError (slop : F32) (s : t) : t :=
  mk (mSkeleton s) (mJointConfigs s) (mChainMap s) (mSubBaseIds s) (mSubRootIds s)
     (mActiveRoots s) (mActiveJoints s) (mWristJoints s) slop (mLastError s) (mRootID s).

Definition isSubBase (s : t) (joint_id : Z) : bool :=
  bool_decide (joint_id ∈ mSubBaseIds s).

Definition isSubRoot (s : t) (joint_id : Z) : bool :=
  negb (bool_decide (mSubRootIds s = ∅)) && bool_decide (joint_id ∈ mSubRootIds s).

End Solver.

Section SolverOps.
Context {K : MathKernel} {P : Projection}.

Import Solver.

(* Add a Joint to the skeleton. *)
Definition addJoint (joint_id parent_id : Z) (joint_info : JointInfo)
    (constraint : option Constraint.t) (s : Solver.t) : option Solver.t :=
  if joint_id <? 0 then Some s
  else match mSkeleton s !! joint_id with
  | Some _ => Some s
  | None =>
      let parent := match mSkeleton s !! parent_id with
                    | Some _ => Some (Some parent_id)
                    | None => if parent_id >=? mRootID s then None else Some None
                    end in
      match parent with
      | None => Some s
      | Some parent =>
          let h := write joint_id (Joint.new joint_info) (mSkeleton s) in
          h ← setParent parent joint_id h;
          h ← match parent with
              | Some pp => p ← h !! pp; Some (write pp (Joint.addChild joint_id p) h)
              | None => Some h
              end;
          j ← h !! joint_id;
          Some (set_mSkeleton (write joint_id (Joint.set_mConstraint constraint j) h) s)
      end
  end.

(** *** updateJointConfigs *)

(* the comparisons of one old target with the new target of the same id *)
Definition config_changed (acceptable : F32) (old_target new_target : Config.t) : bool :=
  let mask := Config.getFlags old_target in
  if negb (mask =? Config.getFlags new_target) then true
  else if has_flag mask CONFIG_FLAG_TARGET_POS
          && F32.gtb (F32.abs (dist_vec (Config.mTargetPos old_target)
                                        (Config.mTargetPos new_target))) acceptable
  then true
  else if has_flag mask CONFIG_FLAG_TARGET_ROT
          && negb (almost_equal (Config.mTargetRot old_target) (Config.mTargetRot new_target))
  then true
  else if has_flag mask CONFIG_FLAG_LOCAL_POS
          && F32.gtb (F32.abs (dist_vec (Config.mLocalPos old_target)
                                        (Config.mLocalPos new_target))) acceptable
  then true
  else if has_flag mask CONFIG_FLAG_LOCAL_ROT
          && negb (almost_equal (Config.mLocalRot old_target) (Config.mLocalRot new_target))
  then true
  else false.

(* apply configs and return 'true' if something changed *)
Definition updateJointConfigs (configs : ConfigMap) (s : Solver.t) : Solver.t * bool :=
  let something_changed :=
    if bool_decide (size configs = size (mJointConfigs s)) then
      existsb (λ data_pair : Z * Config.t,
                 match configs !! data_pair.1 with
                 | Some new_target =>
                     config_changed (mAcceptableError s) data_pair.2 new_target
                 | None => true
                 end)
              (map_items (mJointConfigs s))
    else true in
  (if something_changed then set_mJointConfigs configs s else s, something_changed).

(** *** buildChain *)

(* the while loop of buildChain; [fuel] is chain_length - chain.size() *)
Fixpoint buildChain_walk (s : Solver.t) (fuel : nat) (joint : option Z)
    (chain : list Z) (sub_bases : gset Z) (h : Heap)
    : option (Heap * list Z * gset Z) :=
  match fuel, joint with
  | S fuel, Some p =>
      j ← h !! p;
      let chain := chain ++ [p] in
      let h := write p (Joint.activate j) h in
      let joint_id := Joint.getID j in
      if isSubRoot s joint_id then Some (h, chain, sub_bases)
      else if joint_id =? mRootID s then Some (h, chain, sub_bases)
      else if Joint.hasPosTarget j then Some (h, chain, sub_bases)
      else if (bool_decide (mSubBaseIds s = ∅) && (1 <? Joint.getNumChildren j))
              || isSubBase s joint_id
      then Some (h, chain, {[joint_id]} ∪ sub_bases)
      else buildChain_walk s fuel (Joint.mParent j) chain sub_bases h
  | _, _ => Some (h, chain, sub_bases)
  end.

Definition buildChain (s : Solver.t) (joint : Z) (chain : list Z) (sub_bases : gset Z)
    (chain_length : Z) (h : Heap) : option (Heap * list Z * gset Z) :=
  j ← h !! joint;
  let chain := chain ++ [joint] in
  let h := write joint (Joint.activate j) h in
  buildChain_walk s (Z.to_nat chain_length - length chain) (Joint.mParent j)
                  chain sub_bases h.

(** *** rebuildAllChains *)

(* the state threaded through the loops of rebuildAllChains *)
Record Build := mkBuild {
  b_heap : Heap;
  b_configs : ConfigMap;
  b_chains : gmap Z (list Z);
  b_roots : gset Z;
  b_sub_bases : gset Z
}.

Definition on_joint (f : Joint.t -> Joint.t) (p : Z) (h : Heap) : option Heap :=
  j ← h !! p; Some (write p (f j) h).

(* [mChainMap[joint_id] = Joint::joint_vec_t(); buildChain(...)] *)
Definition addChain (s : Solver.t) (joint_id joint : Z) (chain_length : Z)
    (b : Build) : option Build :=
  r ← buildChain s joint [] (b_sub_bases b) chain_length (b_heap b);
  let '(h, chain, sub_bases) := (r : Heap * list Z * gset Z) in
  Some (mkBuild h (b_configs b) (<[joint_id := chain]> (b_chains b)) (b_roots b) sub_bases).

(* Joint::setTargetPos: writes through the const pointer mConfig *)
Definition Joint_setTargetPos (pos : LLVector3) (j : Joint.t) (cfgs : ConfigMap)
    : option ConfigMap :=
  if Joint.hasPosTarget j then
    k ← Joint.mConfig j;
    config ← cfgs !! k;
    Some (<[k := Config.setTargetPos pos config]> cfgs)
  else Some cfgs.

(* one round of the loop over mJointConfigs *)
Definition applyConfig (s : Solver.t) (joint_id : Z) (b : Build) : option Build :=
  config ← b_configs b !! joint_id;
  (* make sure joint_id is valid *)
  match b_heap b !! joint_id with
  | None => Some b
  | Some joint =>
      let joint := Joint.setConfig joint_id config joint in
      if Joint.getID joint =? mRootID s then
        (* for root: world-frame == local-frame *)
        let flags := Joint.mConfigFlags joint in
        let '(joint, roots) :=
          if negb (Z.land flags MASK_ROT =? 0) then
            let q := if negb (Z.land flags CONFIG_FLAG_LOCAL_ROT =? 0)
                     then Config.mLocalRot config else Config.mTargetRot config in
            (Joint.activate (Joint.lockLocalRot q joint), {[joint_id]} ∪ b_roots b)
          else (joint, b_roots b) in
        let joint :=
          if negb (Z.land flags MASK_POS =? 0) then
            let p := if negb (Z.land flags CONFIG_FLAG_LOCAL_POS =? 0)
                     then Config.mLocalPos config else Config.mTargetPos config in
            Joint.activate (Joint.setLocalPos p joint)
          else joint in
        let joint :=
          if negb (Z.land flags CONFIG_FLAG_LOCAL_SCALE =? 0)
          then Joint.setLocalScale (Config.mLocalScale config) joint
          else joint in
        Some (mkBuild (write joint_id joint (b_heap b)) (b_configs b) (b_chains b)
                      roots (b_sub_bases b))
      else
        let joint := if Config.hasLocalRot config
                     then Joint.lockLocalRot (Config.mLocalRot config) joint
                     else joint in
        let b := mkBuild (write joint_id joint (b_heap b)) (b_configs b) (b_chains b)
                         (b_roots b) (b_sub_bases b) in
        if Config.hasDelegated config then
          (* don't build chain for delegated Target *)
          Some b
        else
          b ← (if Config.hasTargetPos config then
                 b ← addChain s joint_id joint_id (Config.getChainLimit config) b;
                 joint ← b_heap b !! joint_id;
                 pp ← Joint.mParent joint;
                 parent ← b_heap b !! pp;
                 if Joint.hasPosTarget parent then
                   (* Sequential targets detected *)
                   let child_target_pos := Config.mTargetPos config in
                   parent_config ← deref_config (b_configs b) parent;
                   let parent_target_pos := Config.mTargetPos parent_config in
                   let direction := vec_normalize (vec_sub parent_target_pos child_target_pos) in
                   let direction := vec_scale (Joint.mLocalPosLength joint) direction in
                   let parent_target_pos := vec_add child_target_pos direction in
                   cfgs ← Joint_setTargetPos parent_target_pos parent (b_configs b);
                   Some (mkBuild (b_heap b) cfgs (b_chains b) (b_roots b) (b_sub_bases b))
                 else Some b
               else if Config.hasTargetRot config then
                 addChain s joint_id joint_id (Config.getChainLimit config) b
               else Some b);
          h ← (if Config.hasLocalPos config then
                 on_joint (λ j, Joint.activate (Joint.setLocalPos (Config.mLocalPos config) j))
                          joint_id (b_heap b)
               else Some (b_heap b));
          h ← (if Config.hasLocalScale config then
                 on_joint (λ j, Joint.activate
                                  (Joint.setLocalScale (Config.mLocalScale config) j))
                          joint_id h
               else Some h);
          Some (mkBuild h (b_configs b) (b_chains b) (b_roots b) (b_sub_bases b))
  end.

(* each sub_base gets its own Chain; [rounds] bounds the number of rounds
   of the while loop, and running out of it is a failure *)
Fixpoint buildSubBaseChains (s : Solver.t) (rounds : nat) (b : Build) : option Build :=
  if bool_decide (b_sub_bases b = ∅) then Some b
  else match rounds with
  | O => None
  | S rounds =>
      b' ← foldM (λ b joint_id,
                    (* [mSkeleton[joint_id]]: a missing key yields a null pointer *)
                    _ ← b_heap b !! joint_id;
                    addChain s joint_id joint_id 255 b)
                 (mkBuild (b_heap b) (b_configs b) (b_chains b) (b_roots b) ∅)
                 (set_items (b_sub_bases b));
      buildSubBaseChains s rounds b'
  end.

Definition to_U16 (z : Z) : Z := z mod 65536.
Definition to_S16 (z : Z) : Z := (z + 32768) mod 65536 - 32768.

(* search for Chain-joins *)
Definition findJoins (s : Solver.t) (h : Heap) (chains : gmap Z (list Z))
    : option (list Z) :=
  foldM (λ joins (data_pair : Z * list Z),
           p ← head data_pair.2;
           outer_end ← h !! p;
           if negb (Joint.hasPosTarget outer_end)
              && negb (isSubBase s (Joint.getID outer_end))
           then
             active_child ← getSingleActiveChild outer_end h;
             match active_child with
             | Some _ => Some (joins ++ [to_U16 (Joint.getID outer_end)])
             | None => Some joins
             end
           else Some joins)
        [] (map_items chains).

(* hunt for recipient chain: the first chain whose inner end has this id *)
Fixpoint findRecipient (h : Heap) (id : Z) (items : list (Z * list Z))
    : option (option (Z * list Z)) :=
  match items with
  | [] => Some None
  | (k, recipient) :: items =>
      p ← last recipient;
      inner_end ← h !! p;
      if Joint.getID inner_end =? id then Some (Some (k, recipient))
      else findRecipient h id items
  end.

Definition makeJoin (h : Heap) (chains : gmap Z (list Z)) (id : Z)
    : option (gmap Z (list Z)) :=
  found ← findRecipient h id (map_items chains);
  match found with
  | None => Some chains
  | Some (k, recipient) =>
      (* copy donor to recipient *)
      let donor := default [] (chains !! to_S16 id) in
      match donor with
      | [] => None
      | _ :: rest =>
          (* erase donor *)
          Some (delete (to_S16 id) (<[k := recipient ++ rest]> chains))
      end
  end.

Definition rebuildAllChains (s : Solver.t) : option Solver.t :=
  (* before recompute chains: clear active status on old chains *)
  h ← foldM (λ h (data_pair : Z * list Z),
               foldM (λ h joint, on_joint Joint.resetFlags joint h) h data_pair.2)
            (mSkeleton s) (map_items (mChainMap s));
  let b := mkBuild h (mJointConfigs s) ∅ ∅ ∅ in
  b ← foldM (λ b (data_pair : Z * Config.t), applyConfig s data_pair.1 b)
            b (map_items (mJointConfigs s));
  b ← buildSubBaseChains s (S (size (mSkeleton s))) b;
  (* eliminate "false" sub-bases and condense the Chains *)
  joins ← findJoins s (b_heap b) (b_chains b);
  chains ← foldM (makeJoin (b_heap b)) (b_chains b) joins;
  (* cache the set of active branch roots *)
  roots ← foldM (λ roots (data_pair : Z * list Z),
                   chain_base ← last data_pair.2;
                   base ← b_heap b !! chain_base;
                   parent_active ← match Joint.mParent base with
                                   | Some pp => parent ← b_heap b !! pp;
                                                Some (Joint.isActive parent)
                                   | None => Some false
                                   end;
                   if parent_active : bool then Some roots
                   else Some ({[chain_base]} ∪ roots))
                (b_roots b) (map_items chains);
  (* cache the list of all active joints *)
  let active := filter (λ data_pair : Z * Joint.t, Joint.isActive data_pair.2 = true)
                       (map_items (b_heap b)) in
  let h := foldl (λ h (data_pair : Z * Joint.t),
                    write data_pair.1 (Joint.flagForHarvest data_pair.2) h)
                 (b_heap b) active in
  Some (set_mActiveJoints (active.*1)
          (set_mActiveRoots roots
             (set_mChainMap chains
                (set_mJointConfigs (b_configs b) (set_mSkeleton h s))))).

(** *** The FABRIK pass *)

Definition executeFabrikInward (cfgs : ConfigMap) (chain : list Z)
    (enforce_constraints : bool) (h : Heap) : option Heap :=
  outer_end ← head chain;
  h ← updateEndInward cfgs enforce_constraints outer_end h;
  (* chain[i]->updateInward(chain[i-1]) for 0 < i < last_index *)
  let middle := removelast (tail chain) in
  let children := firstn (length middle) chain in
  foldM (λ h (pair : Z * Z), updateInward enforce_constraints pair.2 pair.1 h)
        h (zip middle children).

Definition executeFabrikOutward (cfgs : ConfigMap) (chain : list Z)
    (enforce_constraints : bool) (h : Heap) : option Heap :=
  (* traverse the middle of chain in reverse *)
  let middle := removelast (tail chain) in
  h ← foldM (λ h joint, updateOutward cfgs enforce_constraints joint h) h (rev middle);
  outer_end ← head chain;
  updateEndOutward cfgs enforce_constraints outer_end h.

Definition executeFabrikPass (enforce_constraints : bool) (s : Solver.t) : option Heap :=
  let cfgs := mJointConfigs s in
  let chains := map_items (mChainMap s) in
  h ← foldM (λ h (data_pair : Z * list Z),
               executeFabrikInward cfgs data_pair.2 enforce_constraints h)
            (mSkeleton s) (rev chains);
  h ← foldM (λ h root, updateChildLocalRots root h) h (set_items (mActiveRoots s));
  foldM (λ h (data_pair : Z * list Z),
           executeFabrikOutward cfgs data_pair.2 enforce_constraints h)
        h chains.

Definition measureMaxError (s : Solver.t) : option F32 :=
  foldM (λ max_error (data_pair : Z * Config.t),
           let joint_id := data_pair.1 in
           let target := data_pair.2 in
           if joint_id =? mRootID s then
             (* skip error measure of root joint: should always be zero *)
             Some max_error
           else if Config.hasTargetPos target && negb (Config.hasDelegated target) then
             (* [mSkeleton[joint_id]->computeWorldEndPos()]: a missing key
                yields a null pointer *)
             joint ← mSkeleton s !! joint_id;
             let end_pos := Joint.computeWorldEndPos joint in
             let dist := dist_vec end_pos (Config.mTargetPos target) in
             Some (if F32.gtb dist max_error then dist else max_error)
           else Some max_error)
        F32.zero (map_items (mJointConfigs s)).

Definition solveOnce (s : Solver.t) : option (Solver.t * F32) :=
  let enforce_constraints := true in
  h ← executeFabrikPass enforce_constraints s;
  let s := set_mSkeleton h s in
  max_error ← measureMaxError s;
  Some (s, max_error).

Definition MAX_SOLVER_ITERATIONS : Z := 16.
Definition MIN_SOLVER_ITERATIONS : Z := 4.
(* std::numeric_limits<F32>::max() *)
Definition F32_MAX : F32 := SFmax_float F32.prec F32.emax.

(* The for loop of solve, from the state with counter [loop] and error
   [max_error]: the number of calls of solveOnce it makes, and its final
   state and error, or [None] if a call failed.  [fuel] is
   MAX_SOLVER_ITERATIONS - loop. *)
Fixpoint solveLoop (fuel : nat) (loop : Z) (max_error : F32) (s : Solver.t)
    : nat * option (Solver.t * F32) :=
  match fuel with
  | O => (O, Some (s, max_error))
  | S fuel =>
      if (loop <? MIN_SOLVER_ITERATIONS)
         || ((loop <? MAX_SOLVER_ITERATIONS) && F32.gtb max_error (mAcceptableError s))
      then
        match solveOnce s with
        | None => (1%nat, None)
        | Some (s, max_error) =>
            let r := solveLoop fuel (loop + 1) max_error s in
            (S r.1, r.2)
        end
      else (O, Some (s, max_error))
  end.

Definition INITIAL_RELAXATION_FACTOR : F32 := F32.ratio 1 4.

(* the part of solve before the iterations *)
Definition prepareSolve (s : Solver.t) : option Solver.t :=
  s ← rebuildAllChains s;
  h ← foldM (λ h root,
               relaxRotationsRecursively (S (size (mSkeleton s)))
                                         INITIAL_RELAXATION_FACTOR root h)
            (mSkeleton s) (set_items (mActiveRoots s));
  Some (set_mSkeleton h s).

(* the iterations of solve with the number of passes they made *)
Definition solveIterations (s : Solver.t) : nat * option (Solver.t * F32) :=
  let r := solveLoop (Z.to_nat MAX_SOLVER_ITERATIONS) 0 F32_MAX s in
  (r.1, match r.2 with
        | Some (s, max_error) => Some (set_mLastError max_error s, max_error)
        | None => None
        end).

Definition solve (s : Solver.t) : option (Solver.t * F32) :=
  s ← prepareSolve s;
  (solveIterations s).2.

(** *** Per-joint readbacks *)

Definition getJointLocalPos (s : Solver.t) (joint_id : Z) : LLVector3 :=
  match mSkeleton s !! joint_id with
  | Some j => Joint.mLocalPos j
  | None => LLVector3_zero
  end.

Definition getJointLocalTransform (s : Solver.t) (joint_id : Z)
    : option (LLVector3 * LLQuaternion) :=
  match mSkeleton s !! joint_id with
  | Some j => Some (Joint.mLocalPos j, Joint.mLocalRot j)
  | None => None
  end.

Definition getJointWorldEndPos (s : Solver.t) (joint_id : Z) : LLVector3 :=
  match mSkeleton s !! joint_id with
  | Some j => Joint.computeWorldEndPos j
  | None => LLVector3_zero
  end.

Definition getJointWorldRot (s : Solver.t) (joint_id : Z) : LLQuaternion :=
  match mSkeleton s !! joint_id with
  | Some j => Joint.mRot j
  | None => LLQuaternion_DEFAULT
  end.
End SolverOps.

(** ** The constraint factory *)

Section Factory.
Context {K : MathKernel}.
(* LLSD and the parsing of a constraint definition by the constructors
   called from [create] are outside the sources at hand *)
Context {LLSD : Type} (create : LLSD -> option Constraint.t).

(* [mConstraints], keyed by hash; a shared instance is the stored value *)
Definition constraint_cache_t : Type := gmap N Constraint.t.

Definition getConstraint (constraint_def : LLSD) (mConstraints : constraint_cache_t)
    : constraint_cache_t * option Constraint.t :=
  match create constraint_def with
  | None => (mConstraints, None)
  | Some ptr =>
      let id := Constraint.generateHash ptr in
      match mConstraints !! id with
      | None => (<[id := ptr]> mConstraints, Some ptr)
      | Some cached => (mConstraints, Some cached)
      end
  end.
End Factory.

(** ** A reference implementation of the interface

    Modelled from the spec: the math kernel of section 4.1 (vectors,
    quaternion product in the "apply the first, then the second" order,
    shortest arc with the antipodal case on a perpendicular axis, lerp with
    a final renormalization, almost_equal on the component differences with
    either sign), in single precision.  It is the implementation at which
    the examples below are evaluated; the conversions between a quaternion
    and an angle and an axis, and the hash combiner, stay arguments. *)

Module Reference.

Definition vadd (a b : LLVector3) : LLVector3 :=
  mkVec (F32.add (mV_x a) (mV_x b)) (F32.add (mV_y a) (mV_y b)) (F32.add (mV_z a) (mV_z b)).
Definition vsub (a b : LLVector3) : LLVector3 :=
  mkVec (F32.sub (mV_x a) (mV_x b)) (F32.sub (mV_y a) (mV_y b)) (F32.sub (mV_z a) (mV_z b)).
Definition vneg (a : LLVector3) : LLVector3 :=
  mkVec (F32.opp (mV_x a)) (F32.opp (mV_y a)) (F32.opp (mV_z a)).
Definition vscale (k : F32) (a : LLVector3) : LLVector3 :=
  mkVec (F32.mul (mV_x a) k) (F32.mul (mV_y a) k) (F32.mul (mV_z a) k).
Definition vdiv (a : LLVector3) (k : F32) : LLVector3 :=
  vscale (F32.div F32.one k) a.
Definition vdot (a b : LLVector3) : F32 :=
  F32.add (F32.add (F32.mul (mV_x a) (mV_x b)) (F32.mul (mV_y a) (mV_y b)))
          (F32.mul (mV_z a) (mV_z b)).
Definition vcross (a b : LLVector3) : LLVector3 :=
  mkVec (F32.sub (F32.mul (mV_y a) (mV_z b)) (F32.mul (mV_y b) (mV_z a)))
        (F32.sub (F32.mul (mV_z a) (mV_x b)) (F32.mul (mV_z b) (mV_x a)))
        (F32.sub (F32.mul (mV_x a) (mV_y b)) (F32.mul (mV_x b) (mV_y a))).
Definition vlength (a : LLVector3) : F32 := F32.sqrt (vdot a a).
Definition FP_MAG_THRESHOLD : F32 := F32.ratio 1 10000000.
Definition vnormalize (a : LLVector3) : LLVector3 :=
  let mag := vlength a in
  if F32.gtb mag FP_MAG_THRESHOLD then vscale (F32.div F32.one mag) a else LLVector3_zero.
Definition vscaledVec (a b : LLVector3) : LLVector3 :=
  mkVec (F32.mul (mV_x a) (mV_x b)) (F32.mul (mV_y a) (mV_y b)) (F32.mul (mV_z a) (mV_z b)).
Definition vdist (a b : LLVector3) : F32 := vlength (vsub a b).

(* p * q: the rotation p followed by the rotation q *)
Definition qmul (a b : LLQuaternion) : LLQuaternion :=
  let m := F32.mul in
  mkQuat
    (F32.sub (F32.add (F32.add (m (mQ_w b) (mQ_x a)) (m (mQ_x b) (mQ_w a)))
                      (m (mQ_y b) (mQ_z a))) (m (mQ_z b) (mQ_y a)))
    (F32.sub (F32.add (F32.add (m (mQ_w b) (mQ_y a)) (m (mQ_y b) (mQ_w a)))
                      (m (mQ_z b) (mQ_x a))) (m (mQ_x b) (mQ_z a)))
    (F32.sub (F32.add (F32.add (m (mQ_w b) (mQ_z a)) (m (mQ_z b) (mQ_w a)))
                      (m (mQ_x b) (mQ_y a))) (m (mQ_y b) (mQ_x a)))
    (F32.sub (F32.sub (F32.sub (m (mQ_w b) (mQ_w a)) (m (mQ_x b) (mQ_x a)))
                      (m (mQ_y b) (mQ_y a))) (m (mQ_z b) (mQ_z a))).
Definition qadd (a b : LLQuaternion) : LLQuaternion :=
  mkQuat (F32.add (mQ_x a) (mQ_x b)) (F32.add (mQ_y a) (mQ_y b))
         (F32.add (mQ_z a) (mQ_z b)) (F32.add (mQ_w a) (mQ_w b)).
Definition qsub (a b : LLQuaternion) : LLQuaternion :=
  mkQuat (F32.sub (mQ_x a) (mQ_x b)) (F32.sub (mQ_y a) (mQ_y b))
         (F32.sub (mQ_z a) (mQ_z b)) (F32.sub (mQ_w a) (mQ_w b)).
Definition qconjugate (a : LLQuaternion) : LLQuaternion :=
  mkQuat (F32.opp (mQ_x a)) (F32.opp (mQ_y a)) (F32.opp (mQ_z a)) (mQ_w a).
Definition qscale (k : F32) (a : LLQuaternion) : LLQuaternion :=
  mkQuat (F32.mul (mQ_x a) k) (F32.mul (mQ_y a) k) (F32.mul (mQ_z a) k) (F32.mul (mQ_w a) k).
Definition qnormalize (a : LLQuaternion) : LLQuaternion :=
  let sq x := F32.mul x x in
  let mag := F32.sqrt (F32.add (F32.add (F32.add (sq (mQ_x a)) (sq (mQ_y a))) (sq (mQ_z a)))
                               (sq (mQ_w a))) in
  if F32.gtb mag FP_MAG_THRESHOLD then qscale (F32.div F32.one mag) a
  else LLQuaternion_DEFAULT.

(* v * q: the vector v rotated by the unit quaternion q *)
Definition vrot (v : LLVector3) (q : LLQuaternion) : LLVector3 :=
  let qv := mkVec (mQ_x q) (mQ_y q) (mQ_z q) in
  let rw := F32.opp (vdot qv v) in
  let r := vadd (vscale (mQ_w q) v) (vcross qv v) in
  vsub (vadd (vscale (F32.opp rw) qv) (vscale (mQ_w q) r)) (vcross r qv).

Definition x_axis : LLVector3 := mkVec F32.one F32.zero F32.zero.
Definition y_axis : LLVector3 := mkVec F32.zero F32.one F32.zero.
Definition z_axis : LLVector3 := mkVec F32.zero F32.zero F32.one.

(* the unit quaternion rotating a onto b by the half-angle trick *)
Definition qshortestArc (a b : LLVector3) : LLQuaternion :=
  let ab := vdot a b in
  let c := vcross a b in
  let cc := vdot c c in
  if F32.gtb (F32.add (F32.mul ab ab) cc) F32.zero then
    if F32.gtb cc F32.zero then
      let s := F32.add (F32.sqrt (F32.add (F32.mul ab ab) cc)) ab in
      let m := F32.div F32.one (F32.sqrt (F32.add cc (F32.mul s s))) in
      mkQuat (F32.mul (mV_x c) m) (F32.mul (mV_y c) m) (F32.mul (mV_z c) m) (F32.mul s m)
    else if F32.ltb ab F32.zero then
      (* antipodal: half a turn about a perpendicular axis *)
      let axis := vnormalize (vcross a x_axis) in
      let axis := if F32.gtb (vlength axis) F32.zero then axis
                  else vnormalize (vcross a y_axis) in
      mkQuat (mV_x axis) (mV_y axis) (mV_z axis) F32.zero
    else LLQuaternion_DEFAULT
  else LLQuaternion_DEFAULT.

Definition qlerp (t : F32) (p q : LLQuaternion) : LLQuaternion :=
  qnormalize (qadd (qscale (F32.sub F32.one t) p) (qscale t q)).

Definition qalmost_equal_tol (a b : LLQuaternion) (tolerance : F32) : bool :=
  let near x y := F32.leb (F32.abs (F32.sub x y)) tolerance in
  let far x y := F32.leb (F32.abs (F32.add x y)) tolerance in
  (near (mQ_x a) (mQ_x b) && near (mQ_y a) (mQ_y b)
   && near (mQ_z a) (mQ_z b) && near (mQ_w a) (mQ_w b))
  || (far (mQ_x a) (mQ_x b) && far (mQ_y a) (mQ_y b)
      && far (mQ_z a) (mQ_z b) && far (mQ_w a) (mQ_w b)).

Definition DEFAULT_TOLERANCE : F32 := F32.ratio 1 1000000.

Definition kernel (getAngleAxis : LLQuaternion -> F32 * LLVector3)
    (setAngleAxis : F32 -> LLVector3 -> LLQuaternion)
    (hash_combine : N -> HashArg -> N) : MathKernel :=
  {| vec_add := vadd; vec_sub := vsub; vec_neg := vneg; vec_scale := vscale;
     vec_div := vdiv; vec_dot := vdot; vec_cross := vcross; vec_length := vlength;
     vec_normalize := vnormalize; vec_scaledVec := vscaledVec; vec_rot := vrot;
     dist_vec := vdist; quat_mul := qmul; quat_add := qadd; quat_sub := qsub;
     quat_conjugate := qconjugate; quat_normalize := qnormalize;
     shortestArc := qshortestArc; quat_lerp := qlerp;
     getAngleAxis := getAngleAxis; setAngleAxis := setAngleAxis;
     almost_equal a b := qalmost_equal_tol a b DEFAULT_TOLERANCE;
     almost_equal_tol := qalmost_equal_tol;
     hash_combine := hash_combine |}.

(* The projection of SimpleCone is the one of the source; the projections
   that call the C library are arguments. *)
Definition projection {K : MathKernel}
    (other : Constraint.t -> LLQuaternion -> LLQuaternion) : Projection :=
  {| computeAdjustedLocalRot c q :=
       match Constraint.derived c with
       | Constraint.SimpleCone _ mCosConeAngle mSinConeAngle =>
           Constraint.SimpleCone_computeAdjustedLocalRot
             (Constraint.mForward c) mCosConeAngle mSinConeAngle q
       | Constraint.ShoulderConstraint _ => q
       | _ => other c q
       end |}.

End Reference.

Import Solver.

(** ** The statements of the specification

    The properties the specification states of the operations above, as
    predicates over the embedding. *)

(** *** The diff of two config maps *)

Section ConfigDiff.
Context {K : MathKernel}.

Definition within_error (acceptable : F32) (a b : LLVector3) : Prop :=
  F32.gtb (F32.abs (dist_vec a b)) acceptable = false.

Definition config_within_tolerance (acceptable : F32)
    (old_target new_target : Config.t) : Prop :=
  (Config.hasTargetPos old_target = true ->
     within_error acceptable (Config.mTargetPos old_target) (Config.mTargetPos new_target))
  /\ (Config.hasTargetRot old_target = true ->
        almost_equal (Config.mTargetRot old_target) (Config.mTargetRot new_target) = true)
  /\ (Config.hasLocalPos old_target = true ->
        within_error acceptable (Config.mLocalPos old_target) (Config.mLocalPos new_target))
  /\ (Config.hasLocalRot old_target = true ->
        almost_equal (Config.mLocalRot old_target) (Config.mLocalRot new_target) = true).

Definition structurally_identical (cached new : ConfigMap) : Prop :=
  dom new = dom cached
  /\ forall id o n, cached !! id = Some o -> new !! id = Some n ->
       Config.getFlags o = Config.getFlags n.

Definition configs_unchanged (acceptable : F32) (cached new : ConfigMap) : Prop :=
  structurally_identical cached new
  /\ forall id o n, cached !! id = Some o -> new !! id = Some n ->
       config_within_tolerance acceptable o n.
End ConfigDiff.

(** *** The walk of buildChain *)

Inductive StopReason := StopSubRoot | StopRoot | StopPosTarget | StopSubBase.

(* the sub-base test of the claim: more than one child, or whitelisted *)
Definition claimed_sub_base (s : Solver.t) (j : Joint.t) : bool :=
  (1 <? Joint.getNumChildren j) || isSubBase s (Joint.getID j).

(* the sub-base test of the amended claim: the number of children counts
   only while the whitelist is empty *)
Definition amended_sub_base (s : Solver.t) (j : Joint.t) : bool :=
  (bool_decide (mSubBaseIds s = ∅) && (1 <? Joint.getNumChildren j))
  || isSubBase s (Joint.getID j).

Section Walk.
Variable sub_base : Solver.t -> Joint.t -> bool.

(* the first of the stop conditions that a visited joint meets *)
Definition stop_reason (s : Solver.t) (j : Joint.t) : option StopReason :=
  if isSubRoot s (Joint.getID j) then Some StopSubRoot
  else if Joint.getID j =? mRootID s then Some StopRoot
  else if Joint.hasPosTarget j then Some StopPosTarget
  else if sub_base s j then Some StopSubBase
  else None.

Definition enqueued (r : StopReason) (j : Joint.t) : gset Z :=
  match r with StopSubBase => {[Joint.getID j]} | _ => ∅ end.

(* [chain_walk s h room joint visited pending]: walking up from [joint]
   with room for [room] more joints visits [visited] and enqueues
   [pending] *)
Inductive chain_walk (s : Solver.t) (h : Heap) : nat -> option Z -> list Z -> gset Z -> Prop :=
  | walk_full (joint : option Z) :
      chain_walk s h O joint [] ∅
  | walk_top (room : nat) :
      chain_walk s h room None [] ∅
  | walk_stop (room : nat) (p : Z) (j : Joint.t) (r : StopReason) :
      h !! p = Some j -> stop_reason s j = Some r ->
      chain_walk s h (S room) (Some p) [p] (enqueued r j)
  | walk_step (room : nat) (p : Z) (j : Joint.t) (visited : list Z) (pending : gset Z) :
      h !! p = Some j -> stop_reason s j = None ->
      chain_walk s h room (Joint.mParent j) visited pending ->
      chain_walk s h (S room) (Some p) (p :: visited) pending.

(* the store after the joints of [chain] have been marked active *)
Definition activated (h : Heap) (chain : list Z) (h' : Heap) : Prop :=
  forall p, h' !! p = if decide (p ∈ chain) then Joint.activate <$> h !! p else h !! p.

(* what the claim says of one call of buildChain *)
Definition chain_claim (s : Solver.t) (joint : Z) (sub_bases : gset Z)
    (chain_length : Z) (h : Heap) : Prop :=
  exists j visited pending h',
    h !! joint = Some j
    /\ buildChain s joint [] sub_bases chain_length h
       = Some (h', joint :: visited, pending ∪ sub_bases)
    /\ chain_walk s h (Z.to_nat chain_length - 1) (Joint.mParent j) visited pending
    /\ activated h (joint :: visited) h'.
End Walk.

Definition parents_valid (h : Heap) : Prop :=
  forall p j q, h !! p = Some j -> Joint.mParent j = Some q -> is_Some (h !! q).

Definition parents_valid_b (h : Heap) : bool :=
  forallb (λ data_pair : Z * Joint.t,
             match Joint.mParent data_pair.2 with
             | Some q => bool_decide (is_Some (h !! q))
             | None => true
             end)
          (map_to_list h).

(** *** The passes of solve *)

Section Passes.
Context {K : MathKernel} {P : Projection}.
(* [n] FABRIK passes in a row, each followed by its error measure *)
Fixpoint passes (n : nat) (s : Solver.t) (max_error : F32) : option (Solver.t * F32) :=
  match n with
  | O => Some (s, max_error)
  | S n => r ← solveOnce s; passes n r.1 r.2
  end.
End Passes.

(** *** The default enforce *)

Section EnforceSpec.
Context {K : MathKernel} {P : Projection}.

(* what the claim says of one call of the default enforce *)
Definition enforce_claim (c : Constraint.t) (joint : Z) (h : Heap) : Prop :=
  exists j h' (adjusted_flag : bool),
    h !! joint = Some j
    /\ Constraint_enforce c joint h = Some (h', adjusted_flag)
    /\ let adjusted := computeAdjustedLocalRot c (Joint.mLocalRot j) in
       (almost_equal adjusted (Joint.mLocalRot j) = false ->
          h' = <[joint := Joint.set_mLocalRot adjusted j]> h)
       /\ (almost_equal adjusted (Joint.mLocalRot j) = true -> h' = h)
       /\ (adjusted_flag = true <-> h' <> h)
       /\ Joint.mRot <$> h' !! joint = Some (Joint.mRot j).

(* the amended claim: a joint whose local rot is locked is never written,
   and the flag is that of the comparison *)
Definition enforce_amended (c : Constraint.t) (joint : Z) (h : Heap) : Prop :=
  exists j h' (adjusted_flag : bool),
    h !! joint = Some j
    /\ Constraint_enforce c joint h = Some (h', adjusted_flag)
    /\ let adjusted := computeAdjustedLocalRot c (Joint.mLocalRot j) in
       adjusted_flag = negb (almost_equal adjusted (Joint.mLocalRot j))
       /\ h' = (if adjusted_flag && negb (Joint.localRotLocked j)
                then <[joint := Joint.set_mLocalRot adjusted j]> h else h)
       /\ (adjusted_flag = true <->
             h' <> h
             \/ (almost_equal adjusted (Joint.mLocalRot j) = false
                 /\ (Joint.localRotLocked j = true \/ adjusted = Joint.mLocalRot j)))
       /\ Joint.mRot <$> h' !! joint = Some (Joint.mRot j).
End EnforceSpec.

(** *** The average over the children in updateEndInward *)

Section AverageSpec.
Context {K : MathKernel} {P : Projection}.

(* the average of the claim: the summands child.local_rot^-1 * child.rot of
   the active children, added with the sign correction, then normalized *)
Definition claimed_average (children : list Z) (h : Heap) : option LLQuaternion :=
  cs ← mapM (λ c, h !! c) children;
  Some (quat_normalize
          (fold_left (λ avg c,
                        accumulate avg (quat_mul (quat_conjugate (Joint.mLocalRot c))
                                                 (Joint.mRot c)))
                     (filter (λ c, Joint.isActive c = true) cs) quat_origin)).

Definition claimed_updateEndInward_average (this : Z) (h : Heap) : option Heap :=
  j ← h !! this;
  avg_rot ← claimed_average (Joint.mChildren j) h;
  Some (write this (Joint.set_mRot avg_rot j) h).
End AverageSpec.

(** *** The angle limits *)

(* the limits of the claim: both in [-PI, PI] and ordered *)
Definition claimed_angle_limits (limits : F32 * F32) : bool :=
  F32.leb (F32.opp F_PI) limits.1 && F32.leb limits.1 limits.2 && F32.leb limits.2 F_PI.

(** ** Skeletons of the examples *)

Module Example.
(* the examples call neither the angle-axis conversions nor the hash
   combiner *)
Definition kernel : MathKernel :=
  Reference.kernel (λ _, (F32.zero, Reference.x_axis)) (λ _ _, LLQuaternion_DEFAULT)
                   (λ seed _, seed).
#[local] Existing Instance kernel.

Definition unit_scale : LLVector3 := mkVec F32.one F32.one F32.one.
(* a bone of length one along x *)
Definition bone (id : Z) : JointInfo :=
  mkInfo Reference.x_axis Reference.x_axis unit_scale id.
Definition root_bone : JointInfo :=
  mkInfo LLVector3_zero Reference.x_axis unit_scale 0.

Definition add (joint_id parent_id : Z) (info : JointInfo) (s : option Solver.t)
    : option Solver.t :=
  s ← s; addJoint joint_id parent_id info None s.

(* root 0 -> 1, and 1 has the two children 2 and 3 *)
Definition fork : Solver.t :=
  default Solver.new
    (add 3 1 (bone 3) (add 2 1 (bone 2) (add 1 0 (bone 1)
       (add 0 (-1) root_bone (Some (setRootID 0 Solver.new)))))).

(* the same skeleton with a whitelist of sub-bases that names no joint of
   the walk *)
Definition fork_whitelisted : Solver.t := setSubBaseIds {[7]} fork.
End Example.

Module Example6.
Import Example.
#[local] Existing Instance Example.kernel.
(* the four projections that call the C library are not reached *)
Definition projection : Projection := Reference.projection (λ _ q, q).

(* SimpleCone(forward = z, max_angle = 0): cos = 1 and sin = 0 *)
Definition needle : Constraint.t :=
  Constraint.mk Reference.z_axis SIMPLE_CONE_CONSTRAINT
    (Constraint.SimpleCone F32.zero F32.one F32.zero).

(* a quarter turn about x *)
Definition quarter_x : LLQuaternion :=
  let h := F32.sqrt (F32.ratio 1 2) in mkQuat h F32.zero F32.zero h.

(* root 0 -> 1, joint 1 constrained by the needle cone *)
Definition pair : Solver.t :=
  default Solver.new
    (s ← add 0 (-1) root_bone (Some (setRootID 0 Solver.new));
     addJoint 1 0 (bone 1) (Some needle) s).

(* joint 1 after a config with a local rot has locked it *)
Definition pair_locked : Heap :=
  default ∅ (on_joint (Joint.lockLocalRot quarter_x) 1 (mSkeleton pair)).

(* joint 1, not locked, with a local rot whose components are NaN *)
Definition undefined_rot : LLQuaternion :=
  mkQuat S754_nan S754_nan S754_nan S754_nan.
Definition pair_undefined : Heap :=
  default ∅ (on_joint (Joint.set_mLocalRot undefined_rot) 1 (mSkeleton pair)).
End Example6.

Module Example4.
Import Example.
#[local] Existing Instance Example.kernel.
#[local] Existing Instance Example6.projection.

(* ElbowConstraint(forward = x, pivot = z, bend in [0, pi],
   twist in [-pi/4, pi/4]) *)
Definition elbow_constraint : option Constraint.t :=
  let quarter_pi := F32.div F_PI (F32.of_Z 4) in
  Constraint.newElbowConstraint Reference.x_axis Reference.z_axis
    F32.zero F_PI (F32.opp quarter_pi) quarter_pi.

(* the arm: shoulder 0 (root, no constraint) -> elbow 1 -> hand 2, with a
   position target for the hand *)
Definition hand_info : JointInfo :=
  mkInfo (mkVec F32.one (F32.ratio 1 4) F32.zero) Reference.x_axis unit_scale 2.
Definition arm_with (target_pos : LLVector3) : Solver.t :=
  let s :=
    default Solver.new
      (s ← add 0 (-1) root_bone (Some (setRootID 0 Solver.new));
       s ← addJoint 1 0 (bone 1) elbow_constraint s;
       addJoint 2 1 hand_info None s) in
  (updateJointConfigs {[2 := Config.setTargetPos target_pos Config.default]} s).1.
(* a target out of the plane of the rest pose *)
Definition arm : Solver.t :=
  arm_with (mkVec (F32.ratio 6 5) (F32.ratio 1 2) (F32.ratio 1 2)).

(* the store in the first pass of solve, after the inward phase *)
Definition arm_bent : Heap :=
  default ∅
    (s ← prepareSolve arm;
     h ← executeFabrikInward (mJointConfigs s) [2; 1; 0] true (mSkeleton s);
     updateChildLocalRots 0 h).

(* the first step of the outward phase of that pass *)
Definition arm_outward : Heap :=
  default ∅ (updateOutward (mJointConfigs arm) true 1 arm_bent).
End Example4.

Module Example7.
Import Example.
#[local] Existing Instance Example.kernel.
#[local] Existing Instance Example6.projection.

(* SimpleCone(forward = x, max_angle = 0) *)
Definition needle_x : Constraint.t :=
  Constraint.mk Reference.x_axis SIMPLE_CONE_CONSTRAINT
    (Constraint.SimpleCone F32.zero F32.one F32.zero).

(* root 0 -> wrist 1 -> fingers 2 and 3; the wrist is a whitelisted
   sub-base, finger 2 is constrained and targeted, finger 3 has no config *)
Definition hand : Solver.t :=
  let s :=
    default Solver.new
      (s ← add 1 0 (bone 1) (add 0 (-1) root_bone (Some (setRootID 0 Solver.new)));
       s ← addJoint 2 1 (bone 2) (Some needle_x) s;
       addJoint 3 1 (bone 3) None s) in
  let target :=
    Config.setTargetPos (mkVec (F32.ratio 3 2) (F32.ratio 3 2) F32.zero) Config.default in
  (updateJointConfigs {[2 := target]} (setSubBaseIds {[1]} s)).1.

(* the solver at the start of the first iteration of solve *)
Definition hand_prepared : Solver.t := default Solver.new (prepareSolve hand).

(* the store when the inward pass reaches the chain of the wrist: the chain
   of finger 2 has been updated *)
Definition hand_inward : Heap :=
  default ∅ (executeFabrikInward (mJointConfigs hand_prepared) [2; 1] true
               (mSkeleton hand_prepared)).

(* the wrist after the first two parts of updateEndInward *)
Definition hand_children_updated : option (Heap * bool) :=
  h ← updateEndInward_self (mJointConfigs hand_prepared) 1 hand_inward;
  updateActiveChildren true [2; 3] h.

(* the store after the loop over the active children *)
Definition hand_fingers : Heap := default ∅ (fst <$> hand_children_updated).
End Example7.

Module Example9.
(* two cones that differ in the left extent only *)
Definition cone (left : F32) : Constraint.t :=
  Constraint.newAcuteEllipsoidalCone (K := Example.kernel)
    Reference.x_axis Reference.z_axis F32.one F32.one left F32.one F32.one.
End Example9.

Module Example10.
Import Example.
#[local] Existing Instance Example.kernel.

(* the arm 0 -> 1 -> 2 *)
Definition arm : Solver.t :=
  default Solver.new
    (add 2 1 (bone 2) (add 1 0 (bone 1)
       (add 0 (-1) root_bone (Some (setRootID 0 Solver.new))))).
Definition reach : Config.t :=
  Config.setTargetPos (mkVec (F32.ratio 3 2) (F32.ratio 3 2) F32.zero) Config.default.
Definition arm_targeted : Solver.t := (updateJointConfigs {[2 := reach]} arm).1.
(* the same with one more entry, for the id 5 that the skeleton lacks *)
Definition arm_stray : Solver.t := (updateJointConfigs {[2 := reach; 5 := reach]} arm).1.
End Example10.

(** ** The projections of the hinges *)

(** The single precision [std::cos], [std::sin] and [std::atan2] of the C
    library are not part of the sources at hand: they are the members of an
    interface. *)
Class CMath := {
  std_cos : F32 -> F32;
  std_sin : F32 -> F32;
  std_atan2 : F32 -> F32 -> F32
}.

Section HingeProjections.
Context {K : MathKernel} {M : CMath}.

(* LLIK::ElbowConstraint::computeAdjustedLocalRot; the failure is the
   undefined conversion in compute_clamped_angle *)
Definition ElbowConstraint_computeAdjustedLocalRot
    (mForward mPivotAxis mPivotXForward : LLVector3)
    (mMinBend mMaxBend mMinTwist mMaxTwist : F32)
    (joint_local_rot : LLQuaternion) : option LLQuaternion :=
  (* rotate mForward into joint-frame *)
  let forward := vec_rot mForward joint_local_rot in
  (* compute adjustment required to move forward back into hinge plane *)
  let projected_forward :=
    vec_sub forward (vec_scale (vec_dot forward mPivotAxis) mPivotAxis) in
  let adjustment := shortestArc forward projected_forward in
  let adjusted_local_rot := quat_mul joint_local_rot adjustment in
  let new_forward := vec_rot mForward adjusted_local_rot in
  (* measure twist *)
  let twisted_pivot := vec_rot mPivotAxis adjusted_local_rot in
  let cos_part := vec_dot twisted_pivot mPivotAxis in
  let sin_part := vec_dot (vec_rot mPivotXForward adjusted_local_rot) mPivotAxis in
  let twist := std_atan2 sin_part cos_part in
  new_twist ← compute_clamped_angle twist mMinTwist mMaxTwist;
  let '(adjusted_local_rot, new_forward) :=
    if F32.neqb new_twist twist then
      (* adjust twist *)
      let swung_left_axis := vec_cross mPivotAxis new_forward in
      let new_twisted_pivot :=
        vec_sub (vec_scale (std_cos new_twist) mPivotAxis)
                (vec_scale (std_sin new_twist) swung_left_axis) in
      let adjustment := shortestArc twisted_pivot new_twisted_pivot in
      let adjusted_local_rot := quat_mul adjusted_local_rot adjustment in
      (adjusted_local_rot, vec_rot mForward adjusted_local_rot)
    else (adjusted_local_rot, new_forward) in
  (* measure bend *)
  let bend :=
    std_atan2 (vec_dot new_forward mPivotXForward) (vec_dot new_forward mForward) in
  new_bend ← compute_clamped_angle bend mMinBend mMaxBend;
  let adjusted_local_rot :=
    if F32.neqb new_bend bend then
      (* adjust bend: the arc starts at [forward], the forward axis under
         joint_local_rot *)
      let new_forward :=
        vec_add (vec_scale (std_cos new_bend) mForward)
                (vec_scale (std_sin new_bend) mPivotXForward) in
      let adjustment := shortestArc forward new_forward in
      quat_mul adjusted_local_rot adjustment
    else adjusted_local_rot in
  Some (quat_normalize adjusted_local_rot).

(* LLIK::KneeConstraint::computeAdjustedLocalRot *)
Definition KneeConstraint_computeAdjustedLocalRot
    (mForward mPivotAxis mPivotXForward : LLVector3) (mMinBend mMaxBend : F32)
    (joint_local_rot : LLQuaternion) : option LLQuaternion :=
  (* rotate mPivotAxis into joint-frame *)
  let joint_axis := vec_rot mPivotAxis joint_local_rot in
  let adjustment := shortestArc joint_axis mPivotAxis in
  let adjusted_local_rot := quat_mul joint_local_rot adjustment in
  (* rotate mForward into joint-frame *)
  let forward := vec_rot mForward adjusted_local_rot in
  let new_forward := forward in
  (* compute angle between mForward and new_forward *)
  let bend :=
    std_atan2 (vec_dot new_forward mPivotXForward) (vec_dot new_forward mForward) in
  new_bend ← compute_clamped_angle bend mMinBend mMaxBend;
  let adjusted_local_rot :=
    if F32.neqb new_bend bend then
      let new_forward :=
        vec_add (vec_scale (std_cos new_bend) mForward)
                (vec_scale (std_sin new_bend) mPivotXForward) in
      let adjustment := shortestArc forward new_forward in
      quat_mul adjusted_local_rot adjustment
    else adjusted_local_rot in
  Some (quat_normalize adjusted_local_rot).

(* the virtual computeAdjustedLocalRot of the two hinges; the other classes
   have no result here *)
Definition hinge_computeAdjustedLocalRot (c : Constraint.t) (joint_local_rot : LLQuaternion)
    : option LLQuaternion :=
  match Constraint.derived c with
  | Constraint.ElbowConstraint mPivotAxis mPivotXForward mMinBend mMaxBend
                               mMinTwist mMaxTwist =>
      ElbowConstraint_computeAdjustedLocalRot (Constraint.mForward c) mPivotAxis
        mPivotXForward mMinBend mMaxBend mMinTwist mMaxTwist joint_local_rot
  | Constraint.KneeConstraint mPivotAxis mPivotXForward mMinBend mMaxBend =>
      KneeConstraint_computeAdjustedLocalRot (Constraint.mForward c) mPivotAxis
        mPivotXForward mMinBend mMaxBend joint_local_rot
  | _ => None
  end.

(* the result of ElbowConstraint::computeAdjustedLocalRot when the twist is
   within its limits and the bend is clamped to 0, with cos 0 = 1 and
   sin 0 = 0 *)
Definition ElbowConstraint_bend_to_zero (mForward mPivotAxis mPivotXForward : LLVector3)
    (joint_local_rot : LLQuaternion) : LLQuaternion :=
  let forward := vec_rot mForward joint_local_rot in
  let projected_forward :=
    vec_sub forward (vec_scale (vec_dot forward mPivotAxis) mPivotAxis) in
  let adjustment := shortestArc forward projected_forward in
  let adjusted_local_rot := quat_mul joint_local_rot adjustment in
  let new_forward :=
    vec_add (vec_scale F32.one mForward) (vec_scale F32.zero mPivotXForward) in
  let adjustment := shortestArc forward new_forward in
  quat_normalize (quat_mul adjusted_local_rot adjustment).

(* what the claim says of a projection at the rotation q *)
Definition idempotent_at (project : LLQuaternion -> option LLQuaternion)
    (q : LLQuaternion) : Prop :=
  exists p p', project q = Some p /\ project p = Some p' /\ almost_equal p' p = true.
End HingeProjections.

(* The values that Annex F of the C standard fixes for an argument that is a
   zero: cos(+-0) = 1, sin(+-0) = +-0, and atan2(+-0, x) = +-pi for a finite
   x < 0 and +-0 for a finite x > 0; everywhere else the values of [rest]. *)
Definition annex_F (rest : CMath) : CMath :=
  {| std_cos a := match a with S754_zero _ => F32.one | _ => std_cos (CMath := rest) a end;
     std_sin a := match a with S754_zero _ => a | _ => std_sin (CMath := rest) a end;
     std_atan2 y x :=
       match y, x with
       | S754_zero negative, S754_finite true _ _ =>
           if negative then F32.opp F_PI else F_PI
       | S754_zero _, S754_finite false _ _ => y
       | _, _ => std_atan2 (CMath := rest) y x
       end |}.

(* LLIK::KneeConstraint::KneeConstraint *)
Definition newKneeConstraint {K : MathKernel} (forward_axis pivot_axis : LLVector3)
    (min_bend max_bend : F32) : option Constraint.t :=
  let mForward := vec_normalize forward_axis in
  let mPivotAxis := vec_normalize (vec_cross mForward (vec_cross pivot_axis mForward)) in
  let mPivotXForward := vec_cross mPivotAxis mForward in
  bend ← compute_angle_limits min_bend max_bend;
  Some (Constraint.mk mForward KNEE_CONSTRAINT
          (Constraint.KneeConstraint mPivotAxis mPivotXForward bend.1 bend.2)).

(* the single precision numbers within k units in the last place of v *)
Definition ulp_window (k : nat) (v : F32) : list F32 :=
  match v with
  | S754_finite s m e =>
      (λ i, S754_finite s (Z.to_pos (Zpos m + i)) e)
        <$> seqZ (- Z.of_nat k) (2 * Z.of_nat k + 1)
  | _ => [v]
  end.

Module Example5.
#[local] Existing Instance Example.kernel.

(* ElbowConstraint(forward = x, pivot = z, bend in [0, pi], twist in
   [-pi, pi]): a hinge about z that bends to one side *)
Definition elbow : option Constraint.t :=
  Constraint.newElbowConstraint Reference.x_axis Reference.z_axis
    F32.zero F_PI (F32.opp F_PI) F_PI.

(* the unit quaternion (0, -1, -2, 4) / sqrt(21): it takes the forward axis x
   to (0.52, -0.76, 0.38), bent to the wrong side and out of the hinge
   plane *)
Definition reaching : LLQuaternion :=
  quat_normalize
    (mkQuat F32.zero (F32.opp (F32.of_Z 1)) (F32.opp (F32.of_Z 2)) (F32.of_Z 4)).

(* the arguments (-0.82404, 0.56653) of the atan2 that measures the bend at
   [reaching], and atan2(-0.82404, 0.56653) = -0.96851 to the nearest *)
Definition first_bend : F32 * F32 :=
  (S754_finite true 13825128 (-24), S754_finite false 9504776 (-24)).
Definition first_bend_angle : F32 := S754_finite true 16248884 (-24).

(* the same at the projection of [reaching]: atan2(-0.084577, 0.99642)
   = -0.084678 to the nearest *)
Definition second_bend : F32 * F32 :=
  (S754_finite true 11351666 (-27), S754_finite false 16717108 (-24)).
Definition second_bend_angle : F32 := S754_finite true 11365240 (-27).

(* a C library known at the arguments of the example only *)
Definition libm : CMath :=
  {| std_cos _ := F32.one;
     std_sin _ := F32.zero;
     std_atan2 y x :=
       if F32.eqb y first_bend.1 && F32.eqb x first_bend.2 then first_bend_angle
       else if F32.eqb y second_bend.1 && F32.eqb x second_bend.2 then second_bend_angle
       else F32.zero |}.

(* the same hinge held straight: bend in [0, 0] *)
Definition straight_elbow : option Constraint.t :=
  Constraint.newElbowConstraint Reference.x_axis Reference.z_axis
    F32.zero F32.zero (F32.opp F_PI) F_PI.

(* KneeConstraint with the axes and the bend of [straight_elbow] *)
Definition knee : option Constraint.t :=
  newKneeConstraint Reference.x_axis Reference.z_axis F32.zero F32.zero.

(* the unit quaternion (0, -5, 0, 3) / sqrt(34): it turns the forward axis
   x out of the hinge plane, to (-0.47, 0, 0.88) *)
Definition tilted : LLQuaternion :=
  quat_normalize (mkQuat F32.zero (F32.opp (F32.of_Z 5)) F32.zero (F32.of_Z 3)).
End Example5.

(** ** Further operations of the source *)

(** *** Joint::Config *)

Section ConfigOps.
Context {K : MathKernel}.

Definition Config_disableConstraint (c : Config.t) : Config.t :=
  Config.mk (Config.mLocalPos c) (Config.mLocalRot c) (Config.mLocalScale c)
    (Config.mTargetPos c) (Config.mTargetRot c)
    (Z.lor (Config.mFlags c) CONFIG_FLAG_DISABLE_CONSTRAINT) (Config.mChainLimit c).

(* EXPERIMENTAL *)
Definition Config_delegate (c : Config.t) : Config.t :=
  Config.mk (Config.mLocalPos c) (Config.mLocalRot c) (Config.mLocalScale c)
    (Config.mTargetPos c) (Config.mTargetRot c)
    (Z.lor (Config.mFlags c) CONFIG_FLAG_HAS_DELEGATED) (Config.mChainLimit c).

Definition Config_updateFrom (other_config : Config.t) (c : Config.t) : Config.t :=
  if Config.mFlags c =? Config.mFlags other_config then
    (* other_config updates everything *)
    other_config
  else
    (* find and apply all parameters in other_config *)
    let c := if Config.hasLocalPos other_config
             then Config.setLocalPos (Config.mLocalPos other_config) c else c in
    let c := if Config.hasLocalRot other_config
             then Config.setLocalRot (Config.mLocalRot other_config) c else c in
    let c := if Config.hasTargetPos other_config
             then Config.setTargetPos (Config.mTargetPos other_config) c else c in
    let c := if Config.hasTargetRot other_config
             then Config.setTargetRot (Config.mTargetRot other_config) c else c in
    let c := if Config.hasLocalScale other_config
             then Config.setLocalScale (Config.mLocalScale other_config) c else c in
    if Config.constraintIsDisabled other_config then Config_disableConstraint c else c.
End ConfigOps.

(* the seven has-predicates of a config *)
Definition Config_has (c : Config.t) : list bool :=
  [Config.hasLocalPos c; Config.hasLocalRot c; Config.hasLocalScale c;
   Config.constraintIsDisabled c; Config.hasTargetPos c; Config.hasTargetRot c;
   Config.hasDelegated c].

(* the flags that updateFrom carries over when the flag words differ: all
   but CONFIG_FLAG_HAS_DELEGATED *)
Definition CONFIG_PARAMETER_FLAGS : Z := 63.

(** *** compute_clamped_angle *)

(* the angle that splits the invalid zone, as compute_clamped_angle computes
   it *)
Definition invalid_bisector (min_angle max_angle : F32) : F32 :=
  F64.to_F32 (F64.add max_angle
                (F64.mul F64.half (F32.sub F_TWO_PI (F32.sub max_angle min_angle)))).

(** *** The name mapping of the constraint factory *)

Section FactoryMapping.
Context {K : MathKernel}.
Context {LLSD : Type} (create : LLSD -> option Constraint.t).
(* std::string *)
Context {Name : Type} `{Countable Name}.

(* [mConstraints] and [mJointMapping] *)
Record Factory := mkFactory {
  mConstraints : constraint_cache_t;
  mJointMapping : gmap Name Constraint.t
}.

Definition getConstraintByName (joint_name : Name) (f : Factory) : option Constraint.t :=
  mJointMapping f !! joint_name.

(* one round of the loop of processConstraintMappings; [insert] of the
   standard maps keeps an entry that is already there *)
Definition processConstraintMapping (f : Factory) (entry : Name * LLSD) : Factory :=
  let '(joint_name, constr_def) := entry in
  let '(cache, constraint) := getConstraint create constr_def (mConstraints f) in
  match constraint with
  | Some c =>
      mkFactory cache
        (match mJointMapping f !! joint_name with
         | Some _ => mJointMapping f
         | None => <[joint_name := c]> (mJointMapping f)
         end)
  | None => mkFactory cache (mJointMapping f)
  end.

(* the entries of the LLSD map, in its order of iteration *)
Definition processConstraintMappings (mappings : list (Name * LLSD)) (f : Factory)
    : Factory :=
  fold_left processConstraintMapping mappings f.
End FactoryMapping.

(** *** What the solver keeps of a joint *)

(* the links, identity, constraint and info of a joint: what no step of the
   solver writes *)
Definition Joint_shape (j : Joint.t)
    : option Z * list Z * Z * option Constraint.t * JointInfo :=
  (Joint.mParent j, Joint.mChildren j, Joint.mID j, Joint.mConstraint j, Joint.mInfoPtr j).

Definition same_shape (h h' : Heap) : Prop :=
  forall p, Joint_shape <$> h' !! p = Joint_shape <$> h !! p.

(* what a pass keeps of the solver *)
Definition same_setup (s s' : Solver.t) : Prop :=
  same_shape (mSkeleton s) (mSkeleton s') /\
  mJointConfigs s' = mJointConfigs s /\ mChainMap s' = mChainMap s /\
  mActiveRoots s' = mActiveRoots s /\ mActiveJoints s' = mActiveJoints s /\
  mAcceptableError s' = mAcceptableError s.

(* the settings of the solver: what only its setters write *)
Definition same_settings (s s' : Solver.t) : Prop :=
  mRootID s' = mRootID s /\ mSubBaseIds s' = mSubBaseIds s /\
  mSubRootIds s' = mSubRootIds s /\ mWristJoints s' = mWristJoints s /\
  mAcceptableError s' = mAcceptableError s.

(* every chain starts with the joint it is filed under *)
Definition chains_keyed (chains : gmap Z (list Z)) : Prop :=
  forall id chain, chains !! id = Some chain -> head chain = Some id.

(* the joint is in the store with IK_FLAG_ACTIVE set *)
Definition joint_active (h : Heap) (p : Z) : Prop :=
  Joint.isActive <$> h !! p = Some true.

Definition keeps_active (h h' : Heap) : Prop :=
  forall p, joint_active h p -> joint_active h' p.

(* every joint of every chain is active *)
Definition chains_active (h : Heap) (chains : gmap Z (list Z)) : Prop :=
  forall id chain p, chains !! id = Some chain -> p ∈ chain -> joint_active h p.

Definition Build_active {K : MathKernel} (b : Build) : Prop :=
  chains_active (b_heap b) (b_chains b)
  /\ forall r, r ∈ b_roots b -> joint_active (b_heap b) r.

(* every joint is filed under its own id, and the ids fit an S16 *)
Definition ids_consistent (h : Heap) : Prop :=
  forall p j, h !! p = Some j -> Joint.mID j = p /\ 0 <= p < 32768.

Definition ids_consistent_b (h : Heap) : bool :=
  forallb (λ data_pair : Z * Joint.t,
             (Joint.mID data_pair.2 =? data_pair.1)
             && (0 <=? data_pair.1) && (data_pair.1 <? 32768))
          (map_to_list h).

(* each joint of the chain but the last is followed by its parent *)
Fixpoint chain_path (h : Heap) (chain : list Z) : Prop :=
  match chain with
  | p :: (q :: _) as rest => Joint.mParent <$> h !! p = Some (Some q) /\ chain_path h rest
  | _ => True
  end.

Definition chains_paths (h : Heap) (chains : gmap Z (list Z)) : Prop :=
  forall id chain, chains !! id = Some chain -> chain_path h chain.

(* what the passes of solve never write: everything but the world position,
   the world rotation and the local rotation *)
Definition Joint_static (j : Joint.t) :=
  (Joint_shape j, Joint.mLocalPos j, Joint.mLocalScale j, Joint.mBone j,
   Joint.mLocalPosLength j, Joint.mConfig j, Joint.mConfigFlags j, Joint.mIkFlags j).

(* an active joint or the parent of one *)
Definition touchable (h0 : Heap) (p : Z) : Prop :=
  joint_active h0 p
  \/ exists c, joint_active h0 c /\ Joint.mParent <$> h0 !! c = Some (Some p).

(* [h] is [h0] but for the position and rotations of touchable joints *)
Definition moves_within (h0 h : Heap) : Prop :=
  forall p, Joint_static <$> h !! p = Joint_static <$> h0 !! p
            /\ (~ touchable h0 p -> h !! p = h0 !! p).

(* every entry of the cache is filed under its hash *)
Definition cache_keyed {K : MathKernel} (cache : constraint_cache_t) : Prop :=
  forall id c, cache !! id = Some c -> Constraint.generateHash c = id.

(* an entry of the config map that measureMaxError measures *)
Definition measured_target (s : Solver.t) (id : Z) (target : Config.t) : Prop :=
  mJointConfigs s !! id = Some target /\ id <> mRootID s
  /\ Config.hasTargetPos target = true /\ Config.hasDelegated target = false.

(* the distance it measures for the joint: from the end of the bone to the
   target *)
Definition target_error {K : MathKernel} (joint : Joint.t) (target : Config.t) : F32 :=
  dist_vec (Joint.computeWorldEndPos joint) (Config.mTargetPos target).

(* no entry counts for measureMaxError *)
Definition no_measured_target (s : Solver.t) : Prop :=
  forall id target, mJointConfigs s !! id = Some target ->
    id = mRootID s \/ Config.hasTargetPos target = false \/ Config.hasDelegated target = true.

(** *** The skeleton of the comment in rebuildAllChains *)

Module ExampleChains.
Import Example.
#[local] Existing Instance Example.kernel.

(* (joint, parent), parents first *)
Definition links : list (Z * Z) :=
  [(0, -1); (1, 0); (2, 1); (3, 2); (4, 3); (5, 4); (6, 2); (7, 6); (8, 7); (9, 5);
   (10, 9); (11, 10); (12, 6); (13, 12); (14, 7); (15, 14); (16, 5); (17, 16);
   (18, 17); (19, 2); (20, 19)].

Definition skeleton : Solver.t :=
  default Solver.new
    (foldM (fun s (l : Z * Z) =>
              addJoint l.1 l.2 (if l.1 =? 0 then root_bone else bone l.1) None s)
           (setRootID 0 Solver.new) links).

Definition target : Config.t :=
  Config.setTargetPos (mkVec F32.one F32.one F32.zero) Config.default.

(* the target ID list is: [5,11,15,18,20] *)
Definition targeted : Solver.t :=
  (updateJointConfigs (list_to_map ((fun id => (id, target)) <$> [5; 11; 15; 18; 20]))
                      skeleton).1.
End ExampleChains.

(** *** A cache with an entry *)

Module ExampleCache.
(* a hash combiner that tells the cones from the other types and nothing
   else *)
Definition kernel : MathKernel :=
  Reference.kernel (λ _, (F32.zero, Reference.x_axis)) (λ _ _, LLQuaternion_DEFAULT)
    (λ seed v, match v with
               | HashType ACUTE_ELLIPSOIDAL_CONE_CONSTRAINT => N.succ seed
               | _ => seed
               end).

(* a definition is the left extent of a cone, or asks for the needle *)
Definition create (constraint_def : option F32) : option Constraint.t :=
  match constraint_def with
  | Some left_extent => Some (Example9.cone left_extent)
  | None => Some Example6.needle
  end.

(* the cache after the cone of left extent one was asked for *)
Definition one_cone : constraint_cache_t :=
  (getConstraint (K := kernel) create (Some F32.one) ∅).1.
End ExampleCache.

(* [no_measured_target], decided *)
Definition no_measured_target_b (s : Solver.t) : bool :=
  forallb (λ data_pair : Z * Config.t,
             (data_pair.1 =? mRootID s)
             || negb (Config.hasTargetPos data_pair.2)
             || Config.hasDelegated data_pair.2)
          (map_to_list (mJointConfigs s)).

(** *** A solver without a target to reach *)

Module ExampleIdle.
Import Example.
#[local] Existing Instance Example.kernel.
#[local] Existing Instance Example6.projection.

(* a position target for the root, a rotation target for joint 2 and a
   delegated position target for joint 3 *)
Definition configs : gmap Z Config.t :=
  {[0 := Example10.reach;
    2 := Config.setTargetRot Example6.quarter_x Config.default;
    3 := Config_delegate Example10.reach]}.

Definition configured : Solver.t := (updateJointConfigs configs Example.fork).1.

(* the state in which solve enters its loop *)
Definition prepared : Solver.t := default configured (prepareSolve configured).
End ExampleIdle.

(** *** The loop over the pending sub-bases *)

Section SubBaseLoop.
Context {K : MathKernel}.

(* the first two loops of rebuildAllChains: the state in which the loop
   over the pending sub-bases starts *)
Definition configuredBuild (s : Solver.t) : option Build :=
  h ← foldM (λ h (data_pair : Z * list Z),
               foldM (λ h joint, on_joint Joint.resetFlags joint h) h data_pair.2)
            (mSkeleton s) (map_items (mChainMap s));
  foldM (λ b (data_pair : Z * Config.t), applyConfig s data_pair.1 b)
        (mkBuild h (mJointConfigs s) ∅ ∅ ∅) (map_items (mJointConfigs s)).

(* one round of the while loop, entered with sub_bases not empty *)
Definition subBaseRound (s : Solver.t) (b : Build) : option Build :=
  foldM (λ b joint_id,
           _ ← b_heap b !! joint_id;
           addChain s joint_id joint_id 255 b)
        (mkBuild (b_heap b) (b_configs b) (b_chains b) (b_roots b) ∅)
        (set_items (b_sub_bases b)).
End SubBaseLoop.

(** *** A joint filed under another id than its own *)

Module ExampleMismatch.
Import Example.
#[local] Existing Instance Example.kernel.

(* the fork, but the joint added as 1 is the one whose LLJoint has the
   number 2 *)
Definition skeleton : Solver.t :=
  default Solver.new
    (add 3 1 (bone 3) (add 2 1 (bone 2) (add 1 0 (bone 2)
       (add 0 (-1) root_bone (Some (setRootID 0 Solver.new)))))).

Definition targeted : Solver.t :=
  (updateJointConfigs {[3 := Example10.reach]} skeleton).1.

(* the state after the loop over the configs, and after one round *)
Definition pending : Build :=
  default (mkBuild ∅ ∅ ∅ ∅ ∅) (configuredBuild targeted).
Definition repeating : Build :=
  default (mkBuild ∅ ∅ ∅ ∅ ∅) (subBaseRound targeted pending).
End ExampleMismatch.

(** * Properties *)

(** ** updateJointConfigs *)

Lemma elem_of_map_items {V : Type} (m : gmap Z V) (k : Z) (v : V) :
  (k, v) ∈ map_items m <-> m !! k = Some v.
Proof.
  unfold map_items. rewrite merge_sort_Permutation. apply elem_of_map_to_list.
Qed.

Section C1.
Context {K : MathKernel} {P : Projection}.
Import Solver.

Lemma config_changed_false (acceptable : F32) (o n : Config.t) :
  config_changed acceptable o n = false <->
  Config.getFlags o = Config.getFlags n /\ config_within_tolerance acceptable o n.
Proof.
  unfold config_changed, config_within_tolerance, within_error,
    Config.hasTargetPos, Config.hasTargetRot, Config.hasLocalPos, Config.hasLocalRot,
    Config.getFlags.
  destruct (Z.eqb_spec (Config.mFlags o) (Config.mFlags n)) as [He|Hne]; simpl.
  2: { split; [discriminate | intros [? _]; contradiction]. }
  destruct (has_flag (Config.mFlags o) CONFIG_FLAG_TARGET_POS);
  destruct (has_flag (Config.mFlags o) CONFIG_FLAG_TARGET_ROT);
  destruct (has_flag (Config.mFlags o) CONFIG_FLAG_LOCAL_POS);
  destruct (has_flag (Config.mFlags o) CONFIG_FLAG_LOCAL_ROT); simpl;
  repeat match goal with
  | |- context [F32.gtb ?a ?b] => destruct (F32.gtb a b) eqn:?; simpl
  | |- context [almost_equal ?a ?b] => destruct (almost_equal a b) eqn:?; simpl
  end;
  split; try discriminate; try (intros _; repeat split; intros; congruence);
  intros [_ (H1 & H2 & H3 & H4)];
  try (specialize (H1 eq_refl)); try (specialize (H2 eq_refl));
  try (specialize (H3 eq_refl)); try (specialize (H4 eq_refl)); congruence.
Qed.

Lemma existsb_false_iff {A : Type} (f : A -> bool) (l : list A) :
  existsb f l = false <-> forall x, x ∈ l -> f x = false.
Proof.
  induction l as [|a l IH]; simpl.
  - split; [intros _ x Hx; inversion Hx | reflexivity].
  - rewrite orb_false_iff, IH. split.
    + intros [Ha Hl] x Hx. apply elem_of_cons in Hx as [->|Hx]; auto.
    + intros H. split; [apply H; left | intros x Hx; apply H; right; exact Hx].
Qed.

Lemma something_changed_false (configs : ConfigMap) (s : Solver.t) :
  (updateJointConfigs configs s).2 = false <->
  configs_unchanged (mAcceptableError s) (mJointConfigs s) configs.
Proof.
  unfold updateJointConfigs; simpl.
  unfold configs_unchanged, structurally_identical.
  case_bool_decide as Hsize.
  - rewrite existsb_false_iff. split.
    + intros Hall.
      assert (Hsub : dom (mJointConfigs s) ⊆ dom configs).
      { intros id Hid. apply elem_of_dom in Hid as [o Ho].
        specialize (Hall (id, o)). rewrite elem_of_map_items in Hall.
        specialize (Hall Ho). simpl in Hall.
        apply elem_of_dom. destruct (configs !! id); [eauto | discriminate]. }
      assert (Hdom : dom configs = dom (mJointConfigs s)).
      { symmetry. apply set_subseteq_size_eq; [exact Hsub|].
        rewrite !size_dom. lia. }
      split; [split; [exact Hdom|] |]; intros id o n Ho Hn;
        specialize (Hall (id, o)); rewrite elem_of_map_items in Hall;
        specialize (Hall Ho); simpl in Hall; rewrite Hn in Hall;
        apply config_changed_false in Hall; tauto.
    + intros [[Hdom Hflags] Htol] [id o] Hin. apply elem_of_map_items in Hin. simpl.
      assert (Hn : is_Some (configs !! id)).
      { apply elem_of_dom. rewrite Hdom. apply elem_of_dom. eauto. }
      destruct Hn as [n Hn]. rewrite Hn. apply config_changed_false. eauto.
  - split; [discriminate|]. intros [[Hdom _] _]. exfalso. apply Hsize.
    rewrite <- (size_dom configs), <- (size_dom (mJointConfigs s)), Hdom. reflexivity.
Qed.

End C1.

(** ** buildChain *)

Lemma activate_idem (j : Joint.t) : Joint.activate (Joint.activate j) = Joint.activate j.
Proof.
  unfold Joint.activate, Joint.set_mIkFlags; simpl. f_equal.
  rewrite <- Z.lor_assoc, Z.lor_diag. reflexivity.
Qed.

Lemma activated_lookup (h : Heap) (chain : list Z) (hc : Heap) (p : Z) (j' : Joint.t) :
  activated h chain hc -> hc !! p = Some j' ->
  exists j, h !! p = Some j /\ Joint.activate j' = Joint.activate j
            /\ Joint.getID j' = Joint.getID j
            /\ Joint.hasPosTarget j' = Joint.hasPosTarget j
            /\ Joint.getNumChildren j' = Joint.getNumChildren j
            /\ Joint.mParent j' = Joint.mParent j.
Proof.
  intros Hact Hp. rewrite (Hact p) in Hp. destruct (decide (p ∈ chain)).
  - destruct (h !! p) as [j|]; [|discriminate]. simpl in Hp. injection Hp as <-.
    exists j. rewrite activate_idem. repeat split; reflexivity.
  - exists j'. repeat split; auto.
Qed.

Lemma activated_write (h : Heap) (chain : list Z) (hc : Heap) (p : Z) (j j' : Joint.t) :
  activated h chain hc -> h !! p = Some j -> Joint.activate j' = Joint.activate j ->
  activated h (chain ++ [p]) (write p (Joint.activate j') hc).
Proof.
  intros Hact Hp Heq q. unfold write.
  destruct (decide (q = p)) as [->|Hne].
  - rewrite lookup_insert_eq. rewrite decide_True by (apply elem_of_app; right; left).
    rewrite Hp, Heq. reflexivity.
  - rewrite lookup_insert_ne by congruence. rewrite (Hact q).
    destruct (decide (q ∈ chain)) as [Hin|Hnin].
    + rewrite decide_True by (apply elem_of_app; left; exact Hin). reflexivity.
    + rewrite decide_False; [reflexivity|].
      intros [H|H]%elem_of_app; [contradiction|].
      apply list_elem_of_singleton in H. contradiction.
Qed.

Lemma stop_reason_agree (sub_base : Solver.t -> Joint.t -> bool) (s : Solver.t) (j j' : Joint.t) :
  Joint.getID j' = Joint.getID j -> Joint.hasPosTarget j' = Joint.hasPosTarget j ->
  sub_base s j' = sub_base s j ->
  stop_reason sub_base s j' = stop_reason sub_base s j.
Proof. intros H1 H2 H3. unfold stop_reason. rewrite H1, H2, H3. reflexivity. Qed.

Lemma buildChain_walk_spec (s : Solver.t) (h : Heap) :
  parents_valid h ->
  forall (fuel : nat) (joint : option Z) (chain : list Z) (sub_bases : gset Z) (hc : Heap),
    activated h chain hc ->
    (forall p, joint = Some p -> is_Some (h !! p)) ->
    exists visited pending h',
      buildChain_walk s fuel joint chain sub_bases hc
      = Some (h', chain ++ visited, pending ∪ sub_bases)
      /\ chain_walk amended_sub_base s h fuel joint visited pending
      /\ activated h (chain ++ visited) h'.
Proof.
  intros Hvalid fuel. induction fuel as [|fuel IH]; intros joint chain sub_bases hc Hact Hj.
  - exists [], ∅, hc. simpl. rewrite app_nil_r, (left_id_L ∅ (∪)).
    split; [destruct joint; reflexivity|]. split; [constructor | exact Hact].
  - destruct joint as [p|].
    2: { exists [], ∅, hc. simpl. rewrite app_nil_r, (left_id_L ∅ (∪)).
         split; [reflexivity|]. split; [constructor | exact Hact]. }
    destruct (Hj p eq_refl) as [j Hp].
    assert (Hc : is_Some (hc !! p)).
    { rewrite (Hact p). destruct (decide (p ∈ chain)); rewrite Hp; simpl; eauto. }
    destruct Hc as [j' Hc].
    destruct (activated_lookup h chain hc p j' Hact Hc)
      as (j0 & Hp0 & Hactj & Hid & Htgt & Hnum & Hpar).
    rewrite Hp in Hp0. injection Hp0 as <-.
    assert (Hsb : amended_sub_base s j' = amended_sub_base s j).
    { unfold amended_sub_base. rewrite Hid, Hnum. reflexivity. }
    pose proof (stop_reason_agree amended_sub_base s j j' Hid Htgt Hsb) as Hstop.
    pose proof (activated_write h chain hc p j j' Hact Hp Hactj) as Hact'.
    simpl. rewrite Hc. simpl.
    assert (Hstopped : forall r, stop_reason amended_sub_base s j' = Some r ->
              exists visited pending h',
                Some (write p (Joint.activate j') hc, chain ++ [p], enqueued r j' ∪ sub_bases)
                = Some (h', chain ++ visited, pending ∪ sub_bases)
                /\ chain_walk amended_sub_base s h (S fuel) (Some p) visited pending
                /\ activated h (chain ++ visited) h').
    { intros r Hr. exists [p], (enqueued r j), (write p (Joint.activate j') hc).
      split; [|split; [econstructor; [eassumption | congruence] | exact Hact']].
      destruct r; simpl; rewrite ?Hid; reflexivity. }
    unfold stop_reason in Hstopped. unfold stop_reason in Hstop.
    fold (amended_sub_base s j').
    destruct (isSubRoot s (Joint.getID j')).
    { destruct (Hstopped _ eq_refl) as (v & pe & h' & He & ?). simpl in He.
      rewrite (left_id_L ∅ (∪)) in He. eauto. }
    destruct (Joint.getID j' =? mRootID s).
    { destruct (Hstopped _ eq_refl) as (v & pe & h' & He & ?). simpl in He.
      rewrite (left_id_L ∅ (∪)) in He. eauto. }
    destruct (Joint.hasPosTarget j').
    { destruct (Hstopped _ eq_refl) as (v & pe & h' & He & ?). simpl in He.
      rewrite (left_id_L ∅ (∪)) in He. eauto. }
    destruct (amended_sub_base s j').
    { destruct (Hstopped _ eq_refl) as (v & pe & h' & He & ?). simpl in He. eauto. }
    (* the walk goes on with the parent *)
    destruct (IH (Joint.mParent j) (chain ++ [p]) sub_bases
                (write p (Joint.activate j') hc) Hact')
      as (visited & pending & h' & Hw & Hcw & Hact'').
    { intros q Hq. eapply Hvalid; eassumption. }
    exists (p :: visited), pending, h'.
    rewrite <- app_assoc in Hw, Hact''. simpl in Hw, Hact''.
    split; [rewrite Hpar; exact Hw|].
    split; [econstructor; [eassumption | unfold stop_reason; congruence | exact Hcw]
           | exact Hact''].
Qed.

(** C2, amended: buildChain appends each visited joint, marks it active, and
    stops, inclusive, at the first sub-root, root, position-targeted joint or
    sub-base, where a joint with more than one child is a sub-base only while
    the whitelist is empty; it also stops when the chain has chain_length
    joints or the walk runs out of parents; a sub-base that stopped the walk
    is inserted into the pending set. *)
Theorem buildChain_amended (s : Solver.t) (joint : Z) (sub_bases : gset Z)
    (chain_length : Z) (h : Heap) :
  parents_valid h -> is_Some (h !! joint) ->
  chain_claim amended_sub_base s joint sub_bases chain_length h.
Proof.
  intros Hvalid [j Hj]. unfold chain_claim, buildChain. rewrite Hj. simpl.
  destruct (buildChain_walk_spec s h Hvalid (Z.to_nat chain_length - 1)%nat
              (Joint.mParent j) [joint] sub_bases (write joint (Joint.activate j) h))
    as (visited & pending & h' & Hw & Hcw & Hact).
  - apply (activated_write h [] h joint j j); [|exact Hj|reflexivity].
    intros p. rewrite decide_False; [reflexivity | apply not_elem_of_nil].
  - intros q Hq. eapply Hvalid; eassumption.
  - exists j, visited, pending, h'. repeat split; assumption.
Qed.

Lemma parents_valid_b_correct (h : Heap) : parents_valid_b h = true -> parents_valid h.
Proof.
  unfold parents_valid_b, parents_valid. rewrite forallb_forall.
  intros Hall p j q Hp Hq.
  specialize (Hall (p, j)). simpl in Hall. rewrite Hq in Hall.
  eapply bool_decide_unpack. apply Is_true_true_2. apply Hall.
  apply list_elem_of_In, elem_of_map_to_list. exact Hp.
Qed.

(* the amended statement at the fork with a whitelist *)
Lemma buildChain_amended_witness :
  chain_claim amended_sub_base Example.fork_whitelisted 2 ∅ 255
    (mSkeleton Example.fork_whitelisted).
Proof.
  apply buildChain_amended.
  - apply parents_valid_b_correct. vm_compute. reflexivity.
  - vm_compute. eexists. reflexivity.
Defined.

(** C2, counterexample: with the whitelist {7} the walk from joint 2 of the
    fork passes joint 1, which has two children, and ends at the root. *)
Lemma buildChain_claim_fails :
  ~ chain_claim claimed_sub_base Example.fork_whitelisted 2 ∅ 255
      (mSkeleton Example.fork_whitelisted).
Proof.
  intros (j & visited & pending & h' & Hj & Hb & Hw & _).
  assert (Hchain : (λ r : Heap * list Z * gset Z, r.1.2)
                     <$> buildChain Example.fork_whitelisted 2 [] ∅ 255
                           (mSkeleton Example.fork_whitelisted) = Some [2; 1; 0]).
  { vm_compute. reflexivity. }
  rewrite Hb in Hchain. simpl in Hchain. injection Hchain as ->.
  assert (Hpar : Joint.mParent <$> mSkeleton Example.fork_whitelisted !! 2 = Some (Some 1)).
  { vm_compute. reflexivity. }
  rewrite Hj in Hpar. simpl in Hpar. injection Hpar as Hpar. rewrite Hpar in Hw.
  inversion Hw as [| | |room p j1 v pe Hj1 Hstop Hrest]; subst.
  assert (Hs : stop_reason claimed_sub_base Example.fork_whitelisted
                 <$> mSkeleton Example.fork_whitelisted !! 1 = Some (Some StopSubBase)).
  { vm_compute. reflexivity. }
  rewrite Hj1 in Hs. simpl in Hs. congruence.
Qed.

(** ** solve *)

Lemma SFcompare_antisym (x y : spec_float) (c : comparison) :
  SFcompare x y = Some c -> SFcompare y x = Some (CompOpp c).
Proof.
  destruct x as [sx|sx| |sx mx ex], y as [sy|sy| |sy my ey]; simpl;
    try discriminate; intros [= <-];
    try (destruct sx; reflexivity); try (destruct sy; reflexivity);
    try (destruct sx, sy; reflexivity).
  destruct sx, sy; try reflexivity;
    rewrite (Z.compare_antisym ex ey); destruct (ex ?= ey)%Z; simpl; try reflexivity;
    rewrite !Pos.compare_cont_spec; simpl;
    rewrite (Pos.compare_antisym mx my); destruct (mx ?= my)%positive; reflexivity.
Qed.

Lemma SFcompare_total (x y : spec_float) :
  F32.is_nan x = false -> F32.is_nan y = false -> exists c, SFcompare x y = Some c.
Proof.
  destruct x as [sx|sx| |sx mx ex], y as [sy|sy| |sy my ey]; simpl;
    try discriminate; intros _ _; eauto.
Qed.

Lemma not_gtb_leb (x y : F32) :
  F32.is_nan x = false -> F32.is_nan y = false ->
  F32.gtb x y = false -> F32.leb x y = true.
Proof.
  intros Hx Hy. unfold F32.gtb, F32.leb, SFltb, SFleb.
  destruct (SFcompare_total x y Hx Hy) as [c Hc].
  rewrite Hc, (SFcompare_antisym x y c Hc). destruct c; simpl; congruence.
Qed.

Lemma gtb_not_nan (x y : F32) : F32.gtb x y = true -> F32.is_nan x = false.
Proof.
  unfold F32.gtb, SFltb.
  destruct x as [sx|sx| |sx mx ex], y as [sy|sy| |sy my ey]; simpl; congruence.
Qed.

Section C3.
Context {K : MathKernel} {P : Projection}.

Lemma foldM_invariant {A B : Type} (Inv : B -> Prop) (f : B -> A -> option B)
    (l : list A) (b b' : B) :
  (forall b a b', Inv b -> f b a = Some b' -> Inv b') ->
  Inv b -> foldM f b l = Some b' -> Inv b'.
Proof.
  intros Hstep. revert b. induction l as [|a l IH]; simpl; intros b Hb Hf.
  - injection Hf as <-. exact Hb.
  - destruct (f b a) as [b1|] eqn:Hfa; [|discriminate]. simpl in Hf.
    eapply IH; [|exact Hf]. eapply Hstep; eassumption.
Qed.

Lemma measureMaxError_not_nan (s : Solver.t) (e : F32) :
  measureMaxError s = Some e -> F32.is_nan e = false.
Proof.
  unfold measureMaxError.
  apply (foldM_invariant (fun e => F32.is_nan e = false)); [|reflexivity].
  intros b [id target] b' Hb. simpl.
  destruct (id =? mRootID s); [congruence|].
  destruct (Config.hasTargetPos target && negb (Config.hasDelegated target)); [|congruence].
  destruct (mSkeleton s !! id) as [joint|]; [|discriminate]. simpl.
  destruct (F32.gtb _ b) eqn:Hgt; intros [= <-]; [|exact Hb].
  eapply gtb_not_nan; exact Hgt.
Qed.

Lemma solveOnce_spec (s s' : Solver.t) (e : F32) :
  solveOnce s = Some (s', e) ->
  mAcceptableError s' = mAcceptableError s /\ F32.is_nan e = false.
Proof.
  unfold solveOnce. intros H.
  destruct (executeFabrikPass true s) as [h|]; [|discriminate]. simpl in H.
  destruct (measureMaxError (set_mSkeleton h s)) as [e'|] eqn:He; [|discriminate].
  simpl in H. injection H as <- <-. split; [reflexivity|].
  eapply measureMaxError_not_nan; exact He.
Qed.

Lemma passes_acceptable (n : nat) (s s' : Solver.t) (e e' : F32) :
  passes n s e = Some (s', e') -> mAcceptableError s' = mAcceptableError s.
Proof.
  revert s e. induction n as [|n IH]; simpl; intros s e H.
  - injection H as <- _. reflexivity.
  - destruct (solveOnce s) as [[s1 e1]|] eqn:H1; [|discriminate]. simpl in H.
    rewrite (IH _ _ H). apply (solveOnce_spec _ _ _ H1).
Qed.

Lemma passes_not_nan (n : nat) (s s' : Solver.t) (e e' : F32) :
  (0 < n)%nat -> passes n s e = Some (s', e') -> F32.is_nan e' = false.
Proof.
  revert s e. induction n as [|n IH]; simpl; intros s e Hn H; [lia|].
  destruct (solveOnce s) as [[s1 e1]|] eqn:H1; [|discriminate]. simpl in H.
  destruct n as [|n].
  - simpl in H. injection H as <- <-. apply (solveOnce_spec _ _ _ H1).
  - eapply IH; [lia | exact H].
Qed.

(* the loop from counter [loop], with fuel for the remaining rounds *)
Lemma solveLoop_spec (fuel : nat) :
  forall (loop : Z) (max_error : F32) (s : Solver.t),
    0 <= loop -> loop + Z.of_nat fuel = MAX_SOLVER_ITERATIONS ->
    let r := solveLoop fuel loop max_error s in
    (r.1 <= fuel)%nat
    /\ forall s' err, r.2 = Some (s', err) ->
         passes r.1 s max_error = Some (s', err)
         /\ MIN_SOLVER_ITERATIONS <= loop + Z.of_nat r.1
         /\ (loop + Z.of_nat r.1 < MAX_SOLVER_ITERATIONS ->
               F32.gtb err (mAcceptableError s) = false)
         /\ forall (m : nat) sm em,
              (m < r.1)%nat -> MIN_SOLVER_ITERATIONS <= loop + Z.of_nat m ->
              passes m s max_error = Some (sm, em) ->
              F32.gtb em (mAcceptableError s) = true.
Proof.
  unfold MAX_SOLVER_ITERATIONS, MIN_SOLVER_ITERATIONS.
  induction fuel as [|fuel IH]; intros loop max_error s Hloop Hfuel; simpl.
  - split; [lia|]. intros s' err [= <- <-]. simpl.
    split; [reflexivity|]. split; [lia|]. split; [lia|]. intros; lia.
  - change MIN_SOLVER_ITERATIONS with 4. change MAX_SOLVER_ITERATIONS with 16.
    destruct (loop <? 4) eqn:Hmin; simpl.
    + destruct (solveOnce s) as [[s1 e1]|] eqn:H1; simpl; [|split; [lia|discriminate]].
      destruct (IH (loop + 1) e1 s1) as [Hn Hr]; [lia|lia|].
      split; [lia|]. intros s' err Hres.
      destruct (Hr s' err Hres) as (Hp & Hge & Hlt & Hcont).
      rewrite H1. simpl. rewrite <- (proj1 (solveOnce_spec _ _ _ H1)).
      split; [exact Hp|]. split; [lia|]. split; [intros; apply Hlt; lia|].
      intros [|m] sm em Hm Hm4 Hpm; [apply Z.ltb_lt in Hmin; lia|].
      simpl in Hpm. rewrite H1 in Hpm. simpl in Hpm.
      eapply Hcont; [|  |exact Hpm]; lia.
    + destruct (loop <? 16) eqn:Hmax; simpl.
      * destruct (F32.gtb max_error (mAcceptableError s)) eqn:Hgt; simpl.
        -- destruct (solveOnce s) as [[s1 e1]|] eqn:H1; simpl; [|split; [lia|discriminate]].
           destruct (IH (loop + 1) e1 s1) as [Hn Hr]; [lia|lia|].
           split; [lia|]. intros s' err Hres.
           destruct (Hr s' err Hres) as (Hp & Hge & Hlt & Hcont).
           rewrite H1. simpl. rewrite <- (proj1 (solveOnce_spec _ _ _ H1)).
           split; [exact Hp|]. split; [lia|]. split; [intros; apply Hlt; lia|].
           intros [|m] sm em Hm Hm4 Hpm.
           ++ simpl in Hpm. injection Hpm as <- <-.
              rewrite (proj1 (solveOnce_spec _ _ _ H1)). exact Hgt.
           ++ simpl in Hpm. rewrite H1 in Hpm. simpl in Hpm.
              eapply Hcont; [|  |exact Hpm]; lia.
        -- split; [lia|]. intros s' err [= <- <-]. simpl.
           apply Z.ltb_ge in Hmin.
           split; [reflexivity|]. split; [lia|]. split; [intros _; exact Hgt|].
           intros; lia.
      * apply Z.ltb_ge in Hmax. lia.
Qed.

(* more fuel than MAX_SOLVER_ITERATIONS changes nothing *)
Lemma solveLoop_fuel (fuel : nat) :
  forall (extra : nat) (loop : Z) (max_error : F32) (s : Solver.t),
    loop + Z.of_nat fuel = MAX_SOLVER_ITERATIONS ->
    solveLoop (fuel + extra) loop max_error s = solveLoop fuel loop max_error s.
Proof.
  unfold MAX_SOLVER_ITERATIONS.
  induction fuel as [|fuel IH]; intros extra loop max_error s Hfuel; simpl.
  - destruct extra as [|extra]; [reflexivity|]. simpl.
    replace (loop <? MIN_SOLVER_ITERATIONS) with false
      by (symmetry; apply Z.ltb_ge; unfold MIN_SOLVER_ITERATIONS; lia).
    replace (loop <? MAX_SOLVER_ITERATIONS) with false
      by (symmetry; apply Z.ltb_ge; unfold MAX_SOLVER_ITERATIONS; lia).
    reflexivity.
  - destruct ((loop <? MIN_SOLVER_ITERATIONS)
              || (loop <? MAX_SOLVER_ITERATIONS)
                 && F32.gtb max_error (mAcceptableError s)); [|reflexivity].
    destruct (solveOnce s) as [[s1 e1]|]; [|reflexivity].
    rewrite IH by lia. reflexivity.
Qed.

(** X19: the loop of solve makes at most 16 passes (more fuel changes
    nothing); when it returns, at least 4 passes were made, fewer than 16 only
    if the last measured error is not above the acceptable error, no pass
    from the fourth on that was followed by another had an error within the
    acceptable one, and the value returned and stored in mLastError is the
    error measured after the last pass. *)
Theorem solve_iterations_bounded (s : Solver.t) :
  let n := (solveIterations s).1 in
  (n <= 16)%nat
  /\ (forall extra : nat,
        solveLoop (16 + extra) 0 F32_MAX s = solveLoop 16 0 F32_MAX s)
  /\ forall s' err, (solveIterations s).2 = Some (s', err) ->
       (4 <= n)%nat
       /\ ((n < 16)%nat ->
             F32.gtb err (mAcceptableError s) = false
             /\ (F32.is_nan (mAcceptableError s) = false ->
                   F32.leb err (mAcceptableError s) = true))
       /\ (forall (m : nat) sm em,
             (4 <= m < n)%nat -> passes m s F32_MAX = Some (sm, em) ->
             F32.gtb em (mAcceptableError s) = true)
       /\ mLastError s' = err
       /\ exists s1, passes n s F32_MAX = Some (s1, err) /\ s' = set_mLastError err s1.
Proof.
  unfold solveIterations. change (Z.to_nat MAX_SOLVER_ITERATIONS) with 16%nat.
  cbv zeta. cbn [fst snd].
  destruct (solveLoop_spec 16 0 F32_MAX s) as [Hn Hr]; [lia|reflexivity|].
  split; [exact Hn|].
  split; [intros extra; apply (solveLoop_fuel 16); reflexivity|].
  intros s' err Hres.
  destruct ((solveLoop 16 0 F32_MAX s).2) as [[s1 e1]|] eqn:H2; [|discriminate].
  injection Hres as <- <-.
  destruct (Hr s1 e1 eq_refl) as (Hp & Hge & Hlt & Hcont).
  unfold MIN_SOLVER_ITERATIONS, MAX_SOLVER_ITERATIONS in *.
  split; [lia|]. split.
  { intros Hn16. assert (Hgt : F32.gtb e1 (mAcceptableError s) = false) by (apply Hlt; lia).
    split; [exact Hgt|]. intros Hacc. apply not_gtb_leb; [|exact Hacc|exact Hgt].
    eapply passes_not_nan; [|exact Hp]. lia. }
  split. { intros m sm em Hm Hpm. eapply Hcont; [| |exact Hpm]; lia. }
  split; [reflexivity|]. exists s1. split; [exact Hp|reflexivity].
Qed.
End C3.

(* at the arm of the elbow example: the loop returns after 9 passes, the last
   error is within the acceptable error, and the errors of the passes 4 to 8
   were not *)
Lemma solve_iterations_bounded_witness :
  let s := default Example4.arm (prepareSolve (K := Example.kernel) Example4.arm) in
  let r := solveIterations (K := Example.kernel) (P := Example6.projection) s in
  prepareSolve (K := Example.kernel) Example4.arm = Some s
  /\ r.1 = 9%nat
  /\ exists s' err,
       r.2 = Some (s', err)
       /\ F32.leb err (mAcceptableError s) = true
       /\ mLastError s' = err
       /\ forall (m : nat) sm em,
            (4 <= m < 9)%nat ->
            passes (K := Example.kernel) (P := Example6.projection) m s F32_MAX
            = Some (sm, em) ->
            F32.gtb em (mAcceptableError s) = true.
Proof.
  cbv zeta.
  set (s := default Example4.arm (prepareSolve (K := Example.kernel) Example4.arm)).
  destruct (solve_iterations_bounded (K := Example.kernel) (P := Example6.projection) s)
    as (_ & _ & Hret).
  assert (Hn : (solveIterations (K := Example.kernel) (P := Example6.projection) s).1
               = 9%nat) by (vm_compute; reflexivity).
  assert (Hsome : exists s' err,
             (solveIterations (K := Example.kernel) (P := Example6.projection) s).2
             = Some (s', err)) by (vm_compute; eexists; eexists; reflexivity).
  destruct Hsome as (s' & err & Hsome).
  destruct (Hret s' err Hsome) as (_ & Hearly & Hlate & Hlast & _).
  rewrite Hn in Hearly, Hlate.
  split; [vm_compute; reflexivity|]. split; [exact Hn|].
  exists s', err. split; [exact Hsome|]. split.
  - apply Hearly; [lia|vm_compute; reflexivity].
  - split; [exact Hlast|exact Hlate].
Defined.

Lemma solveLoop_failing_pass {K : MathKernel} {P : Projection} (s : Solver.t) :
  solveOnce s = None ->
  forall fuel : nat, solveLoop (S fuel) 0 F32_MAX s = (1%nat, None).
Proof.
  intros Hfail fuel. cbn [solveLoop]. change (0 <? MIN_SOLVER_ITERATIONS) with true.
  cbn [orb]. rewrite Hfail. reflexivity.
Qed.

(** C3: solve does not always return.  With a position target configured for
    the id 5, which the arm 0 -> 1 -> 2 lacks, the loop is entered and makes
    its first pass, whose error measure dereferences the missing joint: the
    loop, whatever its bound, and solve have no result.  Without that entry
    solve returns after 4 passes, with the error it returns stored in
    mLastError. *)
Theorem solve_no_result_at_unknown_id
    (getAngleAxis : LLQuaternion -> F32 * LLVector3)
    (setAngleAxis : F32 -> LLVector3 -> LLQuaternion)
    (hash_combine : N -> HashArg -> N) (P : Projection) :
  let K := Reference.kernel getAngleAxis setAngleAxis hash_combine in
  let s := default Example10.arm_stray (prepareSolve Example10.arm_stray) in
  let s0 := default Example10.arm_targeted (prepareSolve Example10.arm_targeted) in
  (* with the entry for the id 5: the loop is entered, the first pass is
     made, and its error measure has no result, whatever the bound *)
  prepareSolve Example10.arm_stray = Some s
  /\ is_Some (executeFabrikPass true s)
  /\ solveOnce s = None
  /\ (forall fuel : nat, solveLoop (S fuel) 0 F32_MAX s = (1%nat, None))
  /\ solveIterations s = (1%nat, None)
  /\ solve Example10.arm_stray = None
  (* without it: solve returns after 4 passes *)
  /\ prepareSolve Example10.arm_targeted = Some s0
  /\ (solveIterations s0).1 = 4%nat
  /\ exists s' err, solve Example10.arm_targeted = Some (s', err) /\ mLastError s' = err.
Proof.
  cbv zeta.
  split; [vm_compute; reflexivity|]. split; [vm_compute; eexists; reflexivity|].
  assert (Hfail : solveOnce (K := Reference.kernel getAngleAxis setAngleAxis hash_combine)
                    (default Example10.arm_stray
                       (prepareSolve
                          (K := Reference.kernel getAngleAxis setAngleAxis hash_combine)
                          Example10.arm_stray)) = None)
    by (vm_compute; reflexivity).
  split; [exact Hfail|]. split; [apply solveLoop_failing_pass; exact Hfail|].
  split; [vm_compute; reflexivity|]. split; [vm_compute; reflexivity|].
  split; [vm_compute; reflexivity|]. split; [vm_compute; reflexivity|].
  vm_compute. eexists. eexists. split; reflexivity.
Qed.

(** ** The root joint *)

Section C4.
Context {K : MathKernel} {P : Projection}.

#[local] Arguments bend_geometry : simpl never.
#[local] Arguments measured_twist : simpl never.

Lemma updateLocalRot_false_frame (p : Z) (h h' : Heap) (b : bool) :
  updateLocalRot_false p h = Some (h', b) ->
  forall q, q <> p -> h' !! q = h !! q.
Proof.
  unfold updateLocalRot_false, updateLocalRot_with. intros H q Hq.
  destruct (h !! p) as [j|]; [|discriminate]. simpl in H.
  destruct (Joint.mParent j) as [pp|]; [|discriminate]. simpl in H.
  destruct (h !! pp) as [parent|]; [|discriminate]. simpl in H.
  destruct (negb (almost_equal _ _)); [|injection H as <- _; reflexivity].
  destruct (Joint.localRotLocked j); injection H as <- _; [reflexivity|].
  unfold write. rewrite lookup_insert_ne by congruence. reflexivity.
Qed.

(* the flag of the root *)
Lemma setParent_root_locked (this : Z) (h h' : Heap) :
  setParent None this h = Some h' ->
  exists j, h' !! this = Some j /\ Joint.mParent j = None
            /\ Joint.localRotLocked j = true /\ Joint.mRot j = Joint.mLocalRot j.
Proof.
  unfold setParent, reset, write. intros H.
  destruct (h !! this) as [j|]; [|discriminate]. simpl in H.
  rewrite lookup_insert_eq in H. simpl in H. injection H as <-.
  rewrite lookup_insert_eq. eexists. split; [reflexivity|]. repeat split.
Qed.

Lemma resetFlags_root_locked (j : Joint.t) :
  Joint.mParent j = None -> Joint.localRotLocked (Joint.resetFlags j) = true.
Proof. unfold Joint.resetFlags. intros ->. reflexivity. Qed.

Lemma setLocalRot_locked (q : LLQuaternion) (j : Joint.t) :
  Joint.localRotLocked j = true -> Joint.setLocalRot q j = j.
Proof. unfold Joint.setLocalRot. intros ->. reflexivity. Qed.

(* ElbowConstraint::enforce on the child of a root: the back-rotation of
   the shoulder sets the root's world rot and leaves its local rot *)
Lemma ElbowConstraint_enforce_root (c : Constraint.t) (mPivotAxis : LLVector3)
    (mMinTwist mMaxTwist : F32) (elbow_joint shoulder_joint : Z)
    (h h' : Heap) (elbow shoulder : Joint.t) (changed : bool) :
  h !! elbow_joint = Some elbow -> Joint.mParent elbow = Some shoulder_joint ->
  shoulder_joint <> elbow_joint ->
  h !! shoulder_joint = Some shoulder -> Joint.mParent shoulder = None ->
  Joint.localRotLocked shoulder = true ->
  let bend_pivot := (bend_geometry mPivotAxis shoulder elbow).1.1.1 in
  let upper_pivot := (bend_geometry mPivotAxis shoulder elbow).1.2 in
  almost_equal_tol (shortestArc upper_pivot bend_pivot) LLQuaternion_DEFAULT
                   VERY_SMALL_ANGLE = false ->
  ElbowConstraint_enforce c mPivotAxis mMinTwist mMaxTwist elbow_joint h
    = Some (h', changed) ->
  h' !! shoulder_joint
  = Some (Joint.set_mRot
            (quat_normalize (quat_mul (Joint.mRot shoulder)
                                      (shortestArc upper_pivot bend_pivot)))
            shoulder).
Proof.
  intros He Hpar Hne Hs Hroot Hlock bend_pivot upper_pivot Hadj.
  subst bend_pivot upper_pivot. unfold bend_geometry in Hadj |- *. simpl in Hadj.
  unfold ElbowConstraint_enforce. rewrite He. simpl. rewrite Hpar, Hs. simpl.
  destruct (compute_clamped_angle _ mMinTwist mMaxTwist) as [new_twist|]; [|discriminate].
  simpl.
  set (twisted := if F32.neqb new_twist _ then _ else _).
  assert (Htw : exists h1 b1, twisted = Some (h1, b1) /\ h1 !! shoulder_joint = Some shoulder
                              /\ is_Some (h1 !! elbow_joint)).
  { subst twisted. destruct (F32.neqb new_twist _).
    - simpl. eexists _, _. split; [reflexivity|]. unfold write.
      rewrite lookup_insert_ne by congruence. rewrite lookup_insert_eq. eauto.
    - eexists _, _. split; [reflexivity|]. eauto. }
  destruct Htw as (h1 & b1 & -> & Hs1 & He1). simpl.
  rewrite Hs1. simpl. rewrite Hadj. simpl.
  unfold Joint.setWorldRot at 1. simpl. rewrite Hroot. simpl.
  intros H.
  destruct (updateLocalRot_false elbow_joint _) as [[h2 b2]|] eqn:Hupd; [|discriminate].
  simpl in H. injection H as <- _.
  rewrite (updateLocalRot_false_frame _ _ _ _ Hupd) by exact Hne.
  unfold write. rewrite lookup_insert_eq.
  rewrite setLocalRot_locked by exact Hlock. reflexivity.
Qed.
(* the same through Joint::enforceConstraint and the virtual dispatch *)
Lemma enforceConstraint_elbow_root (this shoulder_joint : Z) (h h' : Heap)
    (elbow shoulder : Joint.t) (c : Constraint.t)
    (mPivotAxis mPivotXForward : LLVector3)
    (mMinBend mMaxBend mMinTwist mMaxTwist : F32) (changed : bool) :
  h !! this = Some elbow -> Joint.mConstraint elbow = Some c ->
  Joint.localRotLocked elbow = false -> Joint.hasDisabledConstraint elbow = false ->
  Constraint.derived c
  = Constraint.ElbowConstraint mPivotAxis mPivotXForward mMinBend mMaxBend
      mMinTwist mMaxTwist ->
  Joint.mParent elbow = Some shoulder_joint -> shoulder_joint <> this ->
  h !! shoulder_joint = Some shoulder -> Joint.mParent shoulder = None ->
  Joint.localRotLocked shoulder = true ->
  let bend_pivot := (bend_geometry mPivotAxis shoulder elbow).1.1.1 in
  let upper_pivot := (bend_geometry mPivotAxis shoulder elbow).1.2 in
  almost_equal_tol (shortestArc upper_pivot bend_pivot) LLQuaternion_DEFAULT
                   VERY_SMALL_ANGLE = false ->
  enforceConstraint this h = Some (h', changed) ->
  h' !! shoulder_joint
  = Some (Joint.set_mRot
            (quat_normalize (quat_mul (Joint.mRot shoulder)
                                      (shortestArc upper_pivot bend_pivot)))
            shoulder).
Proof.
  intros He Hc Hlock Hdis Hder Hpar Hne Hs Hroot Hslock bend_pivot upper_pivot Hadj.
  unfold enforceConstraint. rewrite He. simpl. rewrite Hc, Hlock, Hdis. simpl.
  unfold enforce. rewrite Hder.
  exact (ElbowConstraint_enforce_root c mPivotAxis mMinTwist mMaxTwist this
           shoulder_joint h h' elbow shoulder changed He Hpar Hne Hs Hroot Hslock Hadj).
Qed.
(* updateLocalRot(true) on a joint that is not locked and whose local rot
   changes: the new local rot is stored and the constraint enforced *)
Lemma updateLocalRot_enforces (this pp : Z) (h : Heap) (j parent : Joint.t) :
  h !! this = Some j -> Joint.mParent j = Some pp -> h !! pp = Some parent ->
  let new_local_rot :=
    quat_normalize (quat_mul (Joint.mRot j) (quat_conjugate (Joint.mRot parent))) in
  almost_equal new_local_rot (Joint.mLocalRot j) = false ->
  Joint.localRotLocked j = false ->
  updateLocalRot true this h
  = enforceConstraint this (write this (Joint.set_mLocalRot new_local_rot j) h).
Proof.
  intros Hj Hpar Hp new_local_rot Hne Hlock.
  unfold updateLocalRot, updateLocalRot_with. rewrite Hj. simpl. rewrite Hpar. simpl.
  rewrite Hp. simpl. fold new_local_rot. rewrite Hne, Hlock. reflexivity.
Qed.

Lemma applyLocalRot_frame (cfgs : ConfigMap) (this : Z) (h h' : Heap) :
  applyLocalRot cfgs this h = Some h' -> forall q, q <> this -> h' !! q = h !! q.
Proof.
  unfold applyLocalRot, write. intros H q Hq.
  destruct (h !! this) as [j|]; [|discriminate]. simpl in H.
  destruct (Joint.mParent j) as [pp|].
  - destruct (h !! pp) as [parent|]; [|discriminate]. simpl in H.
    destruct (Joint.hasRotTarget j).
    + destruct (deref_config cfgs j) as [cfg|]; [|discriminate]. simpl in H.
      injection H as <-. rewrite lookup_insert_ne by congruence. reflexivity.
    + injection H as <-. rewrite lookup_insert_ne by congruence. reflexivity.
  - injection H as <-. rewrite lookup_insert_ne by congruence. reflexivity.
Qed.

(* updateOutward(true) on the child of a root, when the child carries an
   ElbowConstraint that is enforced *)
Lemma updateOutward_elbow_root (cfgs : ConfigMap) (this shoulder_joint : Z)
    (h h' : Heap) (elbow0 shoulder : Joint.t) (c : Constraint.t)
    (mPivotAxis mPivotXForward : LLVector3)
    (mMinBend mMaxBend mMinTwist mMaxTwist : F32) :
  h !! this = Some elbow0 -> Joint.mParent elbow0 = Some shoulder_joint ->
  shoulder_joint <> this ->
  h !! shoulder_joint = Some shoulder -> Joint.mParent shoulder = None ->
  Joint.localRotLocked shoulder = true ->
  Joint.mConstraint elbow0 = Some c ->
  Joint.localRotLocked elbow0 = false -> Joint.hasDisabledConstraint elbow0 = false ->
  Constraint.derived c
  = Constraint.ElbowConstraint mPivotAxis mPivotXForward mMinBend mMaxBend
      mMinTwist mMaxTwist ->
  let elbow1 := updateOutward_self shoulder elbow0 in
  let new_local_rot :=
    quat_normalize (quat_mul (Joint.mRot elbow1) (quat_conjugate (Joint.mRot shoulder))) in
  let elbow := Joint.set_mLocalRot new_local_rot elbow1 in
  let bend_pivot := (bend_geometry mPivotAxis shoulder elbow).1.1.1 in
  let upper_pivot := (bend_geometry mPivotAxis shoulder elbow).1.2 in
  almost_equal new_local_rot (Joint.mLocalRot elbow0) = false ->
  almost_equal_tol (shortestArc upper_pivot bend_pivot) LLQuaternion_DEFAULT
                   VERY_SMALL_ANGLE = false ->
  updateOutward cfgs true this h = Some h' ->
  h' !! shoulder_joint
  = Some (Joint.set_mRot
            (quat_normalize (quat_mul (Joint.mRot shoulder)
                                      (shortestArc upper_pivot bend_pivot)))
            shoulder).
Proof.
  intros He Hpar Hne Hs Hroot Hslock Hc Hlock Hdis Hder
         elbow1 new_local_rot elbow bend_pivot upper_pivot Hrot Hadj.
  unfold updateOutward. rewrite He. simpl. rewrite Hpar. simpl. rewrite Hs. simpl.
  fold elbow1. unfold updateLocalRot_and_apply.
  rewrite (updateLocalRot_enforces this shoulder_joint (write this elbow1 h) elbow1 shoulder).
  - fold new_local_rot. fold elbow.
    destruct (enforceConstraint this (write this elbow (write this elbow1 h)))
      as [[h1 enforced]|] eqn:Henf; [|discriminate]. simpl.
    assert (Hroot_rot :
              h1 !! shoulder_joint
              = Some (Joint.set_mRot
                        (quat_normalize (quat_mul (Joint.mRot shoulder)
                                                  (shortestArc upper_pivot bend_pivot)))
                        shoulder)).
    { apply (enforceConstraint_elbow_root this shoulder_joint
               (write this elbow (write this elbow1 h)) h1 elbow shoulder c
               mPivotAxis mPivotXForward mMinBend mMaxBend mMinTwist mMaxTwist enforced);
        try assumption.
      - unfold write. apply lookup_insert_eq.
      - unfold write. rewrite !lookup_insert_ne by congruence. exact Hs. }
    destruct enforced; intros H.
    + rewrite (applyLocalRot_frame _ _ _ _ H) by exact Hne. exact Hroot_rot.
    + injection H as <-. exact Hroot_rot.
  - unfold write. apply lookup_insert_eq.
  - exact Hpar.
  - unfold write. rewrite lookup_insert_ne by congruence. exact Hs.
  - exact Hrot.
  - exact Hlock.
Qed.
End C4.

(** C4: the world rot of the root does not stay equal to its local rot: in the
    first pass of solve on the arm, whatever the angle-axis conversions and
    the projections are, updateOutward on the root's child enforces the elbow
    constraint, which back-rotates the world rot of the root, while the
    root's local rot, being locked, stays. *)
Theorem ElbowConstraint_enforce_moves_root_rot
    (getAngleAxis : LLQuaternion -> F32 * LLVector3)
    (setAngleAxis : F32 -> LLVector3 -> LLQuaternion)
    (hash_combine : N -> HashArg -> N) (P : Projection) (h' : Heap) :
  @updateOutward (Reference.kernel getAngleAxis setAngleAxis hash_combine) P
    (mJointConfigs Example4.arm) true 1 Example4.arm_bent = Some h' ->
  exists root,
    h' !! 0 = Some root /\ Joint.mParent root = None
    /\ Joint.localRotLocked root = true
    /\ Joint.mRot root <> Joint.mLocalRot root.
Proof.
  intros H.
  assert (Hel : exists elbow0 c, Example4.arm_bent !! 1 = Some elbow0
                  /\ Joint.mConstraint elbow0 = Some c
                  /\ Example4.elbow_constraint = Some c).
  { vm_compute. eexists _, _. repeat split. }
  destruct Hel as (elbow0 & c & Hel & Hc & Hcdef).
  assert (Hsh : exists shoulder, Example4.arm_bent !! 0 = Some shoulder).
  { vm_compute. eexists. reflexivity. }
  destruct Hsh as (shoulder & Hsh).
  pose proof (@updateOutward_elbow_root
                (Reference.kernel getAngleAxis setAngleAxis hash_combine) P
                (mJointConfigs Example4.arm) 1 0 Example4.arm_bent h' elbow0 shoulder c
                Reference.z_axis Reference.y_axis F32.zero F_PI
                (F32.opp (F32.div F_PI (F32.of_Z 4))) (F32.div F_PI (F32.of_Z 4))
                Hel) as Hroot_rot.
  vm_compute in Hel, Hsh, Hcdef.
  injection Hel as <-. injection Hsh as <-. injection Hcdef as <-.
  rewrite (Hroot_rot ltac:(reflexivity) ltac:(discriminate) ltac:(vm_compute; reflexivity)
             ltac:(reflexivity) ltac:(reflexivity) ltac:(reflexivity)
             ltac:(reflexivity) ltac:(reflexivity) ltac:(vm_compute; reflexivity)
             ltac:(vm_compute; reflexivity) ltac:(vm_compute; reflexivity) H).
  eexists. split; [reflexivity|]. vm_compute. repeat split. discriminate.
Qed.

Lemma ElbowConstraint_enforce_moves_root_rot_witness :
  updateOutward (K := Example.kernel) (P := Example6.projection)
    (mJointConfigs Example4.arm) true 1 Example4.arm_bent
  = Some Example4.arm_outward
  /\ exists root,
       Example4.arm_outward !! 0 = Some root /\ Joint.mParent root = None
       /\ Joint.localRotLocked root = true
       /\ Joint.mRot root <> Joint.mLocalRot root.
Proof.
  split; [vm_compute; reflexivity|].
  apply (ElbowConstraint_enforce_moves_root_rot
           (fun _ => (F32.zero, Reference.x_axis)) (fun _ _ => LLQuaternion_DEFAULT)
           (fun seed _ => seed) Example6.projection Example4.arm_outward).
  vm_compute. reflexivity.
Defined.

(* the first pass of solve on the arm reaches [arm_bent] before its outward
   phase, whatever the angle-axis conversions and the projections are, and
   the outward phase starts on joint 1 *)
Lemma arm_bent_first_pass
    (getAngleAxis : LLQuaternion -> F32 * LLVector3)
    (setAngleAxis : F32 -> LLVector3 -> LLQuaternion)
    (hash_combine : N -> HashArg -> N) (P : Projection) :
  let K := Reference.kernel getAngleAxis setAngleAxis hash_combine in
  (s ← prepareSolve Example4.arm;
   Some (map_items (mChainMap s), set_items (mActiveRoots s))) = Some ([(2, [2; 1; 0])], [0])
  /\ (s ← prepareSolve Example4.arm;
      h ← executeFabrikInward (mJointConfigs s) [2; 1; 0] true (mSkeleton s);
      updateChildLocalRots 0 h) = Some Example4.arm_bent.
Proof. vm_compute. split; reflexivity. Qed.

Section Example4_facts.
#[local] Existing Instance Example.kernel.
#[local] Existing Instance Example6.projection.

(* the whole of solve on the arm: nine passes bring the hand within the
   acceptable error, and the root is left with the identity as local rot
   and another world rot *)
Lemma solve_arm_root_rot :
  (s ← prepareSolve Example4.arm; Some (solveIterations s).1) = Some 9%nat
  /\ (r ← solve Example4.arm;
      root ← mSkeleton r.1 !! 0;
      Some (F32.leb r.2 (mAcceptableError r.1), Joint.mParent root,
            Joint.localRotLocked root, Joint.mLocalRot root, Joint.mRot root))
     = Some (true, None, true, LLQuaternion_DEFAULT,
             mkQuat (S754_finite true 14375571 (-24)) F32.zero F32.zero
                    (S754_finite false 8649735 (-24))).
Proof. vm_compute. split; reflexivity. Qed.
End Example4_facts.

(** ** computeAdjustedLocalRot of the hinges *)

Lemma annex_F_conforming (M : CMath) :
  (forall s, std_cos (S754_zero s) = F32.one) ->
  (forall s, std_sin (S754_zero s) = S754_zero s) ->
  (forall s m e, std_atan2 (S754_zero s) (S754_finite true m e)
                 = if s then F32.opp F_PI else F_PI) ->
  (forall s m e, std_atan2 (S754_zero s) (S754_finite false m e) = S754_zero s) ->
  (forall a, std_cos (CMath := annex_F M) a = std_cos a)
  /\ (forall a, std_sin (CMath := annex_F M) a = std_sin a)
  /\ (forall y x, std_atan2 (CMath := annex_F M) y x = std_atan2 y x).
Proof.
  intros Hcos Hsin Hneg Hpos. split; [|split].
  - intros [s| | |]; cbn; [symmetry; apply Hcos|reflexivity..].
  - intros [s| | |]; cbn; [symmetry; apply Hsin|reflexivity..].
  - intros [s| | |] x; cbn; [|reflexivity..].
    destruct x as [| | |[] m e]; cbn; [reflexivity..| |].
    + symmetry. apply Hneg.
    + symmetry. apply Hpos.
Qed.

Lemma SFcompare_refl (x : spec_float) : F32.is_nan x = false -> SFcompare x x = Some Eq.
Proof.
  destruct x as [s|[]| |[] m e]; cbn; try reflexivity; try discriminate; intros _.
  - rewrite Z.compare_refl, Pos.compare_cont_refl. reflexivity.
  - rewrite Z.compare_refl, Pos.compare_cont_refl. reflexivity.
Qed.

Lemma leb_not_nan (x y : F32) : F32.leb x y = true -> F32.is_nan y = false.
Proof.
  unfold F32.leb, SFleb. destruct y; try reflexivity.
  destruct x as [| | |[] ? ?]; cbn; discriminate.
Qed.

Lemma compute_clamped_angle_within (angle min_angle max_angle : F32) :
  F32.leb min_angle angle = true -> F32.leb angle max_angle = true ->
  compute_clamped_angle angle min_angle max_angle = Some angle
  /\ F32.neqb angle angle = false.
Proof.
  intros Hmin Hmax. split.
  - unfold compute_clamped_angle.
    assert (Hgt : F32.gtb angle max_angle = false).
    { unfold F32.gtb, SFltb. unfold F32.leb, SFleb in Hmax.
      destruct (SFcompare angle max_angle) as [c|] eqn:Hc; [|discriminate].
      rewrite (SFcompare_antisym _ _ _ Hc). destruct c; [reflexivity..|discriminate]. }
    assert (Hlt : F32.ltb angle min_angle = false).
    { unfold F32.ltb, SFltb. unfold F32.leb, SFleb in Hmin.
      destruct (SFcompare min_angle angle) as [c|] eqn:Hc; [|discriminate].
      rewrite (SFcompare_antisym _ _ _ Hc). destruct c; [reflexivity..|discriminate]. }
    rewrite Hgt, Hlt. reflexivity.
  - unfold F32.neqb, F32.eqb, SFeqb.
    rewrite (SFcompare_refl angle (leb_not_nan _ _ Hmin)). reflexivity.
Qed.

Section C5.
Context {K : MathKernel}.

(* a rotation inside the cone is returned as it is *)
Lemma SimpleCone_keeps_feasible (mForward : LLVector3) (mCosConeAngle mSinConeAngle : F32)
    (q : LLQuaternion) :
  F32.ltb (vec_dot (vec_rot mForward q) mForward) mCosConeAngle = false ->
  Constraint.SimpleCone_computeAdjustedLocalRot mForward mCosConeAngle mSinConeAngle q = q.
Proof.
  intros Hin. unfold Constraint.SimpleCone_computeAdjustedLocalRot. cbv zeta.
  rewrite Hin. reflexivity.
Qed.

Context {M : CMath}.

(* the path of ElbowConstraint::computeAdjustedLocalRot on which the twist
   stays and the bend is clamped to 0 *)
Lemma ElbowConstraint_bend_clamped_to_zero (mForward mPivotAxis mPivotXForward : LLVector3)
    (mMinBend mMaxBend mMinTwist mMaxTwist : F32) (q : LLQuaternion) :
  std_cos F32.zero = F32.one -> std_sin F32.zero = F32.zero ->
  let forward := vec_rot mForward q in
  let adjusted_local_rot :=
    quat_mul q (shortestArc forward
                  (vec_sub forward (vec_scale (vec_dot forward mPivotAxis) mPivotAxis))) in
  let new_forward := vec_rot mForward adjusted_local_rot in
  let twist :=
    std_atan2 (vec_dot (vec_rot mPivotXForward adjusted_local_rot) mPivotAxis)
              (vec_dot (vec_rot mPivotAxis adjusted_local_rot) mPivotAxis) in
  let bend :=
    std_atan2 (vec_dot new_forward mPivotXForward) (vec_dot new_forward mForward) in
  compute_clamped_angle twist mMinTwist mMaxTwist = Some twist ->
  F32.neqb twist twist = false ->
  compute_clamped_angle bend mMinBend mMaxBend = Some F32.zero ->
  F32.neqb F32.zero bend = true ->
  ElbowConstraint_computeAdjustedLocalRot mForward mPivotAxis mPivotXForward
    mMinBend mMaxBend mMinTwist mMaxTwist q
  = Some (ElbowConstraint_bend_to_zero mForward mPivotAxis mPivotXForward q).
Proof.
  intros Hcos Hsin forward adjusted_local_rot new_forward twist bend Htwist Hsame Hbend Hne.
  unfold ElbowConstraint_computeAdjustedLocalRot, ElbowConstraint_bend_to_zero.
  cbv zeta. fold forward. fold adjusted_local_rot. fold new_forward. fold twist.
  rewrite Htwist. cbn [mbind option_bind]. rewrite Hsame. fold bend.
  rewrite Hbend. cbn [mbind option_bind]. rewrite Hne, Hcos, Hsin. reflexivity.
Qed.
End C5.

(* The same defect at the hinge held straight, with nothing assumed of the C
   library but the values of Annex F at the zeros: the bend atan2(-0, -1) =
   -pi of the tilted rotation is clamped to 0, the projection p keeps the
   forward axis out of the hinge plane, and the projection p' of p is not
   almost equal to p; the projection of the knee, which takes its arc from
   the current forward axis, is idempotent there. *)
Example ElbowConstraint_projection_straight
    (getAngleAxis : LLQuaternion -> F32 * LLVector3)
    (setAngleAxis : F32 -> LLVector3 -> LLQuaternion)
    (hash_combine : N -> HashArg -> N) (rest : CMath) :
  let K := Reference.kernel getAngleAxis setAngleAxis hash_combine in
  let M := annex_F rest in
  let q := Example5.tilted in
  exists elbow knee p p',
    Example5.straight_elbow = Some elbow /\ Example5.knee = Some knee
    /\ almost_equal (quat_normalize q) q = true
    (* the projection of q and the projection of the projection *)
    /\ hinge_computeAdjustedLocalRot elbow q = Some p
    /\ hinge_computeAdjustedLocalRot elbow p = Some p'
    /\ almost_equal p' p = false
    /\ ~ idempotent_at (hinge_computeAdjustedLocalRot elbow) q
    (* the forward axis under p is still out of the hinge plane, under p' it
       is mForward *)
    /\ F32.gtb (mV_z (vec_rot Reference.x_axis p)) (F32.ratio 1 2) = true
    /\ F32.gtb (mV_x (vec_rot Reference.x_axis p')) (F32.ratio 9 10) = true
    /\ F32.ltb (F32.abs (mV_z (vec_rot Reference.x_axis p'))) (F32.ratio 1 1000000) = true
    (* the projection of the knee at q *)
    /\ idempotent_at (hinge_computeAdjustedLocalRot knee) q.
Proof.
  cbv zeta.
  set (K := Reference.kernel getAngleAxis setAngleAxis hash_combine).
  pose (elbow := default Example6.needle Example5.straight_elbow).
  pose (knee := default Example6.needle Example5.knee).
  pose (p := default LLQuaternion_DEFAULT
               (hinge_computeAdjustedLocalRot (K := K) (M := annex_F rest)
                  elbow Example5.tilted)).
  pose (p' := default LLQuaternion_DEFAULT
                (hinge_computeAdjustedLocalRot (K := K) (M := annex_F rest) elbow p)).
  assert (H1 : hinge_computeAdjustedLocalRot (K := K) (M := annex_F rest)
                 elbow Example5.tilted = Some p) by (vm_compute; reflexivity).
  assert (H2 : hinge_computeAdjustedLocalRot (K := K) (M := annex_F rest) elbow p = Some p')
    by (vm_compute; reflexivity).
  assert (Hne : almost_equal (MathKernel := K) p' p = false) by (vm_compute; reflexivity).
  exists elbow, knee, p, p'.
  split; [vm_compute; reflexivity|]. split; [vm_compute; reflexivity|].
  split; [vm_compute; reflexivity|].
  split; [exact H1|]. split; [exact H2|]. split; [exact Hne|]. split.
  { intros (a & b & Ha & Hb & Hab).
    rewrite H1 in Ha. apply (inj Some) in Ha. subst a.
    rewrite H2 in Hb. apply (inj Some) in Hb. subst b.
    rewrite Hne in Hab. discriminate Hab. }
  split; [vm_compute; reflexivity|]. split; [vm_compute; reflexivity|].
  split; [vm_compute; reflexivity|].
  exists (default LLQuaternion_DEFAULT
            (hinge_computeAdjustedLocalRot (K := K) (M := annex_F rest)
               knee Example5.tilted)).
  exists (default LLQuaternion_DEFAULT
            (hinge_computeAdjustedLocalRot (K := K) (M := annex_F rest) knee
               (default LLQuaternion_DEFAULT
                  (hinge_computeAdjustedLocalRot (K := K) (M := annex_F rest)
                     knee Example5.tilted)))).
  split; [vm_compute; reflexivity|]. split; vm_compute; reflexivity.
Qed.

(* the bend measured at the two rotations of the example is clamped to 0 *)
Lemma Example5_bends_clamped (b : F32) :
  In b (ulp_window 8 Example5.first_bend_angle)
  \/ In b (ulp_window 8 Example5.second_bend_angle) ->
  compute_clamped_angle b F32.zero F_PI = Some F32.zero /\ F32.neqb F32.zero b = true.
Proof.
  set (clamped_to_zero (b : F32) :=
         match compute_clamped_angle b F32.zero F_PI with
         | Some (S754_zero false) => F32.neqb F32.zero b
         | _ => false
         end).
  assert (Hall : forallb clamped_to_zero
                   (ulp_window 8 Example5.first_bend_angle
                    ++ ulp_window 8 Example5.second_bend_angle) = true)
    by (vm_compute; reflexivity).
  rewrite forallb_forall in Hall. intros Hin.
  specialize (Hall b (proj2 (in_app_iff _ _ _) Hin)). unfold clamped_to_zero in Hall.
  destruct (compute_clamped_angle b F32.zero F_PI) as [[[]| | |]|]; try discriminate Hall.
  split; [reflexivity|exact Hall].
Qed.

(** C5: the projection of ElbowConstraint is not idempotent.  For the elbow
    with forward x, pivot z, bend in [0, pi] and twist in [-pi, pi], the unit
    quaternion q = (0, -1, -2, 4) / sqrt(21), whose forward axis is bent to
    the wrong side and out of the hinge plane, and every C library with
    cos 0 = 1, sin 0 = 0, an atan2 within [-pi, pi] and within 8 units in the
    last place at the two arguments of the example, the projection p' of the
    projection p of q is not almost equal to p: the bend adjustment takes its
    arc from the forward axis under q, not under the rotation adjusted so
    far, so the forward axis under p is out of the hinge plane, on the other
    side, and under p' it is back on the side of q. *)
Theorem ElbowConstraint_projection_not_idempotent
    (getAngleAxis : LLQuaternion -> F32 * LLVector3)
    (setAngleAxis : F32 -> LLVector3 -> LLQuaternion)
    (hash_combine : N -> HashArg -> N) (M : CMath) :
  let K := Reference.kernel getAngleAxis setAngleAxis hash_combine in
  let q := Example5.reaching in
  (* the C library: cos 0 = 1 and sin 0 = 0, an atan2 within [-pi, pi], and
     within 8 units in the last place at the two arguments of the example *)
  std_cos F32.zero = F32.one -> std_sin F32.zero = F32.zero ->
  (forall y x, F32.is_nan y = false -> F32.is_nan x = false ->
     F32.leb (F32.opp F_PI) (std_atan2 y x) = true /\ F32.leb (std_atan2 y x) F_PI = true) ->
  In (std_atan2 Example5.first_bend.1 Example5.first_bend.2)
     (ulp_window 8 Example5.first_bend_angle) ->
  In (std_atan2 Example5.second_bend.1 Example5.second_bend.2)
     (ulp_window 8 Example5.second_bend_angle) ->
  exists elbow p p',
    Example5.elbow = Some elbow
    /\ almost_equal (quat_normalize q) q = true
    (* the projection of q and the projection of the projection *)
    /\ hinge_computeAdjustedLocalRot elbow q = Some p
    /\ hinge_computeAdjustedLocalRot elbow p = Some p'
    /\ almost_equal p' p = false
    /\ ~ idempotent_at (hinge_computeAdjustedLocalRot elbow) q
    (* the forward axis under p is out of the hinge plane to one side, under
       p' to the other *)
    /\ F32.ltb (mV_z (vec_rot Reference.x_axis p)) (F32.opp (F32.ratio 1 3)) = true
    /\ F32.gtb (mV_z (vec_rot Reference.x_axis p')) (F32.ratio 1 3) = true.
Proof.
  cbv zeta. intros Hcos Hsin Hrange Hfirst Hsecond.
  set (K := Reference.kernel getAngleAxis setAngleAxis hash_combine).
  pose (elbow := Constraint.mk Reference.x_axis ELBOW_CONSTRAINT
                   (Constraint.ElbowConstraint Reference.z_axis Reference.y_axis
                      F32.zero F_PI (F32.opp F_PI) F_PI)).
  pose (p := ElbowConstraint_bend_to_zero (K := K) Reference.x_axis Reference.z_axis
               Reference.y_axis Example5.reaching).
  pose (p' := ElbowConstraint_bend_to_zero (K := K) Reference.x_axis Reference.z_axis
                Reference.y_axis p).
  assert (Hpath : forall r : LLQuaternion,
             let forward := vec_rot (MathKernel := K) Reference.x_axis r in
             let adjusted_local_rot :=
               quat_mul r (shortestArc forward
                             (vec_sub forward
                                (vec_scale (vec_dot forward Reference.z_axis)
                                   Reference.z_axis))) in
             let new_forward := vec_rot Reference.x_axis adjusted_local_rot in
             F32.is_nan (vec_dot (vec_rot Reference.y_axis adjusted_local_rot)
                           Reference.z_axis) = false ->
             F32.is_nan (vec_dot (vec_rot Reference.z_axis adjusted_local_rot)
                           Reference.z_axis) = false ->
             In (std_atan2 (vec_dot new_forward Reference.y_axis)
                           (vec_dot new_forward Reference.x_axis))
                (ulp_window 8 Example5.first_bend_angle)
             \/ In (std_atan2 (vec_dot new_forward Reference.y_axis)
                              (vec_dot new_forward Reference.x_axis))
                   (ulp_window 8 Example5.second_bend_angle) ->
             hinge_computeAdjustedLocalRot (K := K) elbow r
             = Some (ElbowConstraint_bend_to_zero (K := K) Reference.x_axis
                       Reference.z_axis Reference.y_axis r)).
  { intros r forward adjusted_local_rot new_forward Hsin_part Hcos_part Hbend.
    destruct (Hrange _ _ Hsin_part Hcos_part) as [Hlo Hhi].
    destruct (compute_clamped_angle_within _ _ _ Hlo Hhi) as [Htwist Hsame].
    destruct (Example5_bends_clamped _ Hbend) as [Hclamp Hne].
    unfold hinge_computeAdjustedLocalRot, elbow.
    cbn [Constraint.derived Constraint.mForward].
    apply ElbowConstraint_bend_clamped_to_zero; assumption. }
  assert (H1 : hinge_computeAdjustedLocalRot (K := K) elbow Example5.reaching = Some p).
  { apply Hpath; [vm_compute; reflexivity..|]. left.
    replace (vec_dot _ Reference.y_axis) with Example5.first_bend.1
      by (vm_compute; reflexivity).
    replace (vec_dot _ Reference.x_axis) with Example5.first_bend.2
      by (vm_compute; reflexivity).
    exact Hfirst. }
  assert (H2 : hinge_computeAdjustedLocalRot (K := K) elbow p = Some p').
  { apply Hpath; [vm_compute; reflexivity..|]. right.
    replace (vec_dot _ Reference.y_axis) with Example5.second_bend.1
      by (vm_compute; reflexivity).
    replace (vec_dot _ Reference.x_axis) with Example5.second_bend.2
      by (vm_compute; reflexivity).
    exact Hsecond. }
  assert (Hne : almost_equal (MathKernel := K) p' p = false) by (vm_compute; reflexivity).
  exists elbow, p, p'.
  split; [vm_compute; reflexivity|]. split; [vm_compute; reflexivity|].
  split; [exact H1|]. split; [exact H2|]. split; [exact Hne|]. split.
  { intros (a & b & Ha & Hb & Hab).
    rewrite H1 in Ha. apply (inj Some) in Ha. subst a.
    rewrite H2 in Hb. apply (inj Some) in Hb. subst b.
    rewrite Hne in Hab. discriminate Hab. }
  split; vm_compute; reflexivity.
Qed.

(* at a C library that returns at the two arguments of the example the values
   to the nearest *)
Lemma ElbowConstraint_projection_not_idempotent_witness :
  exists elbow,
    Example5.elbow = Some elbow
    /\ ~ idempotent_at (K := Example.kernel)
           (hinge_computeAdjustedLocalRot (K := Example.kernel) (M := Example5.libm) elbow)
           Example5.reaching.
Proof.
  destruct (ElbowConstraint_projection_not_idempotent
              (λ _, (F32.zero, Reference.x_axis)) (λ _ _, LLQuaternion_DEFAULT)
              (λ seed _, seed) Example5.libm)
    as (elbow & p & p' & Helbow & _ & _ & _ & _ & Hnot & _).
  - reflexivity.
  - reflexivity.
  - intros y x _ _. unfold std_atan2, Example5.libm.
    destruct (F32.eqb y _ && F32.eqb x _); [vm_compute; split; reflexivity|].
    destruct (F32.eqb y _ && F32.eqb x _); vm_compute; split; reflexivity.
  - vm_compute. tauto.
  - vm_compute. tauto.
  - exists elbow. split; [exact Helbow|exact Hnot].
Defined.

(** ** Constraint::enforce *)

Lemma LLQuaternion_eq_dec (p q : LLQuaternion) : {p = q} + {p <> q}.
Proof.
  assert (Hf : forall x y : F32, {x = y} + {x <> y}).
  { unfold F32. decide equality; try apply Pos.eq_dec; try apply Z.eq_dec;
      apply Bool.bool_dec. }
  decide equality.
Qed.


Section C6.
Context {K : MathKernel} {P : Projection}.

(** C6, amended: the default enforce returns true iff the adjusted local rot
    is not almost equal to the current one; it then writes the adjusted value
    into the local rot unless the local rot of the joint is locked, in which
    case, as when the rotations are almost equal, the store is unchanged; it
    returns true iff the store changed or the adjusted local rot, though not
    almost equal to the current one, could not change it: the local rot is
    locked, or the adjusted value is the current one; the world rot of the
    joint is never changed. *)
Theorem Constraint_enforce_amended (c : Constraint.t) (joint : Z) (h : Heap) :
  is_Some (h !! joint) -> enforce_amended c joint h.
Proof.
  intros [j Hj]. unfold enforce_amended, Constraint_enforce. rewrite Hj. simpl.
  set (adjusted := computeAdjustedLocalRot c (Joint.mLocalRot j)).
  destruct (almost_equal adjusted (Joint.mLocalRot j)) eqn:Heq; simpl.
  - exists j, h, false. cbv zeta. fold adjusted. rewrite Heq. simpl.
    split; [reflexivity|]. split; [reflexivity|]. split; [reflexivity|].
    split; [reflexivity|]. split.
    + split; [discriminate|]. intros [Hne|[Hf _]]; [contradiction|discriminate].
    + rewrite Hj. reflexivity.
  - exists j, (write joint (Joint.setLocalRot adjusted j) h), true.
    unfold write, Joint.setLocalRot. cbv zeta. fold adjusted. rewrite Heq. simpl.
    split; [reflexivity|]. split; [reflexivity|]. split; [reflexivity|].
    destruct (Joint.localRotLocked j) eqn:Hlock; simpl.
    + rewrite (insert_id h joint j Hj).
      split; [reflexivity|]. split.
      * split; [|reflexivity]. intros _. right. split; [reflexivity|]. left. reflexivity.
      * rewrite Hj. reflexivity.
    + split; [reflexivity|]. split.
      * split; [|reflexivity]. intros _.
        destruct (LLQuaternion_eq_dec adjusted (Joint.mLocalRot j)) as [Hsame|Hdiff].
        -- right. split; [reflexivity|]. right. exact Hsame.
        -- left. intros Hh.
           assert (Hl : <[joint := Joint.set_mLocalRot adjusted j]> h !! joint = Some j)
             by (rewrite Hh; exact Hj).
           rewrite lookup_insert_eq in Hl. injection Hl as Hl.
           apply (f_equal Joint.mLocalRot) in Hl. simpl in Hl. contradiction.
      * rewrite lookup_insert_eq. reflexivity.
Qed.
End C6.

(* the amended statement at the locked joint of the pair and at the joint
   whose local rot is not almost equal to itself *)
Lemma Constraint_enforce_amended_witness :
  @enforce_amended Example.kernel Example6.projection Example6.needle 1 Example6.pair_locked
  /\ @enforce_amended Example.kernel Example6.projection Example6.needle 1
       Example6.pair_undefined.
Proof.
  split; apply Constraint_enforce_amended; vm_compute; eexists; reflexivity.
Defined.

(** C6, counterexample: on a joint whose local rot is locked, and on a joint
    that is not locked and whose local rot has NaN components, which the
    cone returns as it is, enforce returns true and the store is
    unchanged. *)
Lemma Constraint_enforce_claim_fails :
  ~ @enforce_claim Example.kernel Example6.projection Example6.needle 1 Example6.pair_locked
  /\ ~ @enforce_claim Example.kernel Example6.projection Example6.needle 1
         Example6.pair_undefined.
Proof.
  split.
  - intros (j & h' & b & Hj & He & _ & _ & Hiff & _).
    assert (Hrun : @Constraint_enforce Example.kernel Example6.projection
                     Example6.needle 1 Example6.pair_locked
                   = Some (Example6.pair_locked, true)).
    { vm_compute. reflexivity. }
    rewrite Hrun in He. injection He as <- <-.
    apply Hiff; reflexivity.
  - intros (j & h' & b & Hj & He & _ & _ & Hiff & _).
    assert (Hrun : @Constraint_enforce Example.kernel Example6.projection
                     Example6.needle 1 Example6.pair_undefined
                   = Some (Example6.pair_undefined, true)).
    { vm_compute. reflexivity. }
    rewrite Hrun in He. injection He as <- <-.
    apply Hiff; reflexivity.
Qed.

(** ** updateEndInward *)

Section C7.
Context {K : MathKernel} {P : Projection}.

(* the loop that recomputes mRot reads mLocalRot and mRot of every child and
   nothing else: no flag of a child takes part *)
Lemma averageChildRots_ext (children : list Z) (h h' : Heap) :
  Forall (fun c => (fun j => (Joint.mLocalRot j, Joint.mRot j)) <$> h !! c
                   = (fun j => (Joint.mLocalRot j, Joint.mRot j)) <$> h' !! c) children ->
  averageChildRots children h = averageChildRots children h'.
Proof.
  unfold averageChildRots. generalize quat_origin.
  induction children as [|c children IH]; intros avg Hall; [reflexivity|].
  inversion Hall as [|? ? Hc Hrest]; subst. simpl.
  destruct (h !! c) as [j|], (h' !! c) as [j'|]; simpl in Hc; try discriminate;
    [|reflexivity].
  injection Hc as Hl Hr. simpl. rewrite Hl, Hr. apply IH, Hrest.
Qed.
End C7.

(** C7: in updateEndInward of the wrist of the hand, after the constraint of
    the active finger 2 fired, the world rot written is the running average
    over both fingers, the inactive finger 3 included, and not the average
    over the active children. *)
Theorem updateEndInward_averages_inactive_child
    (getAngleAxis : LLQuaternion -> F32 * LLVector3)
    (setAngleAxis : F32 -> LLVector3 -> LLQuaternion)
    (hash_combine : N -> HashArg -> N)
    (other : Constraint.t -> LLQuaternion -> LLQuaternion) :
  let K := Reference.kernel getAngleAxis setAngleAxis hash_combine in
  let P := Reference.projection other in
  let cfgs := mJointConfigs Example7.hand in
  let code_rot :=
    mkQuat F32.zero F32.zero (S754_finite false 15290105 (-25))
           (S754_finite false 14934127 (-24)) in
  let claimed_rot :=
    mkQuat F32.zero F32.zero (S754_finite false 13610386 (-24))
           (S754_finite false 9809811 (-24)) in
  (* the inward phase of the first pass reaches the wrist with this store *)
  (s ← prepareSolve Example7.hand; Some (map_items (mChainMap s)))
  = Some [(1, [1; 0]); (2, [2; 1])]
  /\ (s ← prepareSolve Example7.hand;
      executeFabrikInward cfgs [2; 1] true (mSkeleton s)) = Some Example7.hand_inward
  (* the loop over the active children: the constraint of finger 2 fires *)
  /\ (h ← updateEndInward_self cfgs 1 Example7.hand_inward;
      updateActiveChildren true [2; 3] h) = Some (Example7.hand_fingers, true)
  /\ Joint.isActive <$> Example7.hand_fingers !! 2 = Some true
  /\ Joint.isActive <$> Example7.hand_fingers !! 3 = Some false
  (* the world rot that updateEndInward leaves, and the one of the claim *)
  /\ updateEndInward cfgs true 1 Example7.hand_inward
     = updateEndInward_average 1 Example7.hand_fingers
  /\ Joint.mRot <$> (updateEndInward_average 1 Example7.hand_fingers ≫= (.!! 1))
     = Some code_rot
  /\ Joint.mRot <$> (claimed_updateEndInward_average 1 Example7.hand_fingers ≫= (.!! 1))
     = Some claimed_rot
  /\ code_rot <> claimed_rot.
Proof. vm_compute. repeat split. discriminate. Qed.

(** ** compute_angle_limits, generateHash and unknown joint ids *)

(** C8: compute_angle_limits(-4, 0) returns (-4, 0): the truncation of
    remove_multiples_of_two_pi leaves -4, which is below -PI, as it is. *)
Theorem compute_angle_limits_keeps_minus_four :
  remove_multiples_of_two_pi (F32.of_Z (-4)) = Some (F32.of_Z (-4))
  /\ compute_angle_limits (F32.of_Z (-4)) F32.zero = Some (F32.of_Z (-4), F32.zero)
  /\ F32.ltb (F32.of_Z (-4)) (F32.opp F_PI) = true
  /\ claimed_angle_limits <$> compute_angle_limits (F32.of_Z (-4)) F32.zero = Some false.
Proof. vm_compute. repeat split. Qed.

Section C9.
Context {K : MathKernel}.

Lemma AcuteEllipsoidalCone_generateHash (forward_axis up_axis : LLVector3)
    (forward up left left' down right : F32) :
  Constraint.generateHash
    (Constraint.newAcuteEllipsoidalCone forward_axis up_axis forward up left down right)
  = Constraint.generateHash
      (Constraint.newAcuteEllipsoidalCone forward_axis up_axis forward up left' down right).
Proof. reflexivity. Qed.

(** C9: the hash of an AcuteEllipsoidalCone does not depend on the left
    extent, so the factory, asked for a cone that differs from a cached one
    in the left extent only, returns the cached one. *)
Theorem getConstraint_shares_cones_with_distinct_left
    (forward_axis up_axis : LLVector3) (forward up left left' down right : F32) :
  let create (left : F32) :=
    Some (Constraint.newAcuteEllipsoidalCone forward_axis up_axis forward up left down right) in
  let first := getConstraint create left ∅ in
  Constraint.generateHash
    (Constraint.newAcuteEllipsoidalCone forward_axis up_axis forward up left down right)
  = Constraint.generateHash
      (Constraint.newAcuteEllipsoidalCone forward_axis up_axis forward up left' down right)
  /\ first.2 = create left
  /\ getConstraint create left' first.1 = (first.1, create left).
Proof.
  intros create first. split; [reflexivity|]. split; [reflexivity|].
  subst first create. unfold getConstraint, constraint_cache_t. cbv beta iota zeta.
  rewrite (lookup_empty (M := gmap N)). cbn [fst snd].
  rewrite (AcuteEllipsoidalCone_generateHash forward_axis up_axis forward up left' left
             down right).
  rewrite lookup_insert_eq. reflexivity.
Qed.
End C9.

Lemma Example9_cones_differ :
  Example9.cone F32.one <> Example9.cone (F32.of_Z 2)
  /\ (getConstraint (K := Example.kernel) (fun left => Some (Example9.cone left)) (F32.of_Z 2)
        (getConstraint (K := Example.kernel) (fun left => Some (Example9.cone left))
           F32.one ∅).1).2
     = Some (Example9.cone F32.one).
Proof. split; [vm_compute; discriminate|]. vm_compute. reflexivity. Qed.

Section C10.
Context {K : MathKernel} {P : Projection}.

Lemma foldM_fails {A B : Type} (f : B -> A -> option B) (l : list A) (a : A) :
  a ∈ l -> (forall b, f b a = None) -> forall b, foldM f b l = None.
Proof.
  intros Hin Hf. induction l as [|a' l IH]; intros b.
  - inversion Hin.
  - simpl. apply elem_of_cons in Hin as [<- | Hin].
    + rewrite Hf. reflexivity.
    + destruct (f b a') as [b'|]; [apply IH, Hin | reflexivity].
Qed.

(* a config with a position target for an id that mSkeleton lacks *)
Lemma measureMaxError_unknown_joint (s : Solver.t) (joint_id : Z) (target : Config.t) :
  mJointConfigs s !! joint_id = Some target ->
  joint_id <> mRootID s ->
  Config.hasTargetPos target = true -> Config.hasDelegated target = false ->
  mSkeleton s !! joint_id = None ->
  measureMaxError s = None.
Proof.
  intros Hcfg Hroot Hpos Hdel Hskel. unfold measureMaxError.
  apply (foldM_fails _ _ (joint_id, target)).
  - apply elem_of_map_items. exact Hcfg.
  - intros b. simpl. rewrite (proj2 (Z.eqb_neq _ _) Hroot), Hpos, Hdel, Hskel. reflexivity.
Qed.

Lemma getJointWorldRot_unknown_joint (s : Solver.t) (joint_id : Z) :
  mSkeleton s !! joint_id = None -> getJointWorldRot s joint_id = LLQuaternion_DEFAULT.
Proof. unfold getJointWorldRot. intros ->. reflexivity. Qed.
End C10.

(** C10: with a position target configured for the id 5, which the skeleton
    lacks, the readback returns the default and the chains are built as
    without the entry, but measureMaxError dereferences the missing joint:
    solve has no result. *)
Theorem solve_unknown_joint_id
    (getAngleAxis : LLQuaternion -> F32 * LLVector3)
    (setAngleAxis : F32 -> LLVector3 -> LLQuaternion)
    (hash_combine : N -> HashArg -> N) (P : Projection) :
  let K := Reference.kernel getAngleAxis setAngleAxis hash_combine in
  mSkeleton Example10.arm_stray !! 5 = None
  /\ getJointWorldRot Example10.arm_stray 5 = LLQuaternion_DEFAULT
  (* the chains are those of the map without the entry *)
  /\ mChainMap <$> rebuildAllChains Example10.arm_stray
     = mChainMap <$> rebuildAllChains Example10.arm_targeted
  /\ mChainMap <$> rebuildAllChains Example10.arm_stray = Some {[2 := [2; 1; 0]]}
  /\ is_Some (solve Example10.arm_targeted)
  (* the first pass succeeds, the measure of its error does not *)
  /\ is_Some (s ← prepareSolve Example10.arm_stray; executeFabrikPass true s)
  /\ (s ← prepareSolve Example10.arm_stray;
      h ← executeFabrikPass true s;
      Some (measureMaxError (set_mSkeleton h s))) = Some None
  /\ solve Example10.arm_stray = None.
Proof.
  vm_compute. repeat split; eexists; reflexivity.
Qed.

(** * Further properties *)

(** ** Flag words *)

Lemma land_bit (f k : Z) :
  0 <= k -> Z.land f (Z.shiftl 1 k) = if Z.testbit f k then 2 ^ k else 0.
Proof.
  intros Hk. rewrite Z.shiftl_1_l. apply Z.bits_inj'. intros n Hn.
  rewrite Z.land_spec, Z.pow2_bits_eqb by exact Hk.
  destruct (Z.testbit f k) eqn:Hb.
  - rewrite Z.pow2_bits_eqb by exact Hk.
    destruct (Z.eqb_spec k n) as [<-|Hne]; [rewrite Hb; reflexivity | apply andb_false_r].
  - rewrite Z.bits_0.
    destruct (Z.eqb_spec k n) as [<-|Hne]; [rewrite Hb; reflexivity | apply andb_false_r].
Qed.

Lemma has_flag_bit (f k : Z) : 0 <= k -> has_flag f (Z.shiftl 1 k) = Z.testbit f k.
Proof.
  intros Hk. unfold has_flag. rewrite land_bit by exact Hk.
  destruct (Z.testbit f k); [|reflexivity].
  apply Z.ltb_lt. apply Z.pow_pos_nonneg; lia.
Qed.

Lemma has_flag_lor (f m k : Z) :
  0 <= k -> has_flag (Z.lor f m) (Z.shiftl 1 k) = has_flag f (Z.shiftl 1 k) || Z.testbit m k.
Proof. intros Hk. rewrite !has_flag_bit, Z.lor_spec by exact Hk. reflexivity. Qed.

Ltac flag_words :=
  unfold Config_has, Config.hasLocalPos, Config.hasLocalRot, Config.hasLocalScale,
    Config.constraintIsDisabled, Config.hasTargetPos, Config.hasTargetRot,
    Config.hasDelegated, Config.setLocalPos, Config.setLocalRot, Config.setLocalScale,
    Config.setTargetPos, Config.setTargetRot, Config_disableConstraint, Config_delegate,
    CONFIG_FLAG_LOCAL_POS, CONFIG_FLAG_LOCAL_ROT, CONFIG_FLAG_LOCAL_SCALE,
    CONFIG_FLAG_DISABLE_CONSTRAINT, CONFIG_FLAG_TARGET_POS, CONFIG_FLAG_TARGET_ROT,
    CONFIG_FLAG_HAS_DELEGATED; cbn [Config.mFlags].

Section ConfigProps.
Context {K : MathKernel}.

(** X1: every setter of a config stores its value (a rotation normalized),
    raises the flag of its own parameter and leaves the six other flags as
    they were. *)
Theorem Config_setters_independent (c : Config.t) (p : LLVector3) (q : LLQuaternion) :
  let has := Config_has c in
  let upd (k : nat) := <[k := true]> has in
  (Config_has (Config.setLocalPos p c) = upd 0%nat
   /\ Config.mLocalPos (Config.setLocalPos p c) = p)
  /\ (Config_has (Config.setLocalRot q c) = upd 1%nat
      /\ Config.mLocalRot (Config.setLocalRot q c) = quat_normalize q)
  /\ (Config_has (Config.setLocalScale p c) = upd 2%nat
      /\ Config.mLocalScale (Config.setLocalScale p c) = p)
  /\ Config_has (Config_disableConstraint c) = upd 3%nat
  /\ (Config_has (Config.setTargetPos p c) = upd 4%nat
      /\ Config.mTargetPos (Config.setTargetPos p c) = p)
  /\ (Config_has (Config.setTargetRot q c) = upd 5%nat
      /\ Config.mTargetRot (Config.setTargetRot q c) = quat_normalize q)
  /\ Config_has (Config_delegate c) = upd 6%nat.
Proof.
  intros has upd. subst has upd. flag_words.
  rewrite !has_flag_lor by lia. cbn [Z.testbit Z.shiftl Pos.testbit Z.of_N]. simpl.
  rewrite !orb_false_r, !orb_true_r. repeat split.
Qed.

Ltac bits_case :=
  change (0 <? 6) with true; change (1 <? 6) with true; change (2 <? 6) with true;
  change (3 <? 6) with true; change (4 <? 6) with true; change (5 <? 6) with true;
  repeat match goal with
         | |- context [?a =? ?b] =>
             let r := eval vm_compute in (a =? b) in change (a =? b) with r
         end;
  rewrite ?andb_false_r, ?orb_false_r, ?andb_true_r; reflexivity.

Lemma updateFrom_flags (o f : Z) :
  (if has_flag o CONFIG_FLAG_DISABLE_CONSTRAINT then Z.lor else fun x _ => x)
    ((if has_flag o CONFIG_FLAG_LOCAL_SCALE then Z.lor else fun x _ => x)
       ((if has_flag o CONFIG_FLAG_TARGET_ROT then Z.lor else fun x _ => x)
          ((if has_flag o CONFIG_FLAG_TARGET_POS then Z.lor else fun x _ => x)
             ((if has_flag o CONFIG_FLAG_LOCAL_ROT then Z.lor else fun x _ => x)
                ((if has_flag o CONFIG_FLAG_LOCAL_POS then Z.lor else fun x _ => x)
                   f CONFIG_FLAG_LOCAL_POS)
                CONFIG_FLAG_LOCAL_ROT)
             CONFIG_FLAG_TARGET_POS)
          CONFIG_FLAG_TARGET_ROT)
       CONFIG_FLAG_LOCAL_SCALE)
    CONFIG_FLAG_DISABLE_CONSTRAINT
  = Z.lor f (Z.land o CONFIG_PARAMETER_FLAGS).
Proof.
  unfold CONFIG_FLAG_LOCAL_POS, CONFIG_FLAG_LOCAL_ROT, CONFIG_FLAG_LOCAL_SCALE,
    CONFIG_FLAG_DISABLE_CONSTRAINT, CONFIG_FLAG_TARGET_POS, CONFIG_FLAG_TARGET_ROT,
    CONFIG_PARAMETER_FLAGS.
  rewrite !has_flag_bit by lia.
  apply Z.bits_inj'. intros n Hn.
  assert (Hbits : forall b (x : Z) k,
             0 <= k ->
             Z.testbit ((if b : bool then Z.lor else fun x _ => x) x (Z.shiftl 1 k)) n
             = Z.testbit x n || (b && (k =? n))).
  { intros b x k Hk. rewrite Z.shiftl_1_l.
    destruct b; [|rewrite orb_false_r; reflexivity].
    rewrite Z.lor_spec, Z.pow2_bits_eqb by exact Hk. reflexivity. }
  rewrite !Hbits by lia. rewrite Z.lor_spec, Z.land_spec.
  change 63 with (Z.ones 6). rewrite Z.testbit_ones_nonneg by lia.
  destruct (Z.eqb_spec 0 n) as [<-|H0]; [bits_case|].
  destruct (Z.eqb_spec 1 n) as [<-|H1]; [bits_case|].
  destruct (Z.eqb_spec 2 n) as [<-|H2]; [bits_case|].
  destruct (Z.eqb_spec 3 n) as [<-|H3]; [bits_case|].
  destruct (Z.eqb_spec 4 n) as [<-|H4]; [bits_case|].
  destruct (Z.eqb_spec 5 n) as [<-|H5]; [bits_case|].
  rewrite !andb_false_r, !orb_false_r.
  replace (n <? 6) with false by (symmetry; apply Z.ltb_ge; lia).
  rewrite andb_false_r, orb_false_r. reflexivity.
Qed.

(** X2: updateFrom(other) raises the flags of other's parameters and of a
    disabled constraint, never the delegated flag; with equal flag words it
    is a plain copy of other, and with different flag words every parameter
    that other has is taken from other (a rotation normalized once more),
    every other parameter and the chain limit are kept. *)
Theorem Config_updateFrom_spec (other c : Config.t) :
  let r := Config_updateFrom other c in
  Config.mFlags r
  = Z.lor (Config.mFlags c) (Z.land (Config.mFlags other) CONFIG_PARAMETER_FLAGS)
  /\ (Config.mFlags c = Config.mFlags other -> r = other)
  /\ (Config.mFlags c <> Config.mFlags other ->
        Config.mLocalPos r
        = (if Config.hasLocalPos other then Config.mLocalPos other else Config.mLocalPos c)
        /\ Config.mLocalRot r
           = (if Config.hasLocalRot other then quat_normalize (Config.mLocalRot other)
              else Config.mLocalRot c)
        /\ Config.mLocalScale r
           = (if Config.hasLocalScale other then Config.mLocalScale other
              else Config.mLocalScale c)
        /\ Config.mTargetPos r
           = (if Config.hasTargetPos other then Config.mTargetPos other
              else Config.mTargetPos c)
        /\ Config.mTargetRot r
           = (if Config.hasTargetRot other then quat_normalize (Config.mTargetRot other)
              else Config.mTargetRot c)
        /\ Config.mChainLimit r = Config.mChainLimit c).
Proof.
  intros r. subst r. unfold Config_updateFrom.
  destruct (Z.eqb_spec (Config.mFlags c) (Config.mFlags other)) as [He|Hne].
  - split; [|split; [reflexivity | contradiction]].
    rewrite He. apply Z.bits_inj'. intros n Hn.
    rewrite Z.lor_spec, Z.land_spec. destruct (Z.testbit (Config.mFlags other) n); reflexivity.
  - split; [|split; [contradiction|]].
    + rewrite <- updateFrom_flags.
      unfold Config.hasLocalPos, Config.hasLocalRot, Config.hasLocalScale,
        Config.constraintIsDisabled, Config.hasTargetPos, Config.hasTargetRot.
      destruct (has_flag (Config.mFlags other) CONFIG_FLAG_LOCAL_POS),
               (has_flag (Config.mFlags other) CONFIG_FLAG_LOCAL_ROT),
               (has_flag (Config.mFlags other) CONFIG_FLAG_TARGET_POS),
               (has_flag (Config.mFlags other) CONFIG_FLAG_TARGET_ROT),
               (has_flag (Config.mFlags other) CONFIG_FLAG_LOCAL_SCALE),
               (has_flag (Config.mFlags other) CONFIG_FLAG_DISABLE_CONSTRAINT);
        reflexivity.
    + intros _.
      destruct (Config.hasLocalPos other), (Config.hasLocalRot other),
               (Config.hasTargetPos other), (Config.hasTargetRot other),
               (Config.hasLocalScale other), (Config.constraintIsDisabled other);
        repeat split.
Qed.
End ConfigProps.

(** ** Angle helpers *)

(** X3: the limits that compute_angle_limits returns are ordered: the first is
    never greater than the second. *)
Theorem compute_angle_limits_ordered (min_angle max_angle lo hi : F32) :
  compute_angle_limits min_angle max_angle = Some (lo, hi) -> F32.gtb lo hi = false.
Proof.
  unfold compute_angle_limits. intros H.
  destruct (remove_multiples_of_two_pi max_angle) as [x|]; [|discriminate]. simpl in H.
  destruct (remove_multiples_of_two_pi min_angle) as [y|]; [|discriminate]. simpl in H.
  set (x' := if F32.gtb x F_PI then F32.sub x F_TWO_PI else x) in H.
  set (y' := if F32.gtb y F_PI then F32.sub y F_TWO_PI else y) in H.
  destruct (F32.gtb y' x') eqn:Hgt; injection H as <- <-; [|exact Hgt].
  unfold F32.gtb, SFltb in *.
  destruct (SFcompare x' y') as [c|] eqn:Hc; [|discriminate].
  rewrite (SFcompare_antisym _ _ _ Hc). destruct c; simpl; congruence.
Qed.

Lemma compute_angle_limits_ordered_witness :
  compute_angle_limits (F32.of_Z 2) (F32.of_Z 1) = Some (F32.of_Z 1, F32.of_Z 2)
  /\ F32.gtb (F32.of_Z 1) (F32.of_Z 2) = false.
Proof.
  split; [vm_compute; reflexivity|].
  apply (compute_angle_limits_ordered (F32.of_Z 2) (F32.of_Z 1)). vm_compute. reflexivity.
Defined.

Section RelaxProps.
Context {K : MathKernel} {P : Projection}.

Lemma clamp01_idem (x : F32) : clamp01 (clamp01 x) = clamp01 x.
Proof.
  unfold clamp01.
  destruct (F32.ltb x F32.zero) eqn:H0.
  - vm_compute. reflexivity.
  - destruct (F32.ltb F32.one x) eqn:H1.
    + vm_compute. reflexivity.
    + rewrite H0, H1. reflexivity.
Qed.

(** X4: relaxRotationsRecursively clamps its blend factor to [0, 1]: the
    clamped factor is neither below 0 nor above 1, a factor below 0 is 0, a
    factor above 1 is 1, and the relaxation with a factor is the relaxation
    with the clamped factor. *)
Theorem relaxRotationsRecursively_clamped (depth : nat) (blend_factor : F32)
    (this : Z) (h : Heap) :
  F32.ltb (clamp01 blend_factor) F32.zero = false
  /\ F32.gtb (clamp01 blend_factor) F32.one = false
  /\ (F32.ltb blend_factor F32.zero = true -> clamp01 blend_factor = F32.zero)
  /\ (F32.gtb blend_factor F32.one = true -> clamp01 blend_factor = F32.one)
  /\ relaxRotationsRecursively depth blend_factor this h
     = relaxRotationsRecursively depth (clamp01 blend_factor) this h.
Proof.
  split; [|split; [|split; [|split]]].
  - unfold clamp01. destruct (F32.ltb blend_factor F32.zero) eqn:H0.
    + vm_compute. reflexivity.
    + destruct (F32.ltb F32.one blend_factor); [vm_compute; reflexivity | exact H0].
  - unfold clamp01, F32.gtb. destruct (F32.ltb blend_factor F32.zero) eqn:H0.
    + vm_compute. reflexivity.
    + change SFltb with F32.ltb.
      destruct (F32.ltb F32.one blend_factor) eqn:H1; [vm_compute; reflexivity | exact H1].
  - unfold clamp01. intros ->. vm_compute. reflexivity.
  - unfold clamp01, F32.gtb. change SFltb with F32.ltb. intros H1.
    destruct (F32.ltb blend_factor F32.zero) eqn:H0; [|rewrite H1; reflexivity].
    exfalso. revert H0 H1. unfold F32.ltb, SFltb.
    destruct (SFcompare F32.one blend_factor) as [c1|] eqn:Hc1; [|discriminate].
    destruct c1; try discriminate. intros H0 _.
    destruct blend_factor as [s|s| |s m e]; try discriminate; destruct s; try discriminate.
  - destruct depth as [|depth]; [reflexivity|]. simpl. rewrite clamp01_idem. reflexivity.
Qed.
End RelaxProps.

(** ** Locking the local rot *)

Lemma lockLocalRot_flags (q : LLQuaternion) (j : Joint.t) :
  Joint.localRotLocked (Joint.lockLocalRot q j) = true
  /\ Joint.isActive (Joint.lockLocalRot q j) = true
  /\ Joint.mLocalRot (Joint.lockLocalRot q j) = q.
Proof.
  unfold Joint.lockLocalRot, Joint.activate, Joint.localRotLocked, Joint.isActive.
  cbn [Joint.mParent Joint.set_mLocalRot Joint.set_mIkFlags Joint.mIkFlags].
  destruct (Joint.mParent j);
    cbn [Joint.mIkFlags Joint.set_mRot Joint.set_mIkFlags Joint.mLocalRot];
    unfold IK_FLAG_LOCAL_ROT_LOCKED, IK_FLAG_ACTIVE;
    rewrite has_flag_lor, has_flag_lor, land_bit, Z.lor_spec by lia;
    cbn [Z.testbit Z.shiftl Pos.testbit Z.of_N]; simpl;
    rewrite !orb_true_r; repeat split.
Qed.

(** X5: lockLocalRot(q) stores q as local rot (on a joint without parent also
    as world rot), locks and activates the joint, and a later setLocalRot
    leaves the joint as it is; resetFlags unlocks a joint with a parent and
    keeps a joint without parent locked, and deactivates both. *)
Theorem lockLocalRot_setLocalRot (q q' : LLQuaternion) (j : Joint.t) :
  let locked := Joint.lockLocalRot q j in
  Joint.localRotLocked locked = true
  /\ Joint.isActive locked = true
  /\ Joint.mLocalRot locked = q
  /\ (Joint.mParent j = None -> Joint.mRot locked = q)
  /\ Joint.setLocalRot q' locked = locked
  /\ Joint.localRotLocked (Joint.resetFlags locked)
     = match Joint.mParent j with Some _ => false | None => true end
  /\ Joint.isActive (Joint.resetFlags locked) = false.
Proof.
  intros locked. subst locked.
  destruct (lockLocalRot_flags q j) as (Hlock & Hact & Hrot).
  split; [exact Hlock|]. split; [exact Hact|]. split; [exact Hrot|].
  split. { unfold Joint.lockLocalRot. cbn [Joint.mParent Joint.activate Joint.set_mIkFlags
             Joint.set_mLocalRot]. intros ->. reflexivity. }
  split. { unfold Joint.setLocalRot. rewrite Hlock. reflexivity. }
  destruct j as [children lpos pos lrot rot lscale bone [parent|] cons len id info cfg cf ikf];
    split; reflexivity.
Qed.

(** ** The constraint factory *)

(* equations of sets of ids built with singletons and unions *)
Ltac dom_solve :=
  apply set_eq; intros ?; rewrite ?elem_of_union, ?elem_of_singleton;
  intuition (subst; auto).

Section FactoryProps.
Context {K : MathKernel}.
Context {LLSD : Type} (create : LLSD -> option Constraint.t).

Lemma getConstraint_subseteq (constraint_def : LLSD) (cache : constraint_cache_t) :
  cache ⊆ (getConstraint create constraint_def cache).1.
Proof.
  unfold getConstraint. destruct (create constraint_def) as [ptr|]; [|reflexivity].
  destruct (cache !! Constraint.generateHash ptr) eqn:Hc; [reflexivity|].
  apply insert_subseteq. exact Hc.
Qed.

Lemma getConstraint_cases (constraint_def : LLSD) (cache : constraint_cache_t) :
  let r := getConstraint create constraint_def cache in
  (create constraint_def = None -> r = (cache, None))
  /\ (forall ptr, create constraint_def = Some ptr ->
        r.1 !! Constraint.generateHash ptr = r.2).
Proof.
  intros r. subst r. unfold getConstraint, constraint_cache_t in *.
  destruct (create constraint_def) as [ptr|]; [|split; [reflexivity|discriminate]].
  split; [discriminate|]. intros ? [= <-].
  destruct (cache !! Constraint.generateHash ptr) as [cached|] eqn:Hc; cbn [fst snd];
    [exact Hc | apply lookup_insert_eq].
Qed.

(** X6: getConstraint never removes or replaces an entry of the cache and adds
    at most one; a definition that create rejects leaves the cache as it is
    and yields null; otherwise the instance returned is the one filed under
    the hash of the created constraint: the created one if the hash was free,
    the cached one if not; and asking again for the same definition returns
    the same instance and the same cache. *)
Theorem getConstraint_cache (constraint_def : LLSD) (cache : constraint_cache_t) :
  let r := getConstraint create constraint_def cache in
  cache ⊆ r.1
  /\ (size r.1 <= S (size cache))%nat
  /\ (create constraint_def = None -> r = (cache, None))
  /\ (forall ptr, create constraint_def = Some ptr ->
        r.1 !! Constraint.generateHash ptr = r.2
        /\ (cache !! Constraint.generateHash ptr = None ->
              r = (<[Constraint.generateHash ptr := ptr]> cache, Some ptr))
        /\ (forall cached, cache !! Constraint.generateHash ptr = Some cached ->
              r = (cache, Some cached)))
  /\ getConstraint create constraint_def r.1 = r.
Proof.
  intros r. subst r. split; [apply getConstraint_subseteq|].
  unfold getConstraint, constraint_cache_t in *.
  destruct (create constraint_def) as [ptr|] eqn:Hcreate.
  - destruct (cache !! Constraint.generateHash ptr) as [cached|] eqn:Hc; cbn [fst snd].
    + split; [lia|]. split; [discriminate|]. split.
      * intros ? [= <-]. split; [exact Hc|]. split; [congruence|].
        intros ? Hc'. rewrite Hc in Hc'. injection Hc' as <-. reflexivity.
      * rewrite Hc. reflexivity.
    + split; [rewrite map_size_insert_None by exact Hc; lia|].
      split; [discriminate|]. split.
      * intros ? [= <-]. split; [apply lookup_insert_eq|]. split; [reflexivity|].
        intros ? Hc'. rewrite Hc in Hc'. discriminate.
      * rewrite lookup_insert_eq. reflexivity.
  - cbn [fst snd]. split; [lia|]. split; [reflexivity|]. split; [discriminate|]. reflexivity.
Qed.

(** X7: when every entry of the cache is filed under its own hash,
    getConstraint keeps it so, and the instance it returns has the hash of
    the constraint that create made of the definition. *)
Theorem getConstraint_keyed (constraint_def : LLSD) (cache : constraint_cache_t) :
  cache_keyed cache ->
  cache_keyed (getConstraint create constraint_def cache).1
  /\ forall ptr c, create constraint_def = Some ptr ->
       (getConstraint create constraint_def cache).2 = Some c ->
       Constraint.generateHash c = Constraint.generateHash ptr.
Proof.
  intros Hkeyed. unfold getConstraint, cache_keyed, constraint_cache_t in *.
  destruct (create constraint_def) as [ptr|]; [|split; [exact Hkeyed|discriminate]].
  destruct (cache !! Constraint.generateHash ptr) as [cached|] eqn:Hc; cbn [fst snd].
  - split; [exact Hkeyed|]. intros ? c [= <-] [= <-]. apply Hkeyed. exact Hc.
  - split.
    + intros id c Hid. destruct (decide (id = Constraint.generateHash ptr)) as [->|Hne].
      * rewrite lookup_insert_eq in Hid. injection Hid as <-. reflexivity.
      * rewrite lookup_insert_ne in Hid by congruence. apply Hkeyed. exact Hid.
    + intros ? c [= <-] [= <-]. reflexivity.
Qed.

Context {Name : Type} `{Countable Name}.

Lemma processConstraintMapping_spec (f : Factory (Name := Name)) (entry : Name * LLSD) :
  let f' := processConstraintMapping create f entry in
  mConstraints f ⊆ mConstraints f'
  /\ (forall name c, mJointMapping f !! name = Some c -> mJointMapping f' !! name = Some c)
  /\ (forall name c, mJointMapping f' !! name = Some c ->
        mJointMapping f !! name = Some c
        \/ (name = entry.1 /\ exists id, mConstraints f' !! id = Some c))
  /\ (forall name, name <> entry.1 -> mJointMapping f' !! name = mJointMapping f !! name).
Proof.
  destruct entry as [joint_name constr_def].
  unfold processConstraintMapping, constraint_cache_t in *.
  pose proof (getConstraint_subseteq constr_def (mConstraints f)) as Hsub.
  destruct (getConstraint_cases constr_def (mConstraints f)) as (Hnone & Hsome).
  destruct (getConstraint create constr_def (mConstraints f)) as [cache constraint] eqn:Hget.
  cbn [fst snd] in *.
  destruct constraint as [c|]; cbn [mConstraints mJointMapping];
    [|split; [exact Hsub|]; split; [auto|]; split; [auto|reflexivity]].
  destruct (mJointMapping f !! joint_name) as [old|] eqn:Hold;
    [split; [exact Hsub|]; split; [auto|]; split; [auto|reflexivity]|].
  split; [exact Hsub|]. split; [|split].
  - intros name c' Hname. rewrite lookup_insert_ne; [exact Hname | congruence].
  - intros name c' Hname. destruct (decide (name = joint_name)) as [->|Hne].
    + rewrite lookup_insert_eq in Hname. injection Hname as <-. right. split; [reflexivity|].
      destruct (create constr_def) as [ptr|] eqn:Hcreate.
      * pose proof (Hsome ptr eq_refl) as Hfiled. eauto.
      * specialize (Hnone eq_refl). discriminate.
    + rewrite lookup_insert_ne in Hname by congruence. left. exact Hname.
  - intros name Hne. apply lookup_insert_ne. congruence.
Qed.

(** X8: processConstraintMappings never replaces the constraint of a name that
    is already mapped and never removes or replaces an entry of the cache;
    the constraint of a name it maps is an instance of the cache; a name that
    has no entry in the mappings keeps what getConstraintByName returned for
    it before, null for an unknown name. *)
Theorem processConstraintMappings_spec (mappings : list (Name * LLSD))
    (f : Factory (Name := Name)) :
  let f' := processConstraintMappings create mappings f in
  mConstraints f ⊆ mConstraints f'
  /\ (forall name c, getConstraintByName name f = Some c ->
        getConstraintByName name f' = Some c)
  /\ (forall name c, getConstraintByName name f' = Some c ->
        getConstraintByName name f = Some c
        \/ (name ∈ mappings.*1 /\ exists id, mConstraints f' !! id = Some c))
  /\ (forall name, name ∉ mappings.*1 ->
        getConstraintByName name f' = getConstraintByName name f).
Proof.
  unfold processConstraintMappings, getConstraintByName. revert f.
  induction mappings as [|entry mappings IH]; intros f; cbn [fold_left].
  - split; [reflexivity|]. split; [auto|]. split; [auto|reflexivity].
  - destruct (processConstraintMapping_spec f entry) as (Hsub & Hkeep & Hnew & Hother).
    destruct (IH (processConstraintMapping create f entry))
      as (Hsub' & Hkeep' & Hnew' & Hother').
    split; [etrans; eassumption|]. split; [auto|]. split.
    + intros name c Hname. destruct (Hnew' name c Hname) as [Hmid|[Hin Hc]].
      * destruct (Hnew name c Hmid) as [Hold|[-> [id Hid]]]; [left; exact Hold|].
        right. split; [rewrite fmap_cons; left|].
        exists id. eapply lookup_weaken; eassumption.
      * right. split; [rewrite fmap_cons; right; exact Hin | exact Hc].
    + intros name Hname. rewrite fmap_cons in Hname. apply not_elem_of_cons in Hname as [Hne Hnin].
      rewrite Hother' by exact Hnin. apply Hother. exact Hne.
Qed.
End FactoryProps.

(* at the cache that holds the cone of left extent one: the cone of left
   extent two finds it (a hit), the needle is added next to it (a miss) *)
Lemma getConstraint_keyed_witness :
  let hit :=
    getConstraint (K := ExampleCache.kernel) ExampleCache.create (Some (F32.of_Z 2))
      ExampleCache.one_cone in
  let miss :=
    getConstraint (K := ExampleCache.kernel) ExampleCache.create None
      ExampleCache.one_cone in
  ExampleCache.one_cone !! 1%N = Some (Example9.cone F32.one)
  /\ cache_keyed (K := ExampleCache.kernel) ExampleCache.one_cone
  /\ (cache_keyed (K := ExampleCache.kernel) hit.1
      /\ hit = (ExampleCache.one_cone, Some (Example9.cone F32.one))
      /\ Constraint.generateHash (K := ExampleCache.kernel) (Example9.cone F32.one)
         = Constraint.generateHash (K := ExampleCache.kernel) (Example9.cone (F32.of_Z 2)))
  /\ (cache_keyed (K := ExampleCache.kernel) miss.1
      /\ miss.1 !! 1%N = Some (Example9.cone F32.one)
      /\ miss.1 !! 0%N = Some Example6.needle
      /\ miss.2 = Some Example6.needle
      /\ Constraint.generateHash (K := ExampleCache.kernel) Example6.needle = 0%N).
Proof.
  assert (Hkeyed : cache_keyed (K := ExampleCache.kernel) ExampleCache.one_cone).
  { apply (getConstraint_keyed (K := ExampleCache.kernel) ExampleCache.create
             (Some F32.one) ∅).
    intros id c Hid. unfold constraint_cache_t in Hid. rewrite lookup_empty in Hid.
    discriminate Hid. }
  cbv zeta. split; [vm_compute; reflexivity|]. split; [exact Hkeyed|]. split.
  - destruct (getConstraint_keyed (K := ExampleCache.kernel) ExampleCache.create
                (Some (F32.of_Z 2)) ExampleCache.one_cone Hkeyed) as [Hk Hhash].
    split; [exact Hk|]. split; [vm_compute; reflexivity|].
    apply (Hhash (Example9.cone (F32.of_Z 2)) (Example9.cone F32.one));
      vm_compute; reflexivity.
  - destruct (getConstraint_keyed (K := ExampleCache.kernel) ExampleCache.create
                None ExampleCache.one_cone Hkeyed) as [Hk Hhash].
    split; [exact Hk|]. split; [vm_compute; reflexivity|].
    split; [vm_compute; reflexivity|]. split; [vm_compute; reflexivity|].
    symmetry. apply (Hhash Example6.needle Example6.needle); vm_compute; reflexivity.
Defined.

(** ** addJoint *)

Section AddJoint.
Context {K : MathKernel} {P : Projection}.

(** X9: addJoint always returns; it leaves the solver as it is when the id is
    negative or already in the skeleton, or when the parent is unknown and
    parent_id is not below the root id; otherwise it adds exactly the joint
    joint_id: with its constraint, without children, with the identity as
    local rot, linked to the parent and appended to the parent's children
    when the parent is known, and without parent and with a locked local rot
    when not; every other joint is left as it is. *)
Theorem addJoint_spec (joint_id parent_id : Z) (joint_info : JointInfo)
    (constraint : option Constraint.t) (s : Solver.t) :
  let known := bool_decide (is_Some (mSkeleton s !! parent_id)) in
  let rejected :=
    (joint_id <? 0) || bool_decide (is_Some (mSkeleton s !! joint_id))
    || (negb known && (mRootID s <=? parent_id)) in
  exists s',
    addJoint joint_id parent_id joint_info constraint s = Some s'
    /\ (rejected = true -> s' = s)
    /\ (rejected = false ->
          dom (mSkeleton s') = {[joint_id]} ∪ dom (mSkeleton s)
          /\ (exists j,
                mSkeleton s' !! joint_id = Some j
                /\ Joint.mParent j = (if known then Some parent_id else None)
                /\ Joint.localRotLocked j = negb known
                /\ Joint.mConstraint j = constraint
                /\ Joint.mChildren j = []
                /\ Joint.mLocalRot j = LLQuaternion_DEFAULT
                /\ Joint.mID j = info_getJointNum joint_info)
          /\ (forall p, mSkeleton s !! parent_id = Some p ->
                mSkeleton s' !! parent_id = Some (Joint.addChild joint_id p))
          /\ (forall q, q <> joint_id -> q <> parent_id ->
                mSkeleton s' !! q = mSkeleton s !! q)
          /\ mJointConfigs s' = mJointConfigs s /\ mRootID s' = mRootID s).
Proof.
  intros known rejected. subst known rejected. unfold addJoint.
  destruct (joint_id <? 0) eqn:Hneg; [exists s; repeat split; discriminate|].
  destruct (mSkeleton s !! joint_id) as [old|] eqn:Hold.
  { exists s. split; [reflexivity|]. split; [reflexivity|].
    rewrite bool_decide_eq_true_2 by eauto. discriminate. }
  rewrite (bool_decide_eq_false_2 (is_Some None)) by (intros [? ?]; discriminate).
  cbn [orb].
  destruct (mSkeleton s !! parent_id) as [p|] eqn:Hp.
  - rewrite bool_decide_eq_true_2 by eauto. cbn [negb andb].
    assert (Hne : parent_id <> joint_id) by congruence.
    unfold setParent, reset, write. rewrite lookup_insert_eq. cbn [mbind option_bind].
    rewrite lookup_insert_eq. cbn [mbind option_bind].
    cbn [Joint.mParent Joint.set_mParent Joint.resetFromInfo Joint.set_mLocalRot
         Joint.set_mLocalScale Joint.set_mLocalPosLength Joint.set_mBone
         Joint.set_mLocalPos Joint.new].
    rewrite lookup_insert_ne, lookup_insert_ne, Hp by congruence. cbn [mbind option_bind].
    rewrite lookup_insert_ne, lookup_insert_ne, lookup_insert_ne, Hp by congruence.
    cbn [mbind option_bind].
    rewrite lookup_insert_ne, lookup_insert_eq by congruence. cbn [mbind option_bind].
    eexists. split; [reflexivity|]. split; [discriminate|]. intros _.
    cbn [mSkeleton set_mSkeleton mJointConfigs mRootID].
    split.
    { rewrite !dom_insert_L. apply elem_of_dom_2 in Hp. dom_solve. }
    split.
    { eexists. split; [apply lookup_insert_eq|]. repeat split. }
    split.
    { intros p' [= <-]. rewrite lookup_insert_ne, lookup_insert_eq by congruence.
      reflexivity. }
    split; [|split; reflexivity].
    intros q Hq1 Hq2. rewrite !lookup_insert_ne by congruence. reflexivity.
  - rewrite (bool_decide_eq_false_2 (is_Some None)) by (intros [? ?]; discriminate).
    cbn [negb andb]. rewrite Z.geb_leb.
    destruct (mRootID s <=? parent_id) eqn:Hroot;
      [exists s; repeat split; discriminate|].
    unfold setParent, reset, write. rewrite lookup_insert_eq. cbn [mbind option_bind].
    rewrite lookup_insert_eq. cbn [mbind option_bind].
    cbn [Joint.mParent Joint.set_mParent Joint.resetFromInfo Joint.set_mLocalRot
         Joint.set_mLocalScale Joint.set_mLocalPosLength Joint.set_mBone
         Joint.set_mLocalPos Joint.new Joint.set_mIkFlags].
    cbn [mbind option_bind]. rewrite lookup_insert_eq. cbn [mbind option_bind].
    eexists. split; [reflexivity|]. split; [discriminate|]. intros _.
    cbn [mSkeleton set_mSkeleton mJointConfigs mRootID].
    split.
    { rewrite !dom_insert_L. dom_solve. }
    split.
    { eexists. split; [apply lookup_insert_eq|]. repeat split. }
    split; [intros p' Hp'; discriminate Hp'|].
    split; [|split; reflexivity].
    intros q Hq1 Hq2. rewrite !lookup_insert_ne by congruence. reflexivity.
Qed.
End AddJoint.

(** ** buildChain *)

Section BuildChainBound.
Context {K : MathKernel} {P : Projection}.

Lemma buildChain_walk_bound (s : Solver.t) (fuel : nat) :
  forall (joint : option Z) (chain : list Z) (sub_bases : gset Z) (h h' : Heap)
         (chain' : list Z) (sub_bases' : gset Z),
    buildChain_walk s fuel joint chain sub_bases h = Some (h', chain', sub_bases') ->
    (exists visited, chain' = chain ++ visited /\ (length visited <= fuel)%nat)
    /\ sub_bases ⊆ sub_bases'
    /\ (size sub_bases' <= S (size sub_bases))%nat
    /\ dom h' = dom h.
Proof.
  induction fuel as [|fuel IH]; intros joint chain sub_bases h h' chain' sub_bases' H.
  - destruct joint; simpl in H; injection H as <- <- <-;
      (split; [exists []; rewrite app_nil_r; split; [reflexivity|simpl; lia]|]);
      (split; [reflexivity|]); (split; [lia|reflexivity]).
  - destruct joint as [p|]; simpl in H.
    2: { injection H as <- <- <-.
         split; [exists []; rewrite app_nil_r; split; [reflexivity|simpl; lia]|].
         split; [reflexivity|]. split; [lia|reflexivity]. }
    destruct (h !! p) as [j|] eqn:Hj; [|discriminate]. cbn [mbind option_bind] in H.
    assert (Hdom : dom (write p (Joint.activate j) h) = dom h).
    { unfold write. rewrite dom_insert_L. apply elem_of_dom_2 in Hj. dom_solve. }
    assert (Hstop : forall sb, sub_bases ⊆ sb -> (size sb <= S (size sub_bases))%nat ->
              Some (write p (Joint.activate j) h, chain ++ [p], sb)
              = Some (h', chain', sub_bases') ->
              (exists visited, chain' = chain ++ visited /\ (length visited <= S fuel)%nat)
              /\ sub_bases ⊆ sub_bases'
              /\ (size sub_bases' <= S (size sub_bases))%nat
              /\ dom h' = dom h).
    { intros sb Hsub Hsize [= <- <- <-].
      split; [exists [p]; split; [reflexivity|simpl; lia]|].
      split; [exact Hsub|]. split; [exact Hsize | exact Hdom]. }
    destruct (isSubRoot s (Joint.getID j)); [apply (Hstop sub_bases); [reflexivity|lia|exact H]|].
    destruct (Joint.getID j =? mRootID s); [apply (Hstop sub_bases); [reflexivity|lia|exact H]|].
    destruct (Joint.hasPosTarget j); [apply (Hstop sub_bases); [reflexivity|lia|exact H]|].
    destruct (_ || _).
    + apply (Hstop ({[Joint.getID j]} ∪ sub_bases)); [apply union_subseteq_r| |exact H].
      rewrite size_union_alt, size_singleton.
      pose proof (subseteq_size (sub_bases ∖ {[Joint.getID j]}) sub_bases
                    (subseteq_difference_l _ _ _ (reflexivity _))). lia.
    + destruct (IH _ _ _ _ _ _ _ H) as ((visited & -> & Hlen) & Hsub & Hsize & Hdom').
      split; [exists (p :: visited); rewrite <- app_assoc; split; [reflexivity|simpl; lia]|].
      split; [exact Hsub|]. split; [exact Hsize|]. rewrite Hdom'. exact Hdom.
Qed.

Lemma buildChain_head (s : Solver.t) (joint : Z) (sub_bases : gset Z)
    (chain_length : Z) (h h' : Heap) (chain : list Z) (sub_bases' : gset Z) :
  buildChain s joint [] sub_bases chain_length h = Some (h', chain, sub_bases') ->
  head chain = Some joint.
Proof.
  unfold buildChain. intros H.
  destruct (h !! joint) as [j|] eqn:Hj; [|discriminate]. cbn [mbind option_bind] in H.
  destruct (buildChain_walk_bound _ _ _ _ _ _ _ _ _ H) as ((visited & -> & _) & _).
  reflexivity.
Qed.

(** X10: a chain that buildChain builds from an empty vector starts with the
    seed joint and has at most chain_length joints (the seed is added even
    for a limit of 0); the set of sub-bases only grows, by at most one id;
    and no joint is added to or removed from the skeleton. *)
Theorem buildChain_bounded (s : Solver.t) (joint : Z) (sub_bases : gset Z)
    (chain_length : Z) (h h' : Heap) (chain : list Z) (sub_bases' : gset Z) :
  buildChain s joint [] sub_bases chain_length h = Some (h', chain, sub_bases') ->
  head chain = Some joint
  /\ (length chain <= Z.to_nat (Z.max chain_length 1))%nat
  /\ sub_bases ⊆ sub_bases'
  /\ (size sub_bases' <= S (size sub_bases))%nat
  /\ dom h' = dom h.
Proof.
  unfold buildChain. intros H.
  destruct (h !! joint) as [j|] eqn:Hj; [|discriminate]. cbn [mbind option_bind] in H.
  destruct (buildChain_walk_bound _ _ _ _ _ _ _ _ _ H)
    as ((visited & -> & Hlen) & Hsub & Hsize & Hdom).
  split; [reflexivity|]. split; [simpl in *; lia|]. split; [exact Hsub|].
  split; [exact Hsize|]. rewrite Hdom. unfold write. rewrite dom_insert_L.
  apply elem_of_dom_2 in Hj. dom_solve.
Qed.
End BuildChainBound.

Lemma buildChain_bounded_witness :
  exists h' sub_bases',
    buildChain Example.fork 2 [] ∅ 2 (mSkeleton Example.fork)
    = Some (h', [2; 1], sub_bases')
    /\ (length [2; 1] <= Z.to_nat (Z.max 2 1))%nat
    /\ dom h' = dom (mSkeleton Example.fork).
Proof.
  assert (Hrun : exists h' sub_bases',
                   buildChain Example.fork 2 [] ∅ 2
                     (mSkeleton Example.fork)
                   = Some (h', [2; 1], sub_bases')).
  { vm_compute. eexists _, _. reflexivity. }
  destruct Hrun as (h' & sub_bases' & Hrun).
  exists h', sub_bases'. split; [exact Hrun|].
  destruct (buildChain_bounded Example.fork 2 ∅ 2 (mSkeleton Example.fork) h' [2; 1]
              sub_bases' Hrun) as (_ & Hlen & _ & _ & Hdom).
  split; [exact Hlen | exact Hdom].
Defined.

(** ** The chains of rebuildAllChains *)

Section ChainsKeyed.
Context {K : MathKernel} {P : Projection}.

Lemma addChain_keyed (s : Solver.t) (joint_id : Z) (chain_length : Z) (b b' : Build) :
  chains_keyed (b_chains b) ->
  addChain s joint_id joint_id chain_length b = Some b' ->
  chains_keyed (b_chains b').
Proof.
  unfold addChain. intros Hkeyed H.
  destruct (buildChain s joint_id [] (b_sub_bases b) chain_length (b_heap b))
    as [[[h chain] sub_bases]|] eqn:Hbuild; [|discriminate].
  cbn [mbind option_bind] in H. injection H as <-. cbn [b_chains].
  pose proof (buildChain_head _ _ _ _ _ _ _ _ Hbuild) as Hhead.
  intros id c Hid. destruct (decide (id = joint_id)) as [->|Hne].
  - rewrite lookup_insert_eq in Hid. injection Hid as <-. exact Hhead.
  - rewrite lookup_insert_ne in Hid by congruence. apply Hkeyed. exact Hid.
Qed.

Lemma applyConfig_keyed (s : Solver.t) (joint_id : Z) (b b' : Build) :
  chains_keyed (b_chains b) -> applyConfig s joint_id b = Some b' ->
  chains_keyed (b_chains b').
Proof.
  unfold applyConfig. intros Hkeyed H.
  destruct (b_configs b !! joint_id) as [config|]; [|discriminate].
  cbn [mbind option_bind] in H.
  destruct (b_heap b !! joint_id) as [joint|]; [|injection H as <-; exact Hkeyed].
  destruct (Joint.getID (Joint.setConfig joint_id config joint) =? mRootID s).
  { destruct (negb (Z.land _ MASK_ROT =? 0)); injection H as <-; exact Hkeyed. }
  set (b0 := mkBuild _ _ _ _ _) in H.
  assert (Hb0 : chains_keyed (b_chains b0)) by exact Hkeyed. clearbody b0.
  destruct (Config.hasDelegated config); [injection H as <-; exact Hb0|].
  match type of H with
  | (?m ≫= _) = _ => destruct m as [b1|] eqn:Hb1; [|discriminate]
  end.
  cbn [mbind option_bind] in H.
  assert (Hkeyed1 : chains_keyed (b_chains b1)).
  { destruct (Config.hasTargetPos config).
    - destruct (addChain s joint_id joint_id (Config.getChainLimit config) b0)
        as [b2|] eqn:Hadd; [|discriminate].
      pose proof (addChain_keyed _ _ _ _ _ Hb0 Hadd) as Hb2.
      cbn [mbind option_bind] in Hb1.
      destruct (b_heap b2 !! joint_id) as [j2|]; [|discriminate].
      cbn [mbind option_bind] in Hb1.
      destruct (Joint.mParent j2) as [pp|]; [|discriminate].
      cbn [mbind option_bind] in Hb1.
      destruct (b_heap b2 !! pp) as [parent|]; [|discriminate].
      cbn [mbind option_bind] in Hb1.
      destruct (Joint.hasPosTarget parent); [|injection Hb1 as <-; exact Hb2].
      destruct (deref_config (b_configs b2) parent) as [pc|]; [|discriminate].
      cbn [mbind option_bind] in Hb1.
      destruct (Joint_setTargetPos _ parent (b_configs b2)) as [cfgs|]; [|discriminate].
      cbn [mbind option_bind] in Hb1. injection Hb1 as <-. exact Hb2.
    - destruct (Config.hasTargetRot config).
      + eapply addChain_keyed; eassumption.
      + injection Hb1 as <-. exact Hb0. }
  match type of H with
  | (?m ≫= _) = _ => destruct m as [h1|]; [|discriminate]
  end.
  cbn [mbind option_bind] in H.
  match type of H with
  | (?m ≫= _) = _ => destruct m as [h2|]; [|discriminate]
  end.
  cbn [mbind option_bind] in H. injection H as <-. exact Hkeyed1.
Qed.

Lemma buildSubBaseChains_keyed (s : Solver.t) (rounds : nat) :
  forall b b', chains_keyed (b_chains b) -> buildSubBaseChains s rounds b = Some b' ->
               chains_keyed (b_chains b').
Proof.
  induction rounds as [|rounds IH]; intros b b' Hkeyed H; simpl in H.
  - destruct (bool_decide (b_sub_bases b = ∅)); [injection H as <-; exact Hkeyed|discriminate].
  - destruct (bool_decide (b_sub_bases b = ∅)); [injection H as <-; exact Hkeyed|].
    match type of H with
    | (?m ≫= _) = _ => destruct m as [b1|] eqn:Hb1; [|discriminate]
    end.
    cbn [mbind option_bind] in H. eapply IH; [|exact H].
    refine (foldM_invariant (fun b => chains_keyed (b_chains b)) _ _ _ _ _ _ Hb1);
      [|exact Hkeyed].
    intros b2 id b3 Hb2 Hstep.
    destruct (b_heap b2 !! id); [|discriminate]. cbn [mbind option_bind] in Hstep.
    eapply addChain_keyed; eassumption.
Qed.

Lemma findRecipient_elem (h : Heap) (id : Z) (items : list (Z * list Z))
    (k : Z) (recipient : list Z) :
  findRecipient h id items = Some (Some (k, recipient)) -> (k, recipient) ∈ items.
Proof.
  induction items as [|[k' r'] items IH]; simpl; [discriminate|].
  destruct (last r') as [p|]; [|discriminate]. cbn [mbind option_bind].
  destruct (h !! p) as [inner_end|]; [|discriminate]. cbn [mbind option_bind].
  destruct (Joint.getID inner_end =? id).
  - intros [= <- <-]. left.
  - intros Hrest. right. apply IH. exact Hrest.
Qed.

Lemma makeJoin_keyed (h : Heap) (chains chains' : gmap Z (list Z)) (id : Z) :
  chains_keyed chains -> makeJoin h chains id = Some chains' -> chains_keyed chains'.
Proof.
  unfold makeJoin. intros Hkeyed H.
  destruct (findRecipient h id (map_items chains)) as [[[k recipient]|]|] eqn:Hfind;
    [| injection H as <-; exact Hkeyed | discriminate].
  cbn [mbind option_bind] in H.
  apply findRecipient_elem, elem_of_map_items in Hfind.
  destruct (default [] (chains !! to_S16 id)) as [|d rest]; [discriminate|].
  injection H as <-. intros id' chain Hid'.
  apply lookup_delete_Some in Hid' as [Hne Hid'].
  destruct (decide (id' = k)) as [->|Hk].
  - rewrite lookup_insert_eq in Hid'. injection Hid' as <-.
    pose proof (Hkeyed _ _ Hfind) as Hhead.
    destruct recipient; [discriminate|exact Hhead].
  - rewrite lookup_insert_ne in Hid' by congruence. apply Hkeyed. exact Hid'.
Qed.

(** X11: every chain that rebuildAllChains leaves in the chain map is
    non-empty and is filed under the id of its first joint, the outer end
    that executeFabrikInward and executeFabrikOutward take from index 0. *)
Theorem rebuildAllChains_keyed (s s' : Solver.t) :
  rebuildAllChains s = Some s' -> chains_keyed (mChainMap s').
Proof.
  unfold rebuildAllChains. intros H.
  match type of H with
  | (?m ≫= _) = _ => destruct m as [h|]; [|discriminate]
  end.
  cbn [mbind option_bind] in H.
  match type of H with
  | (?m ≫= _) = _ => destruct m as [b|] eqn:Hb; [|discriminate]
  end.
  cbn [mbind option_bind] in H.
  assert (Hkeyed : chains_keyed (b_chains b)).
  { refine (foldM_invariant (fun b => chains_keyed (b_chains b)) _ _ _ _ _ _ Hb).
    - intros b1 a b2 Hb1 Hstep. eapply applyConfig_keyed; eassumption.
    - intros id chain Hid. cbn [b_chains] in Hid. rewrite lookup_empty in Hid. discriminate. }
  match type of H with
  | (?m ≫= _) = _ => destruct m as [b1|] eqn:Hb1; [|discriminate]
  end.
  cbn [mbind option_bind] in H.
  apply buildSubBaseChains_keyed in Hb1; [|exact Hkeyed].
  match type of H with
  | (?m ≫= _) = _ => destruct m as [joins|]; [|discriminate]
  end.
  cbn [mbind option_bind] in H.
  match type of H with
  | (?m ≫= _) = _ => destruct m as [chains|] eqn:Hchains; [|discriminate]
  end.
  cbn [mbind option_bind] in H.
  match type of H with
  | (?m ≫= _) = _ => destruct m as [roots|]; [|discriminate]
  end.
  cbn [mbind option_bind] in H. injection H as <-. cbn [mChainMap set_mActiveJoints
    set_mActiveRoots set_mChainMap].
  refine (foldM_invariant chains_keyed _ _ _ _ _ Hb1 Hchains).
  intros c1 id c2 Hc1 Hstep. eapply makeJoin_keyed; eassumption.
Qed.
End ChainsKeyed.

Lemma rebuildAllChains_keyed_witness :
  exists s',
    rebuildAllChains (K := Example.kernel) ExampleChains.targeted = Some s'
    /\ chains_keyed (mChainMap s').
Proof.
  assert (exists s', rebuildAllChains (K := Example.kernel)
                       ExampleChains.targeted = Some s') as (s' & Hrun)
    by (vm_compute; eexists; reflexivity).
  exists s'. split; [exact Hrun|].
  apply (rebuildAllChains_keyed (K := Example.kernel)
           ExampleChains.targeted s' Hrun).
Defined.

(** ** measureMaxError and the number of passes *)

Section NoTarget.
Context {K : MathKernel} {P : Projection}.

Lemma foldM_unchanged {A B : Type} (f : B -> A -> option B) (l : list A) (b : B) :
  (forall a, a ∈ l -> f b a = Some b) -> foldM f b l = Some b.
Proof.
  induction l as [|a l IH]; intros Hf; [reflexivity|]. simpl.
  rewrite Hf by left. cbn [mbind option_bind]. apply IH. intros a' Ha'. apply Hf. right.
  exact Ha'.
Qed.

Lemma measureMaxError_no_target (s : Solver.t) :
  no_measured_target s -> measureMaxError s = Some F32.zero.
Proof.
  intros Hno. unfold measureMaxError. apply foldM_unchanged.
  intros [id target] Hin. apply elem_of_map_items in Hin. cbn [fst snd].
  destruct (Hno id target Hin) as [->|[Hpos|Hdel]].
  - rewrite Z.eqb_refl. reflexivity.
  - rewrite Hpos. destruct (id =? mRootID s); reflexivity.
  - rewrite Hdel, andb_false_r. destruct (id =? mRootID s); reflexivity.
Qed.

Lemma solveOnce_no_target (s s' : Solver.t) (e : F32) :
  no_measured_target s -> solveOnce s = Some (s', e) ->
  e = F32.zero /\ no_measured_target s' /\ mAcceptableError s' = mAcceptableError s.
Proof.
  unfold solveOnce. intros Hno H.
  destruct (executeFabrikPass true s) as [h|]; [|discriminate].
  cbn [mbind option_bind] in H.
  rewrite (measureMaxError_no_target (set_mSkeleton h s)) in H by exact Hno.
  cbn [mbind option_bind] in H. injection H as <- <-.
  split; [reflexivity|]. split; [exact Hno | reflexivity].
Qed.

Lemma solveLoop_step (fuel : nat) (loop : Z) (max_error : F32) (s : Solver.t) :
  solveLoop (S fuel) loop max_error s
  = if (loop <? MIN_SOLVER_ITERATIONS)
       || ((loop <? MAX_SOLVER_ITERATIONS) && F32.gtb max_error (mAcceptableError s))
    then match solveOnce s with
         | None => (1%nat, None)
         | Some (s, max_error) =>
             let r := solveLoop fuel (loop + 1) max_error s in (S r.1, r.2)
         end
    else (O, Some (s, max_error)).
Proof. reflexivity. Qed.

(** X12: when no entry of the config map counts for measureMaxError (each is
    the root's, has no position target or is delegated) and 0 is not above
    the acceptable error, the loop of solve makes at most the 4 minimum
    passes, and when it returns it has made exactly 4 and the error is 0. *)
Theorem solveIterations_no_target (s : Solver.t) :
  no_measured_target s -> F32.gtb F32.zero (mAcceptableError s) = false ->
  measureMaxError s = Some F32.zero
  /\ ((solveIterations s).1 <= 4)%nat
  /\ forall s' err, (solveIterations s).2 = Some (s', err) ->
       (solveIterations s).1 = 4%nat /\ err = F32.zero /\ mLastError s' = F32.zero.
Proof.
  intros Hno Hacc. split; [apply measureMaxError_no_target; exact Hno|].
  unfold solveIterations. change (Z.to_nat MAX_SOLVER_ITERATIONS) with 16%nat.
  cbn [fst snd].
  rewrite solveLoop_step. change (0 <? MIN_SOLVER_ITERATIONS) with true. cbn [orb].
  destruct (solveOnce s) as [[s1 e1]|] eqn:H1; [|split; [simpl; lia|discriminate]].
  destruct (solveOnce_no_target _ _ _ Hno H1) as (-> & Hno1 & Hacc1).
  cbv zeta. rewrite solveLoop_step. change (0 + 1 <? MIN_SOLVER_ITERATIONS) with true.
  cbn [orb].
  destruct (solveOnce s1) as [[s2 e2]|] eqn:H2; [|split; [simpl; lia|discriminate]].
  destruct (solveOnce_no_target _ _ _ Hno1 H2) as (-> & Hno2 & Hacc2).
  cbv zeta. rewrite solveLoop_step. change (0 + 1 + 1 <? MIN_SOLVER_ITERATIONS) with true.
  cbn [orb].
  destruct (solveOnce s2) as [[s3 e3]|] eqn:H3; [|split; [simpl; lia|discriminate]].
  destruct (solveOnce_no_target _ _ _ Hno2 H3) as (-> & Hno3 & Hacc3).
  cbv zeta. rewrite solveLoop_step.
  change (0 + 1 + 1 + 1 <? MIN_SOLVER_ITERATIONS) with true. cbn [orb].
  destruct (solveOnce s3) as [[s4 e4]|] eqn:H4; [|split; [simpl; lia|discriminate]].
  destruct (solveOnce_no_target _ _ _ Hno3 H4) as (-> & Hno4 & Hacc4).
  cbv zeta. rewrite solveLoop_step.
  change (0 + 1 + 1 + 1 + 1 <? MIN_SOLVER_ITERATIONS) with false.
  rewrite Hacc4, Hacc3, Hacc2, Hacc1, Hacc, andb_false_r. cbn [orb fst snd].
  split; [lia|]. intros s' err [= <- <-]. repeat split.
Qed.
End NoTarget.

Lemma no_measured_target_b_correct (s : Solver.t) :
  no_measured_target_b s = true -> no_measured_target s.
Proof.
  unfold no_measured_target_b, no_measured_target. rewrite forallb_forall.
  intros Hall id target Hid. specialize (Hall (id, target)). cbn [fst snd] in Hall.
  assert (Hin : In (id, target) (map_to_list (mJointConfigs s))).
  { apply list_elem_of_In, elem_of_map_to_list. exact Hid. }
  apply Hall in Hin. apply orb_true_iff in Hin as [Hin|Hin];
    [apply orb_true_iff in Hin as [Hin|Hin]|].
  - left. apply Z.eqb_eq. exact Hin.
  - right. left. apply negb_true_iff. exact Hin.
  - right. right. exact Hin.
Qed.

(* at the fork with a position target for the root, a rotation target for
   joint 2, which gets the chain [2; 1; 0], and a delegated position target
   for joint 3: solve enters the loop, which makes its 4 passes and returns
   the error 0 *)
Lemma solveIterations_no_target_witness :
  let s := ExampleIdle.prepared in
  let r := solveIterations (K := Example.kernel) (P := Example6.projection) s in
  prepareSolve (K := Example.kernel) ExampleIdle.configured
  = Some s
  /\ map_items (mChainMap s) = [(2, [2; 1; 0])]
  /\ (fst <$> map_items (mJointConfigs s)) = [0; 2; 3]
  /\ measureMaxError (K := Example.kernel) s = Some F32.zero
  /\ r.1 = 4%nat
  /\ exists s', r.2 = Some (s', F32.zero) /\ mLastError s' = F32.zero.
Proof.
  cbv zeta.
  destruct (solveIterations_no_target (K := Example.kernel) (P := Example6.projection)
              ExampleIdle.prepared) as (Hmax & _ & Hret).
  - apply no_measured_target_b_correct. vm_compute. reflexivity.
  - vm_compute. reflexivity.
  - split; [vm_compute; reflexivity|]. split; [vm_compute; reflexivity|].
    split; [vm_compute; reflexivity|]. split; [exact Hmax|].
    assert (Hsome : exists s' err,
               (solveIterations (K := Example.kernel) (P := Example6.projection)
                  ExampleIdle.prepared).2 = Some (s', err))
      by (vm_compute; eexists; eexists; reflexivity).
    destruct Hsome as (s' & err & Hsome).
    destruct (Hret s' err Hsome) as (Hn & -> & Hlast).
    split; [exact Hn|]. exists s'. split; [exact Hsome|exact Hlast].
Defined.

(** ** The skeleton of the comment in rebuildAllChains *)

(* on the skeleton that the comment of rebuildAllChains draws, with the
   targets [5,11,15,18,20], rebuildAllChains builds the condensed chains of
   the comment, { 2:[2,1,0] } and the five chains of the targets with
   15:[15,14,7,6,2] joined; all joints are active except [8,12,13]; the one
   active root is 0 *)
Example rebuildAllChains_documented_example
    (getAngleAxis : LLQuaternion -> F32 * LLVector3)
    (setAngleAxis : F32 -> LLVector3 -> LLQuaternion)
    (hash_combine : N -> HashArg -> N) (P : Projection) :
  let K := Reference.kernel getAngleAxis setAngleAxis hash_combine in
  (s ← rebuildAllChains ExampleChains.targeted;
   Some (map_items (mChainMap s), mActiveJoints s, set_items (mActiveRoots s)))
  = Some ([(2, [2; 1; 0]); (5, [5; 4; 3; 2]); (11, [11; 10; 9; 5]);
           (15, [15; 14; 7; 6; 2]); (18, [18; 17; 16; 5]); (20, [20; 19; 2])],
          [0; 1; 2; 3; 4; 5; 6; 7; 9; 10; 11; 14; 15; 16; 17; 18; 19; 20],
          [0]).
Proof. vm_compute. reflexivity. Qed.

(** ** What the solver never writes *)

Lemma same_shape_refl (h : Heap) : same_shape h h.
Proof. intros p. reflexivity. Qed.

Lemma same_shape_trans (h1 h2 h3 : Heap) :
  same_shape h1 h2 -> same_shape h2 h3 -> same_shape h1 h3.
Proof. intros H12 H23 p. rewrite H23. apply H12. Qed.

Lemma same_shape_insert (h0 h : Heap) (p : Z) (j j' : Joint.t) :
  same_shape h0 h -> h !! p = Some j -> Joint_shape j' = Joint_shape j ->
  same_shape h0 (<[p := j']> h).
Proof.
  intros H0 Hj Hshape q. destruct (decide (q = p)) as [->|Hne].
  - rewrite lookup_insert_eq, <- H0, Hj. simpl. rewrite Hshape. reflexivity.
  - rewrite lookup_insert_ne by congruence. apply H0.
Qed.

Lemma same_shape_dom (h h' : Heap) : same_shape h h' -> dom h' = dom h.
Proof.
  intros Hs. apply set_eq. intros p. rewrite !elem_of_dom, <- !(fmap_is_Some Joint_shape).
  rewrite Hs. reflexivity.
Qed.

Lemma foldM_same_shape {A : Type} (f : Heap -> A -> option Heap) (l : list A) :
  (forall h a h', f h a = Some h' -> same_shape h h') ->
  forall h h', foldM f h l = Some h' -> same_shape h h'.
Proof.
  intros Hf. induction l as [|a l IH]; intros h h' H; simpl in H.
  - injection H as <-. apply same_shape_refl.
  - destruct (f h a) as [h1|] eqn:H1; [|discriminate]. cbn [mbind option_bind] in H.
    eapply same_shape_trans; [eapply Hf; exact H1 | apply IH; exact H].
Qed.

(* the case analysis of a monadic definition that returned a result *)
Ltac open_result H :=
  repeat first
    [ progress cbn [mbind option_bind fmap option_fmap option_map fst snd] in H
    | match type of H with
      | ((fst <$> ?m) ≫= _) = Some _ =>
          let E := fresh "E" in destruct m as [[? ?]|] eqn:E; [|discriminate H]
      | (?m ≫= _) = Some _ => let E := fresh "E" in destruct m eqn:E; [|discriminate H]
      | (fst <$> ?m) = Some _ =>
          let E := fresh "E" in destruct m as [[? ?]|] eqn:E; [|discriminate H]
      | (if ?c then _ else _) = Some _ => let E := fresh "E" in destruct c eqn:E
      | match ?x with _ => _ end = Some _ => let E := fresh "E" in destruct x eqn:E
      | None = Some _ => discriminate H
      end ].

Ltac shape_eq_direct :=
  solve [ reflexivity
        | repeat case_match; reflexivity
        | unfold Joint.setLocalRot, Joint.setWorldRot, Joint.setWorldPos,
            Joint.lockLocalRot, Joint.activate, Joint.resetFlags, Joint.setConfig,
            Joint.setLocalPos, Joint.setLocalScale, Joint.flagForHarvest,
            updateOutward_self;
          repeat case_match; reflexivity ].

(* a joint computed by a nested block is traced through the block *)
Ltac shape_eq :=
  first [ shape_eq_direct
        | match goal with
          | E : _ = Some ?j' |- Joint_shape ?j' = _ =>
              open_result E; injection E as <-; shape_eq_direct
          end ].

Ltac shape_lookup :=
  solve [ eassumption
        | apply lookup_insert_eq
        | rewrite lookup_insert_ne by congruence; shape_lookup ].

Create HintDb shape.

Ltac shape_solve :=
  lazymatch goal with
  | |- same_shape ?h ?h => apply same_shape_refl
  | H : same_shape ?h0 ?h |- same_shape ?h0 ?h => exact H
  | |- same_shape ?h0 (<[?p := ?j']> ?h) =>
      eapply (same_shape_insert h0 h p); [shape_solve | shape_lookup | shape_eq]
  | H : same_shape ?h1 ?h |- same_shape ?h0 ?h =>
      apply (same_shape_trans h0 h1 h); [shape_solve | exact H]
  | |- same_shape ?h0 ?h =>
      eapply (same_shape_trans h0 _ h); [|solve [eauto 2 with shape]]; shape_solve
  end.

Section Shape.
Context {K : MathKernel} {P : Projection}.

Lemma Joint_setters_shape (j : Joint.t) :
  (forall id c, Joint_shape (Joint.setConfig id c j) = Joint_shape j) /\
  (forall q, Joint_shape (Joint.lockLocalRot q j) = Joint_shape j) /\
  (forall p, Joint_shape (Joint.setLocalPos p j) = Joint_shape j) /\
  (forall v, Joint_shape (Joint.setLocalScale v j) = Joint_shape j) /\
  Joint_shape (Joint.activate j) = Joint_shape j.
Proof. repeat split; intros; shape_eq_direct. Qed.

Lemma updateLocalRot_false_shape (p : Z) (h h' : Heap) (b : bool) :
  updateLocalRot_false p h = Some (h', b) -> same_shape h h'.
Proof.
  unfold updateLocalRot_false, updateLocalRot_with, write. intros H. open_result H;
    injection H as <- <-; shape_solve.
Qed.

Lemma Constraint_enforce_shape (c : Constraint.t) (joint : Z) (h h' : Heap) (b : bool) :
  Constraint_enforce c joint h = Some (h', b) -> same_shape h h'.
Proof.
  unfold Constraint_enforce, write. intros H. open_result H;
    injection H as <- <-; shape_solve.
Qed.

#[local] Hint Resolve updateLocalRot_false_shape Constraint_enforce_shape : shape.

Lemma ElbowConstraint_enforce_shape (c : Constraint.t) (mPivotAxis : LLVector3)
    (mMinTwist mMaxTwist : F32) (elbow_joint : Z) (h h' : Heap) (b : bool) :
  ElbowConstraint_enforce c mPivotAxis mMinTwist mMaxTwist elbow_joint h = Some (h', b) ->
  same_shape h h'.
Proof.
  unfold ElbowConstraint_enforce, write. intros H.
  destruct (h !! elbow_joint) as [elbow|] eqn:He; [|discriminate].
  cbn [mbind option_bind] in H.
  destruct (Joint.mParent elbow) as [shoulder_joint|]; [|eauto with shape].
  destruct (h !! shoulder_joint) as [shoulder|] eqn:Hs; [|discriminate].
  cbn [mbind option_bind] in H.
  destruct (bend_geometry mPivotAxis shoulder elbow) as [[[bend_pivot lower_pivot] upper_pivot] lower_arm].
  destruct (compute_clamped_angle _ mMinTwist mMaxTwist) as [new_twist|]; [|discriminate].
  cbn [mbind option_bind] in H.
  match type of H with
  | (?m ≫= _) = _ => destruct m as [[h1 b1]|] eqn:H1; [|discriminate]
  end.
  assert (Hs1 : same_shape h h1).
  { destruct (F32.neqb new_twist _); [|injection H1 as <- <-; shape_solve].
    cbn [mbind option_bind] in H1. injection H1 as <- <-. shape_solve. }
  clear H1. cbn [mbind option_bind] in H.
  destruct (h1 !! shoulder_joint) as [shoulder1|] eqn:Hsh1; [|discriminate].
  cbn [mbind option_bind] in H.
  match type of H with
  | (?m ≫= _) = _ => destruct m as [[h2 b2]|] eqn:H2; [|discriminate]
  end.
  assert (Hs2 : same_shape h h2).
  { destruct (negb (almost_equal_tol _ _ _)); [|injection H2 as <- <-; exact Hs1].
    unfold Joint.setWorldRot in H2. cbn [Joint.mParent Joint.set_mRot] in H2.
    destruct (Joint.mParent shoulder1).
    - open_result H2. injection H2 as <- <-. shape_solve.
    - cbn [mbind option_bind] in H2. injection H2 as <- <-. shape_solve. }
  clear H2. cbn [mbind option_bind] in H.
  destruct b2; [|injection H as <- <-; exact Hs2].
  open_result H. injection H as <- <-. destruct p as [h3 b3]. cbn [fst]. shape_solve.
Qed.

Lemma KneeConstraint_enforce_shape (c : Constraint.t) (mPivotAxis : LLVector3)
    (knee_joint : Z) (h h' : Heap) (b : bool) :
  KneeConstraint_enforce c mPivotAxis knee_joint h = Some (h', b) -> same_shape h h'.
Proof.
  unfold KneeConstraint_enforce, write. intros H.
  destruct (h !! knee_joint) as [knee|] eqn:Hk; [|discriminate].
  cbn [mbind option_bind] in H.
  destruct (Joint.mParent knee) as [hip_joint|]; [|eauto with shape].
  destruct (h !! hip_joint) as [hip|] eqn:Hh; [|discriminate].
  cbn [mbind option_bind] in H.
  destruct (bend_geometry mPivotAxis hip knee) as [[[bend_pivot lower_pivot] upper_pivot] lower_leg].
  match type of H with
  | (?m ≫= _) = _ => destruct m as [[[h1 knee_rot] b1]|] eqn:H1; [|discriminate]
  end.
  assert (Hs1 : same_shape h h1).
  { destruct (F32.gtb _ MIN_KNEE_TWIST); [|injection H1 as <- _ _; shape_solve].
    cbn [mbind option_bind] in H1. injection H1 as <- _ _. shape_solve. }
  clear H1. cbn [mbind option_bind] in H.
  destruct (h1 !! hip_joint) as [hip1|] eqn:Hh1; [|discriminate].
  cbn [mbind option_bind] in H.
  match type of H with
  | (?m ≫= _) = _ => destruct m as [[[h2 hip_rot] b2]|] eqn:H2; [|discriminate]
  end.
  assert (Hs2 : same_shape h h2).
  { destruct (negb (almost_equal_tol _ _ _)); [|injection H2 as <- _ _; exact Hs1].
    open_result H2; injection H2 as <- _ _; shape_solve. }
  clear H2. cbn [mbind option_bind] in H.
  destruct b2; [|injection H as <- <-; exact Hs2].
  open_result H. injection H as <- <-. shape_solve.
Qed.

#[local] Hint Resolve ElbowConstraint_enforce_shape KneeConstraint_enforce_shape : shape.

Lemma enforceConstraint_shape (this : Z) (h h' : Heap) (b : bool) :
  enforceConstraint this h = Some (h', b) -> same_shape h h'.
Proof.
  unfold enforceConstraint, enforce. intros H. open_result H;
    try (injection H as <- <-; shape_solve); eauto with shape.
Qed.
#[local] Hint Resolve enforceConstraint_shape : shape.

Lemma updateLocalRot_shape (enforce_constraints : bool) (this : Z) (h h' : Heap) (b : bool) :
  updateLocalRot enforce_constraints this h = Some (h', b) -> same_shape h h'.
Proof.
  unfold updateLocalRot, updateLocalRot_with, write. intros H. open_result H;
    try (injection H as <- <-; shape_solve).
  shape_solve.
Qed.
#[local] Hint Resolve updateLocalRot_shape : shape.

Lemma updateActiveChildren_shape (enforce_constraints : bool) (children : list Z)
    (h h' : Heap) (b : bool) :
  updateActiveChildren enforce_constraints children h = Some (h', b) -> same_shape h h'.
Proof.
  unfold updateActiveChildren. intros H.
  refine (foldM_invariant (fun acc : Heap * bool => same_shape h acc.1) _ _ _ _ _ _ H);
    [|apply same_shape_refl].
  intros [h1 b1] child [h2 b2] Hacc Hstep. cbn [fst] in *.
  open_result Hstep; injection Hstep as <- <-; [destruct p as [h3 b3]; cbn [fst]|];
    shape_solve.
Qed.
#[local] Hint Resolve updateActiveChildren_shape : shape.

Lemma updateEndInward_self_shape (cfgs : ConfigMap) (this : Z) (h h' : Heap) :
  updateEndInward_self cfgs this h = Some h' -> same_shape h h'.
Proof.
  unfold updateEndInward_self, write. intros H.
  destruct (h !! this) as [j|] eqn:Hj; [|discriminate]. cbn [mbind option_bind] in H.
  match type of H with
  | (?m ≫= _) = _ => destruct m as [j'|] eqn:E; [|discriminate]
  end.
  cbn [mbind option_bind] in H. injection H as <-.
  assert (Joint_shape j' = Joint_shape j) as Hshape.
  { open_result E; injection E as <-; try reflexivity; destruct b; reflexivity. }
  intros p. destruct (decide (p = this)) as [->|Hne].
  - rewrite lookup_insert_eq, Hj. cbn. f_equal. exact Hshape.
  - rewrite lookup_insert_ne by congruence. reflexivity.
Qed.

Lemma updateEndInward_average_shape (this : Z) (h h' : Heap) :
  updateEndInward_average this h = Some h' -> same_shape h h'.
Proof.
  unfold updateEndInward_average, write. intros H.
  open_result H; injection H as <-; shape_solve.
Qed.
#[local] Hint Resolve updateEndInward_self_shape updateEndInward_average_shape : shape.

Lemma updateEndInward_shape (cfgs : ConfigMap) (enforce_constraints : bool)
    (this : Z) (h h' : Heap) :
  updateEndInward cfgs enforce_constraints this h = Some h' -> same_shape h h'.
Proof.
  unfold updateEndInward. intros H.
  open_result H; try (injection H as <-); shape_solve.
Qed.

Lemma applyLocalRot_shape (cfgs : ConfigMap) (this : Z) (h h' : Heap) :
  applyLocalRot cfgs this h = Some h' -> same_shape h h'.
Proof.
  unfold applyLocalRot, write. intros H. open_result H; injection H as <-; shape_solve.
Qed.
#[local] Hint Resolve updateEndInward_shape applyLocalRot_shape : shape.

Lemma updateLocalRot_and_apply_shape (cfgs : ConfigMap) (enforce_constraints : bool)
    (this : Z) (h h' : Heap) :
  updateLocalRot_and_apply cfgs enforce_constraints this h = Some h' -> same_shape h h'.
Proof.
  unfold updateLocalRot_and_apply. intros H. open_result H;
    try (injection H as <-); destruct p as [h1 b1]; cbn [fst] in *; shape_solve.
Qed.
#[local] Hint Resolve updateLocalRot_and_apply_shape : shape.

Lemma updateEndOutward_shape (cfgs : ConfigMap) (enforce_constraints : bool)
    (this : Z) (h h' : Heap) :
  updateEndOutward cfgs enforce_constraints this h = Some h' -> same_shape h h'.
Proof.
  unfold updateEndOutward, write. intros H. open_result H;
    try (injection H as <-); shape_solve.
Qed.

Lemma updateInward_shape (enforce_constraints : bool) (child this : Z) (h h' : Heap) :
  updateInward enforce_constraints child this h = Some h' -> same_shape h h'.
Proof.
  unfold updateInward, write. intros H. open_result H;
    try (injection H as <-); shape_solve.
Qed.

Lemma updateOutward_shape (cfgs : ConfigMap) (enforce_constraints : bool)
    (this : Z) (h h' : Heap) :
  updateOutward cfgs enforce_constraints this h = Some h' -> same_shape h h'.
Proof.
  unfold updateOutward, write. intros H. open_result H;
    try (injection H as <-); shape_solve.
Qed.

Lemma updateChildLocalRots_shape (this : Z) (h h' : Heap) :
  updateChildLocalRots this h = Some h' -> same_shape h h'.
Proof.
  unfold updateChildLocalRots. intros H. open_result H. injection H as <-. shape_solve.
Qed.

Lemma relaxRot_shape (blend_factor : F32) (this : Z) (h h' : Heap) :
  relaxRot blend_factor this h = Some h' -> same_shape h h'.
Proof.
  unfold relaxRot, write. intros H. open_result H; injection H as <-; shape_solve.
Qed.
#[local] Hint Resolve updateEndOutward_shape updateInward_shape updateOutward_shape
  updateChildLocalRots_shape relaxRot_shape : shape.

Lemma relaxRotationsRecursively_shape (depth : nat) :
  forall (blend_factor : F32) (this : Z) (h h' : Heap),
    relaxRotationsRecursively depth blend_factor this h = Some h' -> same_shape h h'.
Proof.
  induction depth as [|depth IH]; intros blend_factor this h h' H; [discriminate|].
  simpl in H. open_result H.
  apply relaxRot_shape in E.
  eapply same_shape_trans; [exact E|].
  refine (foldM_same_shape _ _ _ _ _ H).
  intros h1 child h2 Hstep. open_result Hstep; [eapply IH; exact Hstep|].
  injection Hstep as <-. apply same_shape_refl.
Qed.
#[local] Hint Resolve relaxRotationsRecursively_shape : shape.

Lemma on_joint_shape (f : Joint.t -> Joint.t) (p : Z) (h h' : Heap) :
  (forall j, Joint_shape (f j) = Joint_shape j) ->
  on_joint f p h = Some h' -> same_shape h h'.
Proof.
  unfold on_joint, write. intros Hf H. open_result H. injection H as <-.
  eapply same_shape_insert; [apply same_shape_refl | eassumption | apply Hf].
Qed.

Lemma buildChain_walk_shape (s : Solver.t) (fuel : nat) :
  forall (joint : option Z) (chain : list Z) (sub_bases : gset Z) (h h' : Heap)
         (chain' : list Z) (sub_bases' : gset Z),
    buildChain_walk s fuel joint chain sub_bases h = Some (h', chain', sub_bases') ->
    same_shape h h'.
Proof.
  induction fuel as [|fuel IH]; intros joint chain sub_bases h h' chain' sub_bases' H.
  - simpl in H. injection H as <- _ _. apply same_shape_refl.
  - destruct joint as [p|]; simpl in H; [|injection H as <- _ _; apply same_shape_refl].
    unfold write in H. open_result H; try (injection H as <- _ _; shape_solve).
    apply IH in H. eapply same_shape_trans; [|exact H]. shape_solve.
Qed.

Lemma buildChain_shape (s : Solver.t) (joint : Z) (chain : list Z) (sub_bases : gset Z)
    (chain_length : Z) (h h' : Heap) (chain' : list Z) (sub_bases' : gset Z) :
  buildChain s joint chain sub_bases chain_length h = Some (h', chain', sub_bases') ->
  same_shape h h'.
Proof.
  unfold buildChain, write. intros H. open_result H.
  apply buildChain_walk_shape in H. eapply same_shape_trans; [|exact H]. shape_solve.
Qed.

Lemma addChain_shape (s : Solver.t) (joint_id joint chain_length : Z) (b b' : Build) :
  addChain s joint_id joint chain_length b = Some b' ->
  same_shape (b_heap b) (b_heap b').
Proof.
  unfold addChain. intros H.
  destruct (buildChain _ _ _ _ _ _) as [[[h1 chain1] sb1]|] eqn:E; [|discriminate].
  cbn [mbind option_bind] in H. injection H as <-. cbn [b_heap].
  eapply buildChain_shape; exact E.
Qed.

Lemma applyConfig_shape (s : Solver.t) (joint_id : Z) (b b' : Build) :
  applyConfig s joint_id b = Some b' -> same_shape (b_heap b) (b_heap b').
Proof.
  unfold applyConfig, write. intros H.
  destruct (b_configs b !! joint_id) as [config|]; [|discriminate].
  cbn [mbind option_bind] in H.
  destruct (b_heap b !! joint_id) as [joint|] eqn:Hj;
    [|injection H as <-; apply same_shape_refl].
  destruct (Joint.getID _ =? mRootID s).
  - cbv zeta in H.
    destruct (negb (Z.land _ MASK_ROT =? 0)), (negb (Z.land _ MASK_POS =? 0)),
      (negb (Z.land _ CONFIG_FLAG_LOCAL_SCALE =? 0));
      injection H as <-; cbn [b_heap];
      (eapply same_shape_insert; [apply same_shape_refl | exact Hj | ]);
      repeat first
        [ rewrite (proj2 (proj2 (proj2 (proj2 (Joint_setters_shape _)))))
        | rewrite (proj1 (proj2 (proj2 (proj2 (Joint_setters_shape _)))))
        | rewrite (proj1 (proj2 (proj2 (Joint_setters_shape _))))
        | rewrite (proj1 (proj2 (Joint_setters_shape _)))
        | rewrite (proj1 (Joint_setters_shape _)) ];
      reflexivity.
  - set (b1 := mkBuild _ _ _ _ _) in H.
    assert (Hs1 : same_shape (b_heap b) (b_heap b1)).
    { subst b1. cbn [b_heap].
      eapply same_shape_insert; [apply same_shape_refl | exact Hj | shape_eq]. }
    clearbody b1.
    destruct (Config.hasDelegated config); [injection H as <-; exact Hs1|].
    match type of H with
    | (?m ≫= _) = _ => destruct m as [b2|] eqn:E2; [|discriminate]
    end.
    cbn [mbind option_bind] in H.
    assert (Hs2 : same_shape (b_heap b1) (b_heap b2)).
    { destruct (Config.hasTargetPos config).
      - destruct (addChain _ _ _ _ _) as [b3|] eqn:E3; [|discriminate].
        apply addChain_shape in E3. cbn [mbind option_bind] in E2.
        open_result E2; injection E2 as <-; exact E3.
      - destruct (Config.hasTargetRot config);
          [eapply addChain_shape; exact E2 | injection E2 as <-; apply same_shape_refl]. }
    clear E2.
    match type of H with
    | (?m ≫= _) = _ => destruct m as [h3|] eqn:E3; [|discriminate]
    end.
    cbn [mbind option_bind] in H.
    assert (Hs3 : same_shape (b_heap b2) h3).
    { destruct (Config.hasLocalPos config);
        [|injection E3 as <-; apply same_shape_refl].
      eapply on_joint_shape; [|exact E3]. intros j. shape_eq. }
    clear E3.
    match type of H with
    | (?m ≫= _) = _ => destruct m as [h4|] eqn:E4; [|discriminate]
    end.
    cbn [mbind option_bind] in H. injection H as <-. cbn [b_heap].
    assert (Hs4 : same_shape h3 h4).
    { destruct (Config.hasLocalScale config);
        [|injection E4 as <-; apply same_shape_refl].
      eapply on_joint_shape; [|exact E4]. intros j. shape_eq. }
    eauto using same_shape_trans.
Qed.

Lemma foldM_Build_shape {A : Type} (f : Build -> A -> option Build) (l : list A) :
  (forall b a b', f b a = Some b' -> same_shape (b_heap b) (b_heap b')) ->
  forall b b', foldM f b l = Some b' -> same_shape (b_heap b) (b_heap b').
Proof.
  intros Hf b b' H.
  refine (foldM_invariant (fun acc : Build => same_shape (b_heap b) (b_heap acc))
            _ _ _ _ _ _ H); [|apply same_shape_refl].
  intros b1 a b2 Hacc Hstep. eapply same_shape_trans; [exact Hacc|]. eapply Hf; exact Hstep.
Qed.

Lemma buildSubBaseChains_shape (s : Solver.t) (rounds : nat) :
  forall b b', buildSubBaseChains s rounds b = Some b' ->
               same_shape (b_heap b) (b_heap b').
Proof.
  induction rounds as [|rounds IH]; intros b b' H; simpl in H.
  - destruct (bool_decide _); [injection H as <-; apply same_shape_refl|discriminate].
  - destruct (bool_decide _); [injection H as <-; apply same_shape_refl|].
    match type of H with
    | (?m ≫= _) = _ => destruct m as [b1|] eqn:E; [|discriminate]
    end.
    cbn [mbind option_bind] in H. apply IH in H.
    apply foldM_Build_shape in E.
    + cbn [b_heap] in E. eapply same_shape_trans; eassumption.
    + intros b2 a b3 Hstep. open_result Hstep. eapply addChain_shape; exact Hstep.
Qed.

Lemma foldl_flagForHarvest_keeps {B : Type} (f : Joint.t -> B) (l : list (Z * Joint.t)) :
  (forall j, f (Joint.flagForHarvest j) = f j) ->
  forall h : Heap,
    (forall p j, (p, j) ∈ l -> f <$> h !! p = Some (f j)) ->
    forall q,
      f <$> foldl (fun h (data_pair : Z * Joint.t) =>
                     write data_pair.1 (Joint.flagForHarvest data_pair.2) h) h l !! q
      = f <$> h !! q.
Proof.
  intros Hf. induction l as [|[p j] l IH]; intros h Hl q; simpl; [reflexivity|].
  assert (Hstep : forall q, f <$> write p (Joint.flagForHarvest j) h !! q = f <$> h !! q).
  { intros q'. unfold write. destruct (decide (q' = p)) as [->|Hne].
    - rewrite lookup_insert_eq, (Hl p j) by (left). cbn. rewrite Hf. reflexivity.
    - rewrite lookup_insert_ne by congruence. reflexivity. }
  rewrite IH; [apply Hstep|].
  intros q' j' Hin. rewrite Hstep. apply Hl. right. exact Hin.
Qed.

Lemma rebuildAllChains_shape (s s' : Solver.t) :
  rebuildAllChains s = Some s' -> same_shape (mSkeleton s) (mSkeleton s').
Proof.
  unfold rebuildAllChains. intros H.
  match type of H with
  | (?m ≫= _) = _ => destruct m as [h1|] eqn:E1; [|discriminate]
  end.
  cbn [mbind option_bind] in H.
  match type of H with
  | (?m ≫= _) = _ => destruct m as [b2|] eqn:E2; [|discriminate]
  end.
  cbn [mbind option_bind] in H.
  match type of H with
  | (?m ≫= _) = _ => destruct m as [b3|] eqn:E3; [|discriminate]
  end.
  cbn [mbind option_bind] in H.
  destruct (findJoins _ _ _) as [joins|]; [|discriminate]. cbn [mbind option_bind] in H.
  match type of H with
  | (?m ≫= _) = _ => destruct m as [chains|]; [|discriminate]
  end.
  cbn [mbind option_bind] in H.
  match type of H with
  | (?m ≫= _) = _ => destruct m as [roots|]; [|discriminate]
  end.
  cbn [mbind option_bind] in H. injection H as <-. cbn [mSkeleton set_mActiveJoints
    set_mActiveRoots set_mChainMap set_mJointConfigs set_mSkeleton].
  assert (Hs1 : same_shape (mSkeleton s) h1).
  { refine (foldM_same_shape _ _ _ _ _ E1). intros h a h' Hstep.
    refine (foldM_same_shape _ _ _ _ _ Hstep). intros h2 p h2' Hp.
    eapply on_joint_shape; [|exact Hp]. intros j. shape_eq. }
  assert (Hs2 : same_shape h1 (b_heap b2)).
  { apply foldM_Build_shape in E2; [exact E2|].
    intros b a b' Hstep. eapply applyConfig_shape; exact Hstep. }
  apply buildSubBaseChains_shape in E3.
  eapply same_shape_trans;
    [|intros p; apply (foldl_flagForHarvest_keeps Joint_shape); [reflexivity|]].
  - eauto using same_shape_trans.
  - intros q j Hin. apply list_elem_of_filter in Hin as [_ Hin].
    apply elem_of_map_items in Hin. rewrite Hin. reflexivity.
Qed.

Lemma prepareSolve_shape (s s' : Solver.t) :
  prepareSolve s = Some s' -> same_shape (mSkeleton s) (mSkeleton s').
Proof.
  unfold prepareSolve. intros H.
  destruct (rebuildAllChains s) as [s1|] eqn:E1; [|discriminate].
  cbn [mbind option_bind] in H. apply rebuildAllChains_shape in E1.
  match type of H with
  | (?m ≫= _) = _ => destruct m as [h2|] eqn:E2; [|discriminate]
  end.
  cbn [mbind option_bind] in H. injection H as <-. cbn [mSkeleton set_mSkeleton].
  eapply same_shape_trans; [exact E1|].
  refine (foldM_same_shape _ _ _ _ _ E2). intros h root h' Hstep.
  eapply relaxRotationsRecursively_shape; exact Hstep.
Qed.

Lemma executeFabrikInward_shape (cfgs : ConfigMap) (chain : list Z)
    (enforce_constraints : bool) (h h' : Heap) :
  executeFabrikInward cfgs chain enforce_constraints h = Some h' -> same_shape h h'.
Proof.
  unfold executeFabrikInward. intros H. open_result H.
  apply updateEndInward_shape in E0. eapply same_shape_trans; [exact E0|].
  refine (foldM_same_shape _ _ _ _ _ H). intros h1 a h2 Hstep.
  eapply updateInward_shape; exact Hstep.
Qed.

Lemma executeFabrikOutward_shape (cfgs : ConfigMap) (chain : list Z)
    (enforce_constraints : bool) (h h' : Heap) :
  executeFabrikOutward cfgs chain enforce_constraints h = Some h' -> same_shape h h'.
Proof.
  unfold executeFabrikOutward. intros H.
  match type of H with
  | (?m ≫= _) = _ => destruct m as [h1|] eqn:E1; [|discriminate]
  end.
  cbn [mbind option_bind] in H. open_result H.
  apply updateEndOutward_shape in H. eapply same_shape_trans; [|exact H].
  refine (foldM_same_shape _ _ _ _ _ E1). intros h2 a h3 Hstep.
  eapply updateOutward_shape; exact Hstep.
Qed.

Lemma executeFabrikPass_shape (enforce_constraints : bool) (s : Solver.t) (h' : Heap) :
  executeFabrikPass enforce_constraints s = Some h' -> same_shape (mSkeleton s) h'.
Proof.
  unfold executeFabrikPass. intros H.
  match type of H with
  | (?m ≫= _) = _ => destruct m as [h1|] eqn:E1; [|discriminate]
  end.
  cbn [mbind option_bind] in H.
  match type of H with
  | (?m ≫= _) = _ => destruct m as [h2|] eqn:E2; [|discriminate]
  end.
  cbn [mbind option_bind] in H.
  eapply same_shape_trans; [eapply same_shape_trans|].
  - refine (foldM_same_shape _ _ _ _ _ E1). intros h a h3 Hstep.
    eapply executeFabrikInward_shape; exact Hstep.
  - refine (foldM_same_shape _ _ _ _ _ E2). intros h a h3 Hstep.
    eapply updateChildLocalRots_shape; exact Hstep.
  - refine (foldM_same_shape _ _ _ _ _ H). intros h a h3 Hstep.
    eapply executeFabrikOutward_shape; exact Hstep.
Qed.

Lemma solveOnce_shape (s s' : Solver.t) (e : F32) :
  solveOnce s = Some (s', e) -> same_setup s s'.
Proof.
  unfold solveOnce. intros H.
  destruct (executeFabrikPass true s) as [h1|] eqn:E1; [|discriminate].
  cbn [mbind option_bind] in H. open_result H. injection H as <- _.
  apply executeFabrikPass_shape in E1. repeat split; exact E1.
Qed.

Lemma solveLoop_shape (fuel : nat) :
  forall (loop : Z) (max_error : F32) (s s' : Solver.t) (e : F32),
    (solveLoop fuel loop max_error s).2 = Some (s', e) -> same_setup s s'.
Proof.
  assert (Hrefl : forall s, same_setup s s)
    by (intros s; repeat split; apply same_shape_refl).
  induction fuel as [|fuel IH]; intros loop max_error s s' e H; simpl in H.
  - injection H as <- _. apply Hrefl.
  - destruct (_ || _); [|injection H as <- _; apply Hrefl].
    destruct (solveOnce s) as [[s1 e1]|] eqn:E1; [|discriminate].
    cbn [snd] in H. apply IH in H. apply solveOnce_shape in E1.
    destruct E1 as (A1 & A2 & A3 & A4 & A5 & A6), H as (B1 & B2 & B3 & B4 & B5 & B6).
    repeat split; try congruence; eapply same_shape_trans; eassumption.
Qed.

Lemma rebuildAllChains_settings (s s' : Solver.t) :
  rebuildAllChains s = Some s' -> same_settings s s'.
Proof.
  unfold rebuildAllChains. intros H.
  repeat match type of H with
         | (?m ≫= _) = _ => destruct m; [cbn [mbind option_bind] in H|discriminate]
         end.
  injection H as <-. repeat split.
Qed.

Lemma solveLoop_settings (fuel : nat) :
  forall (loop : Z) (max_error : F32) (s s' : Solver.t) (e : F32),
    (solveLoop fuel loop max_error s).2 = Some (s', e) -> same_settings s s'.
Proof.
  induction fuel as [|fuel IH]; intros loop max_error s s' e H; simpl in H.
  - injection H as <- _. repeat split.
  - destruct (_ || _); [|injection H as <- _; repeat split].
    destruct (solveOnce s) as [[s1 e1]|] eqn:E1; [|discriminate].
    cbn [snd] in H. apply IH in H. unfold solveOnce in E1.
    destruct (executeFabrikPass true s); [|discriminate]. cbn [mbind option_bind] in E1.
    destruct (measureMaxError _); [|discriminate]. cbn [mbind option_bind] in E1.
    injection E1 as <- _. exact H.
Qed.

End Shape.


(** ** The active joints *)

Lemma isActive_bit (j : Joint.t) : Joint.isActive j = Z.testbit (Joint.mIkFlags j) 5.
Proof.
  unfold Joint.isActive, IK_FLAG_ACTIVE. rewrite land_bit by lia.
  destruct (Z.testbit _ 5); reflexivity.
Qed.

Lemma foldM_invariant_in {A B : Type} (Inv : B -> Prop) (f : B -> A -> option B)
    (l : list A) (b b' : B) :
  (forall b a b', a ∈ l -> Inv b -> f b a = Some b' -> Inv b') ->
  Inv b -> foldM f b l = Some b' -> Inv b'.
Proof.
  revert b. induction l as [|a l IH]; simpl; intros b Hstep Hb Hf.
  - injection Hf as <-. exact Hb.
  - destruct (f b a) as [b1|] eqn:Hfa; [|discriminate]. simpl in Hf.
    eapply IH; [| |exact Hf].
    + intros b2 a2 b3 Hin. apply Hstep. right. exact Hin.
    + eapply Hstep; [left|exact Hb|exact Hfa].
Qed.

Section Active.
Context {K : MathKernel} {P : Projection}.

Lemma isActive_setters (j : Joint.t) :
  Joint.isActive (Joint.activate j) = true
  /\ (forall q, Joint.isActive (Joint.lockLocalRot q j) = true)
  /\ (forall id c, Joint.isActive (Joint.setConfig id c j) = Joint.isActive j)
  /\ (forall p, Joint.isActive (Joint.setLocalPos p j) = Joint.isActive j)
  /\ (forall v, Joint.isActive (Joint.setLocalScale v j) = Joint.isActive j)
  /\ Joint.isActive (Joint.flagForHarvest j) = Joint.isActive j.
Proof.
  rewrite !isActive_bit. repeat split; intros; rewrite ?isActive_bit.
  - unfold Joint.activate, IK_FLAG_ACTIVE. cbn [Joint.mIkFlags Joint.set_mIkFlags].
    rewrite Z.lor_spec. apply orb_true_r.
  - unfold Joint.lockLocalRot. cbv zeta.
    destruct (Joint.mParent _);
      unfold Joint.activate, IK_FLAG_ACTIVE;
      cbn [Joint.mIkFlags Joint.set_mIkFlags Joint.set_mRot Joint.set_mLocalRot];
      rewrite Z.lor_spec; apply orb_true_r.
  - reflexivity.
  - unfold Joint.setLocalPos. cbv zeta. destruct (Joint.mParent _); reflexivity.
  - reflexivity.
  - unfold Joint.flagForHarvest, IK_FLAG_LOCAL_ROT. cbn [Joint.mIkFlags Joint.set_mIkFlags].
    rewrite Z.lor_spec. apply orb_false_r.
Qed.

Lemma keeps_active_refl (h : Heap) : keeps_active h h.
Proof. intros p Hp. exact Hp. Qed.

Lemma keeps_active_trans (h1 h2 h3 : Heap) :
  keeps_active h1 h2 -> keeps_active h2 h3 -> keeps_active h1 h3.
Proof. intros H12 H23 p Hp. apply H23, H12, Hp. Qed.

Lemma keeps_active_write (h : Heap) (p : Z) (j j' : Joint.t) :
  h !! p = Some j -> (Joint.isActive j = true -> Joint.isActive j' = true) ->
  keeps_active h (write p j' h).
Proof.
  intros Hj Hact q Hq. unfold joint_active, write in *.
  destruct (decide (q = p)) as [->|Hne].
  - rewrite lookup_insert_eq. rewrite Hj in Hq. cbn in *. f_equal. apply Hact.
    congruence.
  - rewrite lookup_insert_ne by congruence. exact Hq.
Qed.

Lemma joint_active_write (h : Heap) (p : Z) (j : Joint.t) :
  Joint.isActive j = true -> joint_active (write p j h) p.
Proof. intros Hj. unfold joint_active, write. rewrite lookup_insert_eq. cbn. congruence. Qed.

Lemma on_joint_keeps_active (f : Joint.t -> Joint.t) (p : Z) (h h' : Heap) :
  (forall j, Joint.isActive j = true -> Joint.isActive (f j) = true) ->
  on_joint f p h = Some h' -> keeps_active h h'.
Proof.
  unfold on_joint. intros Hf H. destruct (h !! p) as [j|] eqn:Hj; [|discriminate].
  cbn [mbind option_bind] in H. injection H as <-.
  eapply keeps_active_write; [exact Hj | apply Hf].
Qed.

Lemma buildChain_walk_active (s : Solver.t) (fuel : nat) :
  forall (joint : option Z) (chain : list Z) (sub_bases : gset Z) (h h' : Heap)
         (chain' : list Z) (sub_bases' : gset Z),
    buildChain_walk s fuel joint chain sub_bases h = Some (h', chain', sub_bases') ->
    keeps_active h h' /\ forall p, p ∈ chain' -> p ∈ chain \/ joint_active h' p.
Proof.
  induction fuel as [|fuel IH]; intros joint chain sub_bases h h' chain' sub_bases' H.
  - simpl in H. injection H as <- <- _. split; [apply keeps_active_refl|]. auto.
  - destruct joint as [p|]; simpl in H;
      [|injection H as <- <- _; split; [apply keeps_active_refl|auto]].
    destruct (h !! p) as [j|] eqn:Hj; [|discriminate]. cbn [mbind option_bind] in H.
    assert (Hkeep : keeps_active h (write p (Joint.activate j) h)).
    { eapply keeps_active_write; [exact Hj|]. intros _. apply isActive_setters. }
    assert (Hp : joint_active (write p (Joint.activate j) h) p)
      by (apply joint_active_write, isActive_setters).
    assert (Hhere : forall q, q ∈ chain ++ [p] ->
              q ∈ chain \/ joint_active (write p (Joint.activate j) h) q).
    { intros q [Hq|Hq]%elem_of_app; [left; exact Hq|].
      apply list_elem_of_singleton in Hq as ->. right. exact Hp. }
    repeat match type of H with
           | (if ?c then _ else _) = _ =>
               destruct c; [injection H as <- <- _; split; [exact Hkeep|exact Hhere]|]
           end.
    apply IH in H as [Hk Hc]. split; [eapply keeps_active_trans; eassumption|].
    intros q Hq. destruct (Hc q Hq) as [Hin|Hact]; [|right; exact Hact].
    destruct (Hhere q Hin) as [Hin'|Hact]; [left; exact Hin'|right; apply Hk, Hact].
Qed.

Lemma buildChain_active (s : Solver.t) (joint : Z) (sub_bases : gset Z)
    (chain_length : Z) (h h' : Heap) (chain' : list Z) (sub_bases' : gset Z) :
  buildChain s joint [] sub_bases chain_length h = Some (h', chain', sub_bases') ->
  keeps_active h h' /\ forall p, p ∈ chain' -> joint_active h' p.
Proof.
  unfold buildChain. intros H. destruct (h !! joint) as [j|] eqn:Hj; [|discriminate].
  cbn [mbind option_bind] in H. cbv zeta in H.
  apply buildChain_walk_active in H as [Hk Hc].
  assert (Hkeep : keeps_active h (write joint (Joint.activate j) h)).
  { eapply keeps_active_write; [exact Hj|]. intros _. apply isActive_setters. }
  split; [eapply keeps_active_trans; eassumption|].
  intros p Hp. destruct (Hc p Hp) as [Hin|Hact]; [|exact Hact].
  apply list_elem_of_singleton in Hin as ->.
  apply Hk, joint_active_write, isActive_setters.
Qed.

Lemma Build_active_heap (b : Build) (h' : Heap) (cfgs : ConfigMap) (sub_bases : gset Z) :
  Build_active b -> keeps_active (b_heap b) h' ->
  Build_active (mkBuild h' cfgs (b_chains b) (b_roots b) sub_bases).
Proof.
  intros [Hc Hr] Hk. split; cbn [b_heap b_chains b_roots].
  - intros id chain p Hid Hp. eapply Hk, Hc; eassumption.
  - intros r Hin. apply Hk, Hr, Hin.
Qed.

Lemma addChain_active (s : Solver.t) (joint_id joint chain_length : Z) (b b' : Build) :
  Build_active b -> addChain s joint_id joint chain_length b = Some b' ->
  Build_active b'.
Proof.
  unfold addChain. intros [Hc Hr] H.
  destruct (buildChain _ _ _ _ _ _) as [[[h1 chain1] sb1]|] eqn:E; [|discriminate].
  cbn [mbind option_bind] in H. injection H as <-.
  apply buildChain_active in E as [Hk Hnew]. split; cbn [b_heap b_chains b_roots].
  - intros id chain p Hid Hp. destruct (decide (id = joint_id)) as [->|Hne].
    + rewrite lookup_insert_eq in Hid. injection Hid as <-. apply Hnew, Hp.
    + rewrite lookup_insert_ne in Hid by congruence. eapply Hk, Hc; eassumption.
  - intros r Hin. apply Hk, Hr, Hin.
Qed.

Lemma applyConfig_active (s : Solver.t) (joint_id : Z) (b b' : Build) :
  Build_active b -> applyConfig s joint_id b = Some b' -> Build_active b'.
Proof.
  unfold applyConfig, write. intros Hb H.
  destruct (b_configs b !! joint_id) as [config|]; [|discriminate].
  cbn [mbind option_bind] in H.
  destruct (b_heap b !! joint_id) as [joint|] eqn:Hj; [|injection H as <-; exact Hb].
  destruct (isActive_setters joint) as (_ & _ & Hcfg & _).
  destruct (Joint.getID _ =? mRootID s).
  - cbv zeta in H.
    set (j0 := Joint.setConfig joint_id config joint) in *.
    assert (H0 : Joint.isActive joint = true -> Joint.isActive j0 = true)
      by (subst j0; rewrite Hcfg; auto).
    clearbody j0.
    destruct (negb (Z.land _ MASK_ROT =? 0)) eqn:Hrot.
    + set (j1 := Joint.activate (Joint.lockLocalRot _ j0)) in H.
      assert (H1 : Joint.isActive j1 = true) by (subst j1; apply isActive_setters).
      clearbody j1.
      set (j2 := if negb (Z.land _ MASK_POS =? 0) then _ else j1) in H.
      assert (H2 : Joint.isActive j2 = true).
      { subst j2. destruct (negb (Z.land _ MASK_POS =? 0)); [apply isActive_setters|exact H1]. }
      clearbody j2.
      set (j3 := if negb (Z.land _ CONFIG_FLAG_LOCAL_SCALE =? 0) then _ else j2) in H.
      assert (H3 : Joint.isActive j3 = true).
      { subst j3. destruct (negb (Z.land _ CONFIG_FLAG_LOCAL_SCALE =? 0)); [|exact H2].
        destruct (isActive_setters j2) as (_ & _ & _ & _ & Hsc & _). rewrite Hsc. exact H2. }
      clearbody j3. injection H as <-.
      destruct Hb as [Hc Hr]. split; cbn [b_heap b_chains b_roots].
      * intros id chain p Hid Hp.
        eapply (keeps_active_write _ _ _ _ Hj (fun _ => H3)), Hc; eassumption.
      * intros r [Hin|Hin]%elem_of_union.
        -- apply elem_of_singleton in Hin as ->. apply (joint_active_write _ _ _ H3).
        -- apply (keeps_active_write _ _ _ _ Hj (fun _ => H3)), Hr, Hin.
    + set (j2 := if negb (Z.land _ MASK_POS =? 0) then _ else j0) in H.
      assert (H2 : Joint.isActive joint = true -> Joint.isActive j2 = true).
      { subst j2. destruct (negb (Z.land _ MASK_POS =? 0)); [intros _; apply isActive_setters|exact H0]. }
      clearbody j2.
      set (j3 := if negb (Z.land _ CONFIG_FLAG_LOCAL_SCALE =? 0) then _ else j2) in H.
      assert (H3 : Joint.isActive joint = true -> Joint.isActive j3 = true).
      { subst j3. destruct (negb (Z.land _ CONFIG_FLAG_LOCAL_SCALE =? 0)); [|exact H2].
        destruct (isActive_setters j2) as (_ & _ & _ & _ & Hsc & _). rewrite Hsc. exact H2. }
      clearbody j3. injection H as <-.
      apply (Build_active_heap b); [exact Hb|].
      eapply keeps_active_write; [exact Hj|exact H3].
  - set (b1 := mkBuild _ _ _ _ _) in H.
    assert (Hb1 : Build_active b1).
    { subst b1. apply (Build_active_heap b); [exact Hb|].
      eapply keeps_active_write; [exact Hj|].
      destruct (Config.hasLocalRot config); [intros _; apply isActive_setters|].
      rewrite Hcfg. auto. }
    clearbody b1.
    destruct (Config.hasDelegated config); [injection H as <-; exact Hb1|].
    match type of H with
    | (?m ≫= _) = _ => destruct m as [b2|] eqn:E2; [|discriminate]
    end.
    cbn [mbind option_bind] in H.
    assert (Hb2 : Build_active b2).
    { destruct (Config.hasTargetPos config).
      - destruct (addChain _ _ _ _ _) as [b3|] eqn:E3; [|discriminate].
        apply (addChain_active _ _ _ _ _ _ Hb1) in E3. cbn [mbind option_bind] in E2.
        open_result E2; injection E2 as <-; [|exact E3].
        apply (Build_active_heap b3); [exact E3|apply keeps_active_refl].
      - destruct (Config.hasTargetRot config);
          [eapply addChain_active; eassumption | injection E2 as <-; exact Hb1]. }
    clear E2.
    match type of H with
    | (?m ≫= _) = _ => destruct m as [h3|] eqn:E3; [|discriminate]
    end.
    cbn [mbind option_bind] in H.
    assert (Hk3 : keeps_active (b_heap b2) h3).
    { destruct (Config.hasLocalPos config);
        [|injection E3 as <-; apply keeps_active_refl].
      eapply on_joint_keeps_active; [|exact E3]. intros j _. apply isActive_setters. }
    clear E3.
    match type of H with
    | (?m ≫= _) = _ => destruct m as [h4|] eqn:E4; [|discriminate]
    end.
    cbn [mbind option_bind] in H. injection H as <-.
    assert (Hk4 : keeps_active h3 h4).
    { destruct (Config.hasLocalScale config);
        [|injection E4 as <-; apply keeps_active_refl].
      eapply on_joint_keeps_active; [|exact E4]. intros j _. apply isActive_setters. }
    apply (Build_active_heap b2); [exact Hb2|].
    eapply keeps_active_trans; eassumption.
Qed.

Lemma buildSubBaseChains_active (s : Solver.t) (rounds : nat) :
  forall b b', Build_active b -> buildSubBaseChains s rounds b = Some b' ->
               Build_active b'.
Proof.
  induction rounds as [|rounds IH]; intros b b' Hb H; simpl in H.
  - destruct (bool_decide _); [injection H as <-; exact Hb|discriminate].
  - destruct (bool_decide _); [injection H as <-; exact Hb|].
    match type of H with
    | (?m ≫= _) = _ => destruct m as [b1|] eqn:E; [|discriminate]
    end.
    cbn [mbind option_bind] in H. eapply IH; [|exact H].
    refine (foldM_invariant Build_active _ _ _ _ _ _ E);
      [|apply (Build_active_heap b); [exact Hb|apply keeps_active_refl]].
    intros b2 id b3 Hb2 Hstep.
    destruct (b_heap b2 !! id); [|discriminate]. cbn [mbind option_bind] in Hstep.
    eapply addChain_active; eassumption.
Qed.

Lemma makeJoin_active (h : Heap) (chains chains' : gmap Z (list Z)) (id : Z) :
  chains_active h chains -> makeJoin h chains id = Some chains' ->
  chains_active h chains'.
Proof.
  unfold makeJoin. intros Hc H.
  destruct (findRecipient h id (map_items chains)) as [[[k recipient]|]|] eqn:Hfind;
    [| injection H as <-; exact Hc | discriminate].
  cbn [mbind option_bind] in H.
  apply findRecipient_elem, elem_of_map_items in Hfind.
  destruct (chains !! to_S16 id) as [donor|] eqn:Hdonor; simpl in H; [|discriminate].
  destruct donor as [|d rest]; [discriminate|].
  injection H as <-. intros id' chain p Hid' Hp.
  apply lookup_delete_Some in Hid' as [Hne Hid'].
  destruct (decide (id' = k)) as [->|Hk].
  - rewrite lookup_insert_eq in Hid'. injection Hid' as <-.
    apply elem_of_app in Hp as [Hp|Hp].
    + eapply Hc; [exact Hfind|exact Hp].
    + eapply Hc; [exact Hdonor|]. right. exact Hp.
  - rewrite lookup_insert_ne in Hid' by congruence. eapply Hc; [exact Hid'|exact Hp].
Qed.

Lemma active_after_harvest (h : Heap) (q : Z) :
  joint_active
    (foldl (fun h (data_pair : Z * Joint.t) =>
              write data_pair.1 (Joint.flagForHarvest data_pair.2) h)
           h (filter (λ data_pair : Z * Joint.t, Joint.isActive data_pair.2 = true)
                     (map_items h))) q
  <-> joint_active h q.
Proof.
  unfold joint_active.
  rewrite (foldl_flagForHarvest_keeps Joint.isActive); [reflexivity | |].
  - intros j. apply isActive_setters.
  - intros p j Hin. apply list_elem_of_filter in Hin as [_ Hin].
    apply elem_of_map_items in Hin. rewrite Hin. reflexivity.
Qed.

Lemma rebuildAllChains_marks (s s' : Solver.t) :
  rebuildAllChains s = Some s' ->
  chains_active (mSkeleton s') (mChainMap s')
  /\ (forall r, r ∈ mActiveRoots s' -> joint_active (mSkeleton s') r).
Proof.
  unfold rebuildAllChains. intros H.
  match type of H with
  | (?m ≫= _) = _ => destruct m as [h1|]; [|discriminate]
  end.
  cbn [mbind option_bind] in H.
  match type of H with
  | (?m ≫= _) = _ => destruct m as [b2|] eqn:E2; [|discriminate]
  end.
  cbn [mbind option_bind] in H.
  match type of H with
  | (?m ≫= _) = _ => destruct m as [b3|] eqn:E3; [|discriminate]
  end.
  cbn [mbind option_bind] in H.
  destruct (findJoins _ _ _) as [joins|]; [|discriminate]. cbn [mbind option_bind] in H.
  match type of H with
  | (?m ≫= _) = _ => destruct m as [chains|] eqn:E4; [|discriminate]
  end.
  cbn [mbind option_bind] in H.
  match type of H with
  | (?m ≫= _) = _ => destruct m as [roots|] eqn:E5; [|discriminate]
  end.
  cbn [mbind option_bind] in H. injection H as <-.
  cbn [mSkeleton mChainMap mActiveRoots mActiveJoints set_mActiveJoints
       set_mActiveRoots set_mChainMap set_mJointConfigs set_mSkeleton].
  assert (Hb2 : Build_active b2).
  { refine (foldM_invariant Build_active _ _ _ _ _ _ E2).
    - intros b a b' Hb Hstep. eapply applyConfig_active; eassumption.
    - split; cbn [b_heap b_chains b_roots].
      + intros id chain p Hid. rewrite lookup_empty in Hid. discriminate.
      + intros r Hr. apply elem_of_empty in Hr. contradiction. }
  apply (buildSubBaseChains_active _ _ _ _ Hb2) in E3. destruct E3 as [Hc3 Hr3].
  assert (Hc4 : chains_active (b_heap b3) chains).
  { refine (foldM_invariant (chains_active (b_heap b3)) _ _ _ _ _ _ E4); [|exact Hc3].
    intros c a c' Hc Hstep. eapply makeJoin_active; eassumption. }
  assert (Hr5 : forall r, r ∈ roots -> joint_active (b_heap b3) r).
  { refine (foldM_invariant_in (fun roots : gset Z =>
                                  forall r, r ∈ roots -> joint_active (b_heap b3) r)
              _ _ _ _ _ _ E5); [|exact Hr3].
    intros acc [k chain] acc' Hin Hacc Hstep. cbn [fst snd] in Hstep.
    apply elem_of_map_items in Hin.
    destruct (last chain) as [chain_base|] eqn:Hlast; [|discriminate].
    cbn [mbind option_bind] in Hstep.
    destruct (b_heap b3 !! chain_base) as [base|]; [|discriminate].
    cbn [mbind option_bind] in Hstep.
    match type of Hstep with
    | (?m ≫= _) = _ => destruct m as [[|]|]; [| |discriminate]
    end; cbn [mbind option_bind] in Hstep; injection Hstep as <-; [exact Hacc|].
    intros r [Hr|Hr]%elem_of_union; [|apply Hacc, Hr].
    apply elem_of_singleton in Hr as ->.
    eapply Hc4; [exact Hin|]. apply last_Some_elem_of. exact Hlast. }
  split.
  - intros id chain p Hid Hp. apply active_after_harvest. eapply Hc4; eassumption.
  - intros r Hr. apply active_after_harvest, Hr5, Hr.
Qed.

(** X14: after rebuildAllChains every joint of every chain and every active
    root is a joint of the skeleton with the active flag set, and the list
    of active joints holds exactly the ids of the joints of the skeleton
    with that flag. *)
Theorem rebuildAllChains_active (s s' : Solver.t) :
  rebuildAllChains s = Some s' ->
  chains_active (mSkeleton s') (mChainMap s')
  /\ (forall r, r ∈ mActiveRoots s' -> joint_active (mSkeleton s') r)
  /\ (forall p, p ∈ mActiveJoints s' <-> joint_active (mSkeleton s') p).
Proof.
  intros H. destruct (rebuildAllChains_marks s s' H) as [Hchains Hroots].
  split; [exact Hchains|]. split; [exact Hroots|].
  unfold rebuildAllChains in H.
  repeat match type of H with
         | (?m ≫= _) = _ => destruct m; [cbn [mbind option_bind] in H|discriminate]
         end.
  injection H as <-.
  cbn [mSkeleton mActiveJoints set_mActiveJoints set_mActiveRoots set_mChainMap
       set_mJointConfigs set_mSkeleton].
  intros p. rewrite active_after_harvest. unfold joint_active. split.
  - intros Hin. apply list_elem_of_fmap in Hin as [[q j] [-> Hin]].
    apply list_elem_of_filter in Hin as [Hj Hin]. cbn [fst snd] in *.
    apply elem_of_map_items in Hin. rewrite Hin. cbn. f_equal. exact Hj.
  - intros Hp.
    match goal with
    | |- p ∈ (filter _ (map_items ?h)).*1 => destruct (h !! p) as [j|] eqn:Hj
    end; [|discriminate].
    cbn in Hp. injection Hp as Hp. apply list_elem_of_fmap. exists (p, j).
    split; [reflexivity|]. apply list_elem_of_filter. split; [exact Hp|].
    apply elem_of_map_items. exact Hj.
Qed.
End Active.

Lemma rebuildAllChains_active_witness :
  exists s',
    rebuildAllChains (K := Example.kernel) ExampleChains.targeted = Some s'
    /\ chains_active (mSkeleton s') (mChainMap s').
Proof.
  assert (exists s', rebuildAllChains (K := Example.kernel)
                       ExampleChains.targeted = Some s') as (s' & Hrun)
    by (vm_compute; eexists; reflexivity).
  exists s'. split; [exact Hrun|].
  apply (rebuildAllChains_active (K := Example.kernel)
           ExampleChains.targeted s' Hrun).
Defined.

(** ** measureMaxError is a maximum *)

Lemma SFltb_irrefl (x : spec_float) : SFltb x x = false.
Proof.
  unfold SFltb. destruct x as [s|s| |s m e]; simpl; try reflexivity;
    try (destruct s; reflexivity).
  destruct s; rewrite Z.compare_refl, Pos.compare_cont_refl; reflexivity.
Qed.

Lemma SFltb_asym (x y : spec_float) : SFltb x y = true -> SFltb y x = false.
Proof.
  unfold SFltb. destruct (SFcompare x y) as [c|] eqn:Hc; [|discriminate].
  rewrite (SFcompare_antisym x y c Hc). destruct c; simpl; congruence.
Qed.

(* the order of the finite numbers of one sign: first the exponents, then
   the mantissas *)
Lemma SFltb_finite (s1 s2 : bool) (m1 m2 : positive) (e1 e2 : Z) :
  SFltb (S754_finite s1 m1 e1) (S754_finite s2 m2 e2)
  = match s1, s2 with
    | true, false => true
    | false, true => false
    | false, false => (e1 <? e2) || ((e1 =? e2) && (m1 <? m2)%positive)
    | true, true => (e2 <? e1) || ((e1 =? e2) && (m2 <? m1)%positive)
    end.
Proof.
  unfold SFltb, SFcompare. destruct s1, s2; try reflexivity;
    change (Pos.compare_cont Eq m1 m2) with (m1 ?= m2)%positive; unfold Pos.ltb;
    destruct (Z.compare_spec e1 e2) as [->|Hlt|Hgt].
  - rewrite Z.ltb_irrefl, Z.eqb_refl. cbn [orb andb].
    rewrite (Pos.compare_antisym m1 m2). destruct (m1 ?= m2)%positive; reflexivity.
  - rewrite (proj2 (Z.ltb_ge e2 e1)), (proj2 (Z.eqb_neq e1 e2)) by lia. reflexivity.
  - rewrite (proj2 (Z.ltb_lt e2 e1)) by lia. reflexivity.
  - rewrite Z.ltb_irrefl, Z.eqb_refl. cbn [orb andb].
    destruct (m1 ?= m2)%positive; reflexivity.
  - rewrite (proj2 (Z.ltb_lt e1 e2)) by lia. reflexivity.
  - rewrite (proj2 (Z.ltb_ge e1 e2)), (proj2 (Z.eqb_neq e1 e2)) by lia. reflexivity.
Qed.

(* a number below another is below any third number or the third is below
   the other *)
Lemma SFltb_cotrans (x y z : spec_float) :
  F32.is_nan y = false -> SFltb x z = true -> SFltb x y = true \/ SFltb y z = true.
Proof.
  intros Hy Hxz.
  destruct x as [sx|sx| |sx mx ex], y as [sy|sy| |sy my ey], z as [sz|sz| |sz mz ez];
    try discriminate Hy; try discriminate Hxz;
    rewrite ?SFltb_finite in *;
    try (unfold SFltb in *; simpl in *;
         repeat match goal with b : bool |- _ => destruct b end;
         simpl in *; auto; discriminate).
  destruct sx, sy, sz; auto; try discriminate;
    repeat match goal with
           | |- context [?a <? ?b] => destruct (Z.ltb_spec a b)
           | |- context [?a =? ?b] => destruct (Z.eqb_spec a b)
           | H : context [?a <? ?b] |- _ => destruct (Z.ltb_spec a b)
           | H : context [?a =? ?b] |- _ => destruct (Z.eqb_spec a b)
           | |- context [(?a <? ?b)%positive] => destruct (Pos.ltb_spec a b)
           | H : context [(?a <? ?b)%positive] |- _ => destruct (Pos.ltb_spec a b)
           end; simpl in *; auto; try discriminate; try lia.
Qed.

Lemma gtb_le_trans (a b c : F32) :
  F32.is_nan b = false -> F32.gtb a b = false -> F32.gtb b c = false ->
  F32.gtb a c = false.
Proof.
  unfold F32.gtb. intros Hb Hab Hbc. destruct (SFltb c a) eqn:Hca; [|reflexivity].
  destruct (SFltb_cotrans c b a Hb Hca) as [H|H]; congruence.
Qed.

Section MaxError.
Context {K : MathKernel} {P : Projection}.

(* one round of the loop of measureMaxError *)
Lemma measureMaxError_loop (s : Solver.t) (l : list (Z * Config.t)) :
  let step := fun (max_error : F32) (data_pair : Z * Config.t) =>
                let joint_id := data_pair.1 in
                let target := data_pair.2 in
                if joint_id =? mRootID s then Some max_error
                else if Config.hasTargetPos target && negb (Config.hasDelegated target)
                then
                  joint ← mSkeleton s !! joint_id;
                  let end_pos := Joint.computeWorldEndPos joint in
                  let dist := dist_vec end_pos (Config.mTargetPos target) in
                  Some (if F32.gtb dist max_error then dist else max_error)
                else Some max_error in
  forall (acc e : F32),
    F32.is_nan acc = false ->
    foldM step acc l = Some e ->
    F32.is_nan e = false
    /\ F32.gtb acc e = false
    /\ (forall id target joint, (id, target) ∈ l -> id <> mRootID s ->
          Config.hasTargetPos target = true -> Config.hasDelegated target = false ->
          mSkeleton s !! id = Some joint ->
          F32.gtb (target_error joint target) e = false)
    /\ (e = acc
        \/ exists id target joint,
             (id, target) ∈ l /\ id <> mRootID s
             /\ Config.hasTargetPos target = true /\ Config.hasDelegated target = false
             /\ mSkeleton s !! id = Some joint /\ e = target_error joint target).
Proof.
  intros step. induction l as [|[id target] l IH]; intros acc e Hacc H; cbn [foldM] in H.
  - injection H as <-. split; [exact Hacc|]. split; [apply SFltb_irrefl|].
    split; [|left; reflexivity]. intros id target joint Hin. inversion Hin.
  - assert (Hskip : foldM step acc l = Some e ->
              (id =? mRootID s) || negb (Config.hasTargetPos target)
              || Config.hasDelegated target = true ->
              F32.is_nan e = false
              /\ F32.gtb acc e = false
              /\ (forall id0 target0 joint, (id0, target0) ∈ (id, target) :: l ->
                    id0 <> mRootID s ->
                    Config.hasTargetPos target0 = true ->
                    Config.hasDelegated target0 = false ->
                    mSkeleton s !! id0 = Some joint ->
                    F32.gtb (target_error joint target0) e = false)
              /\ (e = acc
                  \/ exists id0 target0 joint,
                       (id0, target0) ∈ (id, target) :: l /\ id0 <> mRootID s
                       /\ Config.hasTargetPos target0 = true
                       /\ Config.hasDelegated target0 = false
                       /\ mSkeleton s !! id0 = Some joint
                       /\ e = target_error joint target0)).
    { intros Hrest Hcond. destruct (IH acc e Hacc Hrest) as (Hnan & Hle & Hall & Hex).
      split; [exact Hnan|]. split; [exact Hle|]. split.
      - intros id0 target0 joint [[= -> ->]|Hin]%elem_of_cons Hroot Hpos Hdel Hj.
        + apply Z.eqb_neq in Hroot. rewrite Hroot, Hpos, Hdel in Hcond. discriminate.
        + eapply Hall; eassumption.
      - destruct Hex as [->|(id0 & target0 & joint & Hin & Hrest')]; [left; reflexivity|].
        right. exists id0, target0, joint. split; [right; exact Hin|exact Hrest']. }
    destruct (step acc (id, target)) as [acc'|] eqn:Hstep; [|discriminate].
    cbn [mbind option_bind] in H. unfold step in Hstep. cbn [fst snd] in Hstep.
    cbv zeta in Hstep.
    destruct (id =? mRootID s) eqn:Hroot;
      [injection Hstep as <-; apply Hskip; [exact H | reflexivity]|].
    destruct (Config.hasTargetPos target) eqn:Hpos; cbn [andb] in Hstep;
      [|injection Hstep as <-; apply Hskip; [exact H | reflexivity]].
    destruct (Config.hasDelegated target) eqn:Hdel; cbn [negb] in Hstep;
      [injection Hstep as <-; apply Hskip; [exact H | reflexivity]|].
    clear Hskip.
    destruct (mSkeleton s !! id) as [joint|] eqn:Hj; [|discriminate].
    cbn [mbind option_bind] in Hstep. fold (target_error joint target) in Hstep.
    set (d := target_error joint target) in *. injection Hstep as Hstep.
    assert (Hacc' : F32.is_nan acc' = false).
    { subst acc'. destruct (F32.gtb d acc) eqn:Hgt; [eapply gtb_not_nan; exact Hgt|exact Hacc]. }
    assert (Hle1 : F32.gtb acc acc' = false).
    { subst acc'. destruct (F32.gtb d acc) eqn:Hgt; [|apply SFltb_irrefl].
      unfold F32.gtb in *. apply SFltb_asym. exact Hgt. }
    assert (Hle2 : F32.gtb d acc' = false).
    { subst acc'. destruct (F32.gtb d acc) eqn:Hgt; [apply SFltb_irrefl|exact Hgt]. }
    destruct (IH acc' e Hacc' H) as (Hnan & Hle & Hall & Hex).
    split; [exact Hnan|]. split; [exact (gtb_le_trans acc acc' e Hacc' Hle1 Hle)|]. split.
    + intros id0 target0 joint0 [[= -> ->]|Hin]%elem_of_cons Hroot0 Hpos0 Hdel0 Hj0.
      * rewrite Hj in Hj0. injection Hj0 as <-. fold d.
        exact (gtb_le_trans d acc' e Hacc' Hle2 Hle).
      * eapply Hall; eassumption.
    + destruct Hex as [->|(id0 & target0 & joint0 & Hin & Hrest')].
      * subst acc'. destruct (F32.gtb d acc); [|left; reflexivity].
        right. exists id, target, joint. apply Z.eqb_neq in Hroot.
        repeat split; try assumption. left.
      * right. exists id0, target0, joint0. split; [right; exact Hin|exact Hrest'].
Qed.

Lemma foldM_is_Some {A B : Type} (f : B -> A -> option B) (l : list A) :
  (forall b a, a ∈ l -> is_Some (f b a)) -> forall b, is_Some (foldM f b l).
Proof.
  induction l as [|a l IH]; intros Hf b; simpl; [eauto|].
  destruct (Hf b a) as [b' Hb']; [left|]. rewrite Hb'. cbn [mbind option_bind].
  apply IH. intros b0 a0 Hin. apply Hf. right. exact Hin.
Qed.

(** X15: measureMaxError returns exactly when every entry it measures (not
    the root's, with a position target, not delegated) names a joint of the
    skeleton; what it returns is the maximum of 0 and the distances from the
    end of each measured joint to its target: it is not NaN, not below 0,
    no measured distance is above it (a NaN distance is passed over), and
    it is 0 or one of the measured distances. *)
Theorem measureMaxError_max (s : Solver.t) :
  (is_Some (measureMaxError s)
   <-> forall id target, measured_target s id target -> is_Some (mSkeleton s !! id))
  /\ forall e, measureMaxError s = Some e ->
       F32.is_nan e = false
       /\ F32.gtb F32.zero e = false
       /\ (forall id target joint,
             measured_target s id target -> mSkeleton s !! id = Some joint ->
             F32.gtb (target_error joint target) e = false)
       /\ (e = F32.zero
           \/ exists id target joint,
                measured_target s id target /\ mSkeleton s !! id = Some joint
                /\ e = target_error joint target).
Proof.
  split; [split|].
  - intros Hsome id target (Hcfg & Hroot & Hpos & Hdel).
    destruct (mSkeleton s !! id) as [joint|] eqn:Hj; [eauto|].
    rewrite (measureMaxError_unknown_joint s id target Hcfg Hroot Hpos Hdel Hj) in Hsome.
    destruct Hsome as [? [=]].
  - intros Hall. unfold measureMaxError. apply foldM_is_Some.
    intros b [id target] Hin. apply elem_of_map_items in Hin. cbn [fst snd].
    destruct (id =? mRootID s) eqn:Hroot; [eauto|].
    destruct (Config.hasTargetPos target) eqn:Hpos; [|eauto].
    destruct (Config.hasDelegated target) eqn:Hdel; [eauto|]. cbn [andb negb].
    apply Z.eqb_neq in Hroot.
    destruct (Hall id target) as [joint Hj]; [repeat split; assumption|].
    rewrite Hj. eauto.
  - intros e H. unfold measureMaxError in H.
    apply (measureMaxError_loop s) in H; [|reflexivity].
    destruct H as (Hnan & Hle & Hall & Hex). split; [exact Hnan|]. split; [exact Hle|].
    split.
    + intros id target joint (Hcfg & Hroot & Hpos & Hdel) Hj.
      eapply Hall; try eassumption. apply elem_of_map_items. exact Hcfg.
    + destruct Hex as [->|(id & target & joint & Hin & Hroot & Hpos & Hdel & Hj & ->)];
        [left; reflexivity|].
      right. exists id, target, joint. apply elem_of_map_items in Hin.
      repeat split; assumption.
Qed.
End MaxError.

(** ** The chains are paths toward the root *)

Lemma ids_consistent_b_correct (h : Heap) : ids_consistent_b h = true -> ids_consistent h.
Proof.
  unfold ids_consistent_b, ids_consistent. rewrite forallb_forall. intros Hall p j Hp.
  specialize (Hall (p, j)). cbn [fst snd] in Hall.
  assert (Hin : In (p, j) (map_to_list h))
    by (apply list_elem_of_In, elem_of_map_to_list; exact Hp).
  apply Hall in Hin. apply andb_prop in Hin as [Hin Hlt]. apply andb_prop in Hin as [Hid Hge].
  apply Z.eqb_eq in Hid. apply Z.leb_le in Hge. apply Z.ltb_lt in Hlt. lia.
Qed.

Lemma same_shape_parent (h h' : Heap) (p : Z) :
  same_shape h h' -> Joint.mParent <$> h' !! p = Joint.mParent <$> h !! p.
Proof.
  intros Hs. specialize (Hs p).
  destruct (h' !! p) as [j'|], (h !! p) as [j|]; cbn in *; try congruence.
  injection Hs as Hs. unfold Joint_shape in Hs. congruence.
Qed.

Lemma same_shape_ID (h h' : Heap) (p : Z) :
  same_shape h h' -> Joint.mID <$> h' !! p = Joint.mID <$> h !! p.
Proof.
  intros Hs. specialize (Hs p).
  destruct (h' !! p) as [j'|], (h !! p) as [j|]; cbn in *; try congruence.
  injection Hs as Hs. unfold Joint_shape in Hs. congruence.
Qed.

Lemma chain_path_shape (h h' : Heap) (chain : list Z) :
  same_shape h h' -> chain_path h chain -> chain_path h' chain.
Proof.
  intros Hs. induction chain as [|p [|q rest] IH]; simpl; auto.
  intros [Hp Hrest]. split; [rewrite (same_shape_parent h h' p Hs); exact Hp|].
  apply IH. exact Hrest.
Qed.

Lemma chain_path_snoc (h : Heap) (chain : list Z) (p : Z) :
  chain_path h chain ->
  (forall l, last chain = Some l -> Joint.mParent <$> h !! l = Some (Some p)) ->
  chain_path h (chain ++ [p]).
Proof.
  induction chain as [|a [|b rest] IH]; intros Hpath Hlast.
  - exact I.
  - simpl. split; [apply Hlast; reflexivity | exact I].
  - destruct Hpath as [Ha Hrest]. change ((a :: b :: rest) ++ [p])
      with (a :: ((b :: rest) ++ [p])).
    change (chain_path h (a :: ((b :: rest) ++ [p])))
      with (Joint.mParent <$> h !! a = Some (Some b) /\ chain_path h ((b :: rest) ++ [p])).
    split; [exact Ha|]. apply IH; [exact Hrest|]. intros l Hl. apply Hlast. exact Hl.
Qed.

(* a chain that ends where another starts, and the other without its first
   joint *)
Lemma chain_path_glue (h : Heap) (r : list Z) (d : Z) (rest : list Z) :
  chain_path h (r ++ [d]) -> chain_path h (d :: rest) -> chain_path h (r ++ d :: rest).
Proof.
  induction r as [|a [|b r] IH]; intros Hr Hd.
  - exact Hd.
  - simpl in *. split; [apply Hr | exact Hd].
  - destruct Hr as [Ha Hr]. split; [exact Ha|]. apply IH; assumption.
Qed.

Section Paths.
Context {K : MathKernel} {P : Projection}.

Lemma buildChain_walk_path (s : Solver.t) (h0 : Heap) (fuel : nat) :
  forall (joint : option Z) (chain : list Z) (sub_bases : gset Z) (h h' : Heap)
         (chain' : list Z) (sub_bases' : gset Z),
    same_shape h0 h -> chain_path h0 chain ->
    (forall l, last chain = Some l -> Joint.mParent <$> h0 !! l = Some joint) ->
    buildChain_walk s fuel joint chain sub_bases h = Some (h', chain', sub_bases') ->
    chain_path h0 chain'.
Proof.
  induction fuel as [|fuel IH];
    intros joint chain sub_bases h h' chain' sub_bases' Hs Hpath Hlast H.
  - simpl in H. injection H as _ <- _. exact Hpath.
  - destruct joint as [p|]; simpl in H; [|injection H as _ <- _; exact Hpath].
    destruct (h !! p) as [j|] eqn:Hj; [|discriminate]. cbn [mbind option_bind] in H.
    assert (Hpath' : chain_path h0 (chain ++ [p])).
    { apply chain_path_snoc; [exact Hpath|]. intros l Hl. apply Hlast. exact Hl. }
    repeat match type of H with
           | (if ?c then _ else _) = _ =>
               destruct c; [injection H as _ <- _; exact Hpath'|]
           end.
    eapply IH; [| exact Hpath' | | exact H].
    + unfold write. eapply same_shape_insert; [exact Hs | exact Hj | reflexivity].
    + intros l Hl. rewrite last_snoc in Hl. injection Hl as <-.
      rewrite <- (same_shape_parent h0 h p Hs), Hj. reflexivity.
Qed.

Lemma buildChain_path (s : Solver.t) (h0 : Heap) (joint : Z) (sub_bases : gset Z)
    (chain_length : Z) (h h' : Heap) (chain : list Z) (sub_bases' : gset Z) :
  same_shape h0 h ->
  buildChain s joint [] sub_bases chain_length h = Some (h', chain, sub_bases') ->
  chain_path h0 chain.
Proof.
  unfold buildChain. intros Hs H.
  destruct (h !! joint) as [j|] eqn:Hj; [|discriminate]. cbn [mbind option_bind] in H.
  cbv zeta in H. eapply buildChain_walk_path; [| | |exact H].
  - unfold write. eapply same_shape_insert; [exact Hs | exact Hj | reflexivity].
  - exact I.
  - intros l [= <-]. rewrite <- (same_shape_parent h0 h joint Hs), Hj. reflexivity.
Qed.

Lemma addChain_path (s : Solver.t) (h0 : Heap) (joint_id joint chain_length : Z)
    (b b' : Build) :
  same_shape h0 (b_heap b) -> chains_paths h0 (b_chains b) ->
  addChain s joint_id joint chain_length b = Some b' ->
  chains_paths h0 (b_chains b').
Proof.
  unfold addChain. intros Hs Hc H.
  destruct (buildChain _ _ _ _ _ _) as [[[h1 chain1] sb1]|] eqn:E; [|discriminate].
  cbn [mbind option_bind] in H. injection H as <-. cbn [b_chains].
  apply (buildChain_path _ h0) in E; [|exact Hs].
  intros id chain Hid. destruct (decide (id = joint_id)) as [->|Hne].
  - rewrite lookup_insert_eq in Hid. injection Hid as <-. exact E.
  - rewrite lookup_insert_ne in Hid by congruence. eapply Hc; exact Hid.
Qed.

Lemma applyConfig_path (s : Solver.t) (h0 : Heap) (joint_id : Z) (b b' : Build) :
  same_shape h0 (b_heap b) -> chains_paths h0 (b_chains b) ->
  applyConfig s joint_id b = Some b' -> chains_paths h0 (b_chains b').
Proof.
  unfold applyConfig, write. intros Hs Hc H.
  destruct (b_configs b !! joint_id) as [config|]; [|discriminate].
  cbn [mbind option_bind] in H.
  destruct (b_heap b !! joint_id) as [joint|] eqn:Hj; [|injection H as <-; exact Hc].
  destruct (Joint.getID (Joint.setConfig joint_id config joint) =? mRootID s).
  { cbv zeta in H. destruct (negb (Z.land _ MASK_ROT =? 0)); injection H as <-; exact Hc. }
  set (b0 := mkBuild _ _ _ _ _) in H.
  assert (Hb0 : chains_paths h0 (b_chains b0)) by exact Hc.
  assert (Hs0 : same_shape h0 (b_heap b0)).
  { subst b0. cbn [b_heap]. eapply same_shape_insert; [exact Hs | exact Hj | shape_eq]. }
  clearbody b0.
  destruct (Config.hasDelegated config); [injection H as <-; exact Hb0|].
  match type of H with
  | (?m ≫= _) = _ => destruct m as [b1|] eqn:Hb1; [|discriminate]
  end.
  cbn [mbind option_bind] in H.
  assert (Hpath1 : chains_paths h0 (b_chains b1)).
  { destruct (Config.hasTargetPos config).
    - destruct (addChain s joint_id joint_id (Config.getChainLimit config) b0)
        as [b2|] eqn:Hadd; [|discriminate].
      pose proof (addChain_path _ _ _ _ _ _ _ Hs0 Hb0 Hadd) as Hb2.
      cbn [mbind option_bind] in Hb1.
      open_result Hb1; injection Hb1 as <-; exact Hb2.
    - destruct (Config.hasTargetRot config).
      + eapply addChain_path; eassumption.
      + injection Hb1 as <-. exact Hb0. }
  match type of H with
  | (?m ≫= _) = _ => destruct m as [h1|]; [|discriminate]
  end.
  cbn [mbind option_bind] in H.
  match type of H with
  | (?m ≫= _) = _ => destruct m as [h2|]; [|discriminate]
  end.
  cbn [mbind option_bind] in H. injection H as <-. exact Hpath1.
Qed.

Lemma buildSubBaseChains_path (s : Solver.t) (h0 : Heap) (rounds : nat) :
  forall b b', same_shape h0 (b_heap b) -> chains_paths h0 (b_chains b) ->
               buildSubBaseChains s rounds b = Some b' ->
               chains_paths h0 (b_chains b').
Proof.
  induction rounds as [|rounds IH]; intros b b' Hs Hc H; simpl in H.
  - destruct (bool_decide _); [injection H as <-; exact Hc|discriminate].
  - destruct (bool_decide _); [injection H as <-; exact Hc|].
    match type of H with
    | (?m ≫= _) = _ => destruct m as [b1|] eqn:Hb1; [|discriminate]
    end.
    cbn [mbind option_bind] in H.
    assert (Hinv : same_shape h0 (b_heap b1) /\ chains_paths h0 (b_chains b1)).
    { refine (foldM_invariant
                (fun b => same_shape h0 (b_heap b) /\ chains_paths h0 (b_chains b))
                _ _ _ _ _ _ Hb1); [|split; [exact Hs|exact Hc]].
      intros b2 id b3 [Hs2 Hc2] Hstep.
      destruct (b_heap b2 !! id); [|discriminate]. cbn [mbind option_bind] in Hstep.
      split; [|eapply addChain_path; eassumption].
      eapply same_shape_trans; [exact Hs2|]. eapply addChain_shape; exact Hstep. }
    destruct Hinv as [Hs1 Hc1]. eapply IH; eassumption.
Qed.

Lemma findRecipient_last (h : Heap) (id : Z) (items : list (Z * list Z))
    (k : Z) (recipient : list Z) :
  findRecipient h id items = Some (Some (k, recipient)) ->
  exists p inner_end,
    last recipient = Some p /\ h !! p = Some inner_end /\ Joint.getID inner_end = id.
Proof.
  induction items as [|[k' r'] items IH]; simpl; [discriminate|].
  destruct (last r') as [p|] eqn:Hlast; [|discriminate]. cbn [mbind option_bind].
  destruct (h !! p) as [inner_end|] eqn:Hp; [|discriminate]. cbn [mbind option_bind].
  destruct (Joint.getID inner_end =? id) eqn:Hid.
  - intros [= <- <-]. apply Z.eqb_eq in Hid. eauto.
  - exact IH.
Qed.

Lemma makeJoin_path (h0 h : Heap) (chains chains' : gmap Z (list Z)) (id : Z) :
  same_shape h0 h -> ids_consistent h0 ->
  chains_keyed chains -> chains_paths h0 chains ->
  makeJoin h chains id = Some chains' -> chains_paths h0 chains'.
Proof.
  unfold makeJoin. intros Hs Hids Hkeyed Hc H.
  destruct (findRecipient h id (map_items chains)) as [[[k recipient]|]|] eqn:Hfind;
    [| injection H as <-; exact Hc | discriminate].
  cbn [mbind option_bind] in H.
  destruct (findRecipient_last _ _ _ _ _ Hfind) as (p & inner_end & Hlast & Hp & Hid).
  apply findRecipient_elem, elem_of_map_items in Hfind.
  destruct (chains !! to_S16 id) as [donor|] eqn:Hdonor; simpl in H; [|discriminate].
  destruct donor as [|d rest]; [discriminate|].
  injection H as <-. intros id' chain Hid'.
  apply lookup_delete_Some in Hid' as [Hne Hid'].
  destruct (decide (id' = k)) as [->|Hk];
    [|rewrite lookup_insert_ne in Hid' by congruence; eapply Hc; exact Hid'].
  rewrite lookup_insert_eq in Hid'. injection Hid' as <-.
  (* the donor starts at the inner end of the recipient *)
  assert (Hd : d = p).
  { pose proof (Hkeyed _ _ Hdonor) as Hhead. injection Hhead as ->.
    pose proof (same_shape_ID h0 h p Hs) as HID. rewrite Hp in HID. cbn in HID.
    destruct (h0 !! p) as [j0|] eqn:Hp0; [|discriminate]. cbn in HID. injection HID as HID.
    destruct (Hids p j0 Hp0) as [Hmid Hrange]. unfold Joint.getID in Hid.
    assert (id = p) as -> by congruence.
    unfold to_S16. rewrite Z.mod_small by lia. lia. }
  subst d. apply last_Some in Hlast as [r ->]. rewrite <- app_assoc.
  apply chain_path_glue; [eapply Hc; exact Hfind | eapply Hc; exact Hdonor].
Qed.

(** X16: when every joint of the skeleton is filed under its own id and the
    ids fit an S16, every chain that rebuildAllChains leaves in the chain
    map, also a joined one, is a path toward the root: each of its joints
    but the last is a joint of the skeleton whose parent is the next joint
    of the chain. *)
Theorem rebuildAllChains_paths (s s' : Solver.t) :
  ids_consistent (mSkeleton s) -> rebuildAllChains s = Some s' ->
  chains_paths (mSkeleton s') (mChainMap s').
Proof.
  intros Hids H. pose proof (rebuildAllChains_shape s s' H) as Hshape.
  intros id chain Hid. apply (chain_path_shape (mSkeleton s)); [exact Hshape|].
  revert id chain Hid. change (chains_paths (mSkeleton s) (mChainMap s')).
  unfold rebuildAllChains in H.
  match type of H with
  | (?m ≫= _) = _ => destruct m as [h1|] eqn:E1; [|discriminate]
  end.
  cbn [mbind option_bind] in H.
  match type of H with
  | (?m ≫= _) = _ => destruct m as [b2|] eqn:E2; [|discriminate]
  end.
  cbn [mbind option_bind] in H.
  match type of H with
  | (?m ≫= _) = _ => destruct m as [b3|] eqn:E3; [|discriminate]
  end.
  cbn [mbind option_bind] in H.
  destruct (findJoins _ _ _) as [joins|]; [|discriminate]. cbn [mbind option_bind] in H.
  match type of H with
  | (?m ≫= _) = _ => destruct m as [chains|] eqn:E4; [|discriminate]
  end.
  cbn [mbind option_bind] in H.
  match type of H with
  | (?m ≫= _) = _ => destruct m as [roots|]; [|discriminate]
  end.
  cbn [mbind option_bind] in H. injection H as <-.
  cbn [mChainMap set_mActiveJoints set_mActiveRoots set_mChainMap].
  assert (Hs1 : same_shape (mSkeleton s) h1).
  { refine (foldM_same_shape _ _ _ _ _ E1). intros h a h' Hstep.
    refine (foldM_same_shape _ _ _ _ _ Hstep). intros h2 p h2' Hp.
    eapply on_joint_shape; [|exact Hp]. intros j. shape_eq. }
  assert (Hb2 : same_shape (mSkeleton s) (b_heap b2)
                /\ chains_keyed (b_chains b2)
                /\ chains_paths (mSkeleton s) (b_chains b2)).
  { refine (foldM_invariant
              (fun b => same_shape (mSkeleton s) (b_heap b)
                        /\ chains_keyed (b_chains b)
                        /\ chains_paths (mSkeleton s) (b_chains b))
              _ _ _ _ _ _ E2).
    - intros b a b' (Hs & Hk & Hc) Hstep. split; [|split].
      + eapply same_shape_trans; [exact Hs|]. eapply applyConfig_shape; exact Hstep.
      + eapply applyConfig_keyed; eassumption.
      + eapply applyConfig_path; eassumption.
    - split; [exact Hs1|]. split; intros id chain Hid; cbn [b_chains] in Hid;
        rewrite lookup_empty in Hid; discriminate. }
  destruct Hb2 as (Hs2 & Hk2 & Hc2).
  pose proof (buildSubBaseChains_shape _ _ _ _ E3) as Hs3.
  pose proof (buildSubBaseChains_keyed _ _ _ _ Hk2 E3) as Hk3.
  pose proof (buildSubBaseChains_path _ _ _ _ _ Hs2 Hc2 E3) as Hc3.
  assert (Hs03 : same_shape (mSkeleton s) (b_heap b3))
    by (eapply same_shape_trans; eassumption).
  refine (proj2 (foldM_invariant
            (fun c => chains_keyed c /\ chains_paths (mSkeleton s) c)
            _ _ _ _ _ _ E4)); [|split; assumption].
  intros c a c' [Hk Hc] Hstep. split.
  - eapply makeJoin_keyed; eassumption.
  - eapply makeJoin_path; eassumption.
Qed.
End Paths.

Lemma rebuildAllChains_paths_witness :
  exists s',
    rebuildAllChains (K := Example.kernel) ExampleChains.targeted = Some s'
    /\ chains_paths (mSkeleton s') (mChainMap s').
Proof.
  assert (exists s', rebuildAllChains (K := Example.kernel) ExampleChains.targeted = Some s')
    as (s' & Hrun) by (vm_compute; eexists; reflexivity).
  exists s'. split; [exact Hrun|].
  apply (rebuildAllChains_paths (K := Example.kernel) ExampleChains.targeted s');
    [|exact Hrun].
  apply ids_consistent_b_correct. vm_compute. reflexivity.
Defined.

(** ** What the passes move *)

Lemma moves_within_refl (h0 : Heap) : moves_within h0 h0.
Proof. intros p. split; reflexivity. Qed.

Lemma moves_within_insert (h0 h : Heap) (p : Z) (j j' : Joint.t) :
  moves_within h0 h -> h !! p = Some j -> Joint_static j' = Joint_static j ->
  touchable h0 p -> moves_within h0 (<[p := j']> h).
Proof.
  intros Hm Hj Hstatic Htouch q. destruct (decide (q = p)) as [->|Hne].
  - rewrite lookup_insert_eq. destruct (Hm p) as [Hs _]. rewrite Hj in Hs. cbn in *.
    rewrite Hstatic. split; [exact Hs|]. intros Hnot. contradiction.
  - rewrite lookup_insert_ne by congruence. apply Hm.
Qed.

Lemma moves_within_static (h0 h : Heap) (p : Z) (j : Joint.t) :
  moves_within h0 h -> h !! p = Some j ->
  exists j0, h0 !! p = Some j0 /\ Joint_static j = Joint_static j0.
Proof.
  intros Hm Hj. destruct (Hm p) as [Hs _]. rewrite Hj in Hs.
  destruct (h0 !! p) as [j0|]; [|discriminate]. cbn in Hs.
  exists j0. split; [reflexivity | congruence].
Qed.

Lemma moves_within_active (h0 h : Heap) (c : Z) (j : Joint.t) :
  moves_within h0 h -> h !! c = Some j -> Joint.isActive j = true -> joint_active h0 c.
Proof.
  intros Hm Hj Hact. destruct (moves_within_static h0 h c j Hm Hj) as (j0 & Hj0 & Hs).
  unfold joint_active. rewrite Hj0. cbn. f_equal. rewrite <- Hact.
  unfold Joint.isActive. unfold Joint_static in Hs. congruence.
Qed.

Lemma moves_within_parent (h0 h : Heap) (this : Z) (j : Joint.t) (pp : Z) :
  moves_within h0 h -> joint_active h0 this -> h !! this = Some j ->
  Joint.mParent j = Some pp -> touchable h0 pp.
Proof.
  intros Hm Hact Hj Hp. destruct (moves_within_static h0 h this j Hm Hj) as (j0 & Hj0 & Hs).
  right. exists this. split; [exact Hact|]. rewrite Hj0. cbn. do 2 f_equal.
  rewrite <- Hp. unfold Joint_static, Joint_shape in Hs. congruence.
Qed.

Lemma moves_within_shape (h0 h : Heap) : moves_within h0 h -> same_shape h0 h.
Proof.
  intros Hm p. destruct (Hm p) as [Hs _].
  destruct (h !! p) as [j|], (h0 !! p) as [j0|]; cbn in *; try congruence.
  unfold Joint_static in Hs. congruence.
Qed.

Create HintDb moves.

Ltac static_eq :=
  first [ shape_eq_direct
        | match goal with
          | E : _ = Some ?j' |- Joint_static ?j' = _ =>
              open_result E; injection E as <-; shape_eq_direct
          end ].

Ltac moves_solve :=
  lazymatch goal with
  | |- moves_within ?h ?h => apply moves_within_refl
  | H : moves_within ?h0 ?h |- moves_within ?h0 ?h => exact H
  | |- moves_within ?h0 (<[?p := ?j']> ?h) =>
      eapply (moves_within_insert h0 h p);
      [moves_solve | shape_lookup | static_eq | touch_solve]
  | |- moves_within ?h0 ?h => solve [eauto 6 with moves]
  end
with touch_solve :=
  solve [ left; assumption
        | match goal with
          | Hact : joint_active ?h0 ?this, Hl : ?h !! ?this = Some ?j,
            Hp : Joint.mParent ?j = Some ?pp |- touchable ?h0 ?pp =>
              eapply (moves_within_parent h0 h this j pp);
              [moves_solve | exact Hact | exact Hl | exact Hp]
          end ].

#[global] Hint Extern 0 (moves_within _ (<[_ := _]> _)) => moves_solve : moves.

Section Moves.
Context {K : MathKernel} {P : Projection}.
Variable h0 : Heap.

Lemma updateLocalRot_false_moves (this : Z) (h h' : Heap) (b : bool) :
  updateLocalRot_false this h = Some (h', b) ->
  moves_within h0 h -> joint_active h0 this -> moves_within h0 h'.
Proof.
  unfold updateLocalRot_false, updateLocalRot_with, write. intros H Hm Hact.
  open_result H; injection H as <- <-; moves_solve.
Qed.

Lemma Constraint_enforce_moves (c : Constraint.t) (this : Z) (h h' : Heap) (b : bool) :
  Constraint_enforce c this h = Some (h', b) ->
  moves_within h0 h -> joint_active h0 this -> moves_within h0 h'.
Proof.
  unfold Constraint_enforce, write. intros H Hm Hact.
  open_result H; injection H as <- <-; moves_solve.
Qed.

#[local] Hint Resolve updateLocalRot_false_moves Constraint_enforce_moves : moves.

Lemma ElbowConstraint_enforce_moves (c : Constraint.t) (mPivotAxis : LLVector3)
    (mMinTwist mMaxTwist : F32) (this : Z) (h h' : Heap) (b : bool) :
  ElbowConstraint_enforce c mPivotAxis mMinTwist mMaxTwist this h = Some (h', b) ->
  moves_within h0 h -> joint_active h0 this -> moves_within h0 h'.
Proof.
  unfold ElbowConstraint_enforce, write. intros H Hm Hact.
  destruct (h !! this) as [elbow|] eqn:He; [|discriminate].
  cbn [mbind option_bind] in H.
  destruct (Joint.mParent elbow) as [shoulder_joint|] eqn:Hpar; [|eauto with moves].
  assert (Htouch : touchable h0 shoulder_joint) by touch_solve.
  destruct (h !! shoulder_joint) as [shoulder|] eqn:Hs; [|discriminate].
  cbn [mbind option_bind] in H.
  destruct (bend_geometry mPivotAxis shoulder elbow)
    as [[[bend_pivot lower_pivot] upper_pivot] lower_arm].
  destruct (compute_clamped_angle _ mMinTwist mMaxTwist) as [new_twist|]; [|discriminate].
  cbn [mbind option_bind] in H.
  match type of H with
  | (?m ≫= _) = _ => destruct m as [[h1 b1]|] eqn:H1; [|discriminate]
  end.
  assert (Hm1 : moves_within h0 h1).
  { destruct (F32.neqb new_twist _); [|injection H1 as <- <-; moves_solve].
    cbn [mbind option_bind] in H1. injection H1 as <- <-. moves_solve. }
  clear H1. cbn [mbind option_bind] in H.
  destruct (h1 !! shoulder_joint) as [shoulder1|] eqn:Hsh1; [|discriminate].
  cbn [mbind option_bind] in H.
  match type of H with
  | (?m ≫= _) = _ => destruct m as [[h2 b2]|] eqn:H2; [|discriminate]
  end.
  assert (Hm2 : moves_within h0 h2).
  { destruct (negb (almost_equal_tol _ _ _)); [|injection H2 as <- <-; exact Hm1].
    unfold Joint.setWorldRot in H2. cbn [Joint.mParent Joint.set_mRot] in H2.
    destruct (Joint.mParent shoulder1).
    - destruct (updateLocalRot_false _ _) as [[h3 b3]|] eqn:H3; [|discriminate].
      cbn [mbind option_bind fmap option_fmap option_map fst] in H2.
      injection H2 as <- <-.
      assert (Hparent_active : moves_within h0 (<[shoulder_joint := Joint.set_mRot
                (quat_normalize (quat_mul (Joint.mRot shoulder1)
                   (shortestArc upper_pivot bend_pivot))) shoulder1]> h1)).
      { eapply moves_within_insert; [exact Hm1 | exact Hsh1 | reflexivity | exact Htouch]. }
      revert H3 Hparent_active. clear -Htouch. intros H3 Hm3.
      unfold updateLocalRot_false, updateLocalRot_with, write in H3.
      open_result H3; injection H3 as <- <-; try exact Hm3.
      eapply moves_within_insert; [exact Hm3 | eassumption | reflexivity | exact Htouch].
    - cbn [mbind option_bind] in H2. injection H2 as <- <-.
      eapply moves_within_insert; [|apply lookup_insert_eq| |exact Htouch].
      + eapply moves_within_insert; [exact Hm1 | exact Hsh1 | reflexivity | exact Htouch].
      + shape_eq_direct. }
  clear H2. cbn [mbind option_bind] in H.
  destruct b2; [|injection H as <- <-; exact Hm2].
  open_result H. injection H as <- <-. destruct p as [h3 b3]. cbn [fst]. moves_solve.
Qed.

Lemma KneeConstraint_enforce_moves (c : Constraint.t) (mPivotAxis : LLVector3)
    (this : Z) (h h' : Heap) (b : bool) :
  KneeConstraint_enforce c mPivotAxis this h = Some (h', b) ->
  moves_within h0 h -> joint_active h0 this -> moves_within h0 h'.
Proof.
  unfold KneeConstraint_enforce, write. intros H Hm Hact.
  destruct (h !! this) as [knee|] eqn:Hk; [|discriminate].
  cbn [mbind option_bind] in H.
  destruct (Joint.mParent knee) as [hip_joint|] eqn:Hpar; [|eauto with moves].
  assert (Htouch : touchable h0 hip_joint) by touch_solve.
  destruct (h !! hip_joint) as [hip|] eqn:Hh; [|discriminate].
  cbn [mbind option_bind] in H.
  destruct (bend_geometry mPivotAxis hip knee)
    as [[[bend_pivot lower_pivot] upper_pivot] lower_leg].
  match type of H with
  | (?m ≫= _) = _ => destruct m as [[[h1 knee_rot] b1]|] eqn:H1; [|discriminate]
  end.
  assert (Hm1 : moves_within h0 h1).
  { destruct (F32.gtb _ MIN_KNEE_TWIST); [|injection H1 as <- _ _; moves_solve].
    cbn [mbind option_bind] in H1. injection H1 as <- _ _. moves_solve. }
  clear H1. cbn [mbind option_bind] in H.
  destruct (h1 !! hip_joint) as [hip1|] eqn:Hh1; [|discriminate].
  cbn [mbind option_bind] in H.
  match type of H with
  | (?m ≫= _) = _ => destruct m as [[[h2 hip_rot] b2]|] eqn:H2; [|discriminate]
  end.
  assert (Hm2 : moves_within h0 h2).
  { destruct (negb (almost_equal_tol _ _ _)); [|injection H2 as <- _ _; exact Hm1].
    open_result H2; injection H2 as <- _ _;
      (eapply moves_within_insert; [exact Hm1 | exact Hh1 | shape_eq_direct | exact Htouch]). }
  clear H2. cbn [mbind option_bind] in H.
  destruct b2; [|injection H as <- <-; exact Hm2].
  open_result H. injection H as <- <-. moves_solve.
Qed.

#[local] Hint Resolve ElbowConstraint_enforce_moves KneeConstraint_enforce_moves : moves.

Lemma enforceConstraint_moves (this : Z) (h h' : Heap) (b : bool) :
  enforceConstraint this h = Some (h', b) ->
  moves_within h0 h -> joint_active h0 this -> moves_within h0 h'.
Proof.
  unfold enforceConstraint, enforce. intros H Hm Hact. open_result H;
    try (injection H as <- <-; moves_solve); eauto with moves.
Qed.
#[local] Hint Resolve enforceConstraint_moves : moves.

Lemma updateLocalRot_moves (enforce_constraints : bool) (this : Z) (h h' : Heap)
    (b : bool) :
  updateLocalRot enforce_constraints this h = Some (h', b) ->
  moves_within h0 h -> joint_active h0 this -> moves_within h0 h'.
Proof.
  unfold updateLocalRot, updateLocalRot_with, write. intros H Hm Hact. open_result H;
    try (injection H as <- <-; moves_solve).
  moves_solve.
Qed.
#[local] Hint Resolve updateLocalRot_moves : moves.

Lemma updateActiveChildren_moves (enforce_constraints : bool) (children : list Z)
    (h h' : Heap) (b : bool) :
  updateActiveChildren enforce_constraints children h = Some (h', b) ->
  moves_within h0 h -> moves_within h0 h'.
Proof.
  unfold updateActiveChildren. intros H Hm.
  refine (foldM_invariant (fun acc : Heap * bool => moves_within h0 acc.1) _ _ _ _ _ _ H);
    [|exact Hm].
  intros [h1 b1] child [h2 b2] Hacc Hstep. cbn [fst] in *.
  destruct (h1 !! child) as [c|] eqn:Hc; [|discriminate].
  cbn [mbind option_bind] in Hstep.
  destruct (Joint.isActive c) eqn:Hactive; [|injection Hstep as <- <-; exact Hacc].
  pose proof (moves_within_active h0 h1 child c Hacc Hc Hactive) as Hact.
  open_result Hstep. injection Hstep as <- <-. destruct p as [h3 b3]. cbn [fst].
  moves_solve.
Qed.
#[local] Hint Resolve updateActiveChildren_moves : moves.

Lemma updateEndInward_self_moves (cfgs : ConfigMap) (this : Z) (h h' : Heap) :
  updateEndInward_self cfgs this h = Some h' ->
  moves_within h0 h -> joint_active h0 this -> moves_within h0 h'.
Proof.
  unfold updateEndInward_self, write. intros H Hm Hact.
  destruct (h !! this) as [j|] eqn:Hj; [|discriminate]. cbn [mbind option_bind] in H.
  match type of H with
  | (?m ≫= _) = _ => destruct m as [j'|] eqn:E; [|discriminate]
  end.
  cbn [mbind option_bind] in H. injection H as <-.
  eapply moves_within_insert; [exact Hm | exact Hj | | left; exact Hact].
  open_result E; injection E as <-; try reflexivity; destruct b; reflexivity.
Qed.

Lemma updateEndInward_average_moves (this : Z) (h h' : Heap) :
  updateEndInward_average this h = Some h' ->
  moves_within h0 h -> joint_active h0 this -> moves_within h0 h'.
Proof.
  unfold updateEndInward_average, write. intros H Hm Hact.
  open_result H; injection H as <-; moves_solve.
Qed.
#[local] Hint Resolve updateEndInward_self_moves updateEndInward_average_moves : moves.

Lemma updateEndInward_moves (cfgs : ConfigMap) (enforce_constraints : bool)
    (this : Z) (h h' : Heap) :
  updateEndInward cfgs enforce_constraints this h = Some h' ->
  moves_within h0 h -> joint_active h0 this -> moves_within h0 h'.
Proof.
  unfold updateEndInward. intros H Hm Hact.
  open_result H; try (injection H as <-); moves_solve.
Qed.

Lemma applyLocalRot_moves (cfgs : ConfigMap) (this : Z) (h h' : Heap) :
  applyLocalRot cfgs this h = Some h' ->
  moves_within h0 h -> joint_active h0 this -> moves_within h0 h'.
Proof.
  unfold applyLocalRot, write. intros H Hm Hact.
  open_result H; injection H as <-; moves_solve.
Qed.
#[local] Hint Resolve updateEndInward_moves applyLocalRot_moves : moves.

Lemma updateLocalRot_and_apply_moves (cfgs : ConfigMap) (enforce_constraints : bool)
    (this : Z) (h h' : Heap) :
  updateLocalRot_and_apply cfgs enforce_constraints this h = Some h' ->
  moves_within h0 h -> joint_active h0 this -> moves_within h0 h'.
Proof.
  unfold updateLocalRot_and_apply. intros H Hm Hact. open_result H;
    try (injection H as <-); destruct p as [h1 b1]; cbn [fst] in *; moves_solve.
Qed.
#[local] Hint Resolve updateLocalRot_and_apply_moves : moves.

Lemma updateEndOutward_moves (cfgs : ConfigMap) (enforce_constraints : bool)
    (this : Z) (h h' : Heap) :
  updateEndOutward cfgs enforce_constraints this h = Some h' ->
  moves_within h0 h -> joint_active h0 this -> moves_within h0 h'.
Proof.
  unfold updateEndOutward, write. intros H Hm Hact. open_result H;
    try (injection H as <-); moves_solve.
Qed.

Lemma updateInward_moves (enforce_constraints : bool) (child this : Z) (h h' : Heap) :
  updateInward enforce_constraints child this h = Some h' ->
  moves_within h0 h -> joint_active h0 this -> joint_active h0 child ->
  moves_within h0 h'.
Proof.
  unfold updateInward, write. intros H Hm Hact Hchild. open_result H;
    try (injection H as <-); moves_solve.
Qed.

Lemma updateOutward_moves (cfgs : ConfigMap) (enforce_constraints : bool)
    (this : Z) (h h' : Heap) :
  updateOutward cfgs enforce_constraints this h = Some h' ->
  moves_within h0 h -> joint_active h0 this -> moves_within h0 h'.
Proof.
  unfold updateOutward, write. intros H Hm Hact. open_result H;
    try (injection H as <-); moves_solve.
Qed.

Lemma updateChildLocalRots_moves (this : Z) (h h' : Heap) :
  updateChildLocalRots this h = Some h' -> moves_within h0 h -> moves_within h0 h'.
Proof.
  unfold updateChildLocalRots. intros H Hm. open_result H. injection H as <-.
  moves_solve.
Qed.

Lemma relaxRot_moves (blend_factor : F32) (this : Z) (h h' : Heap) :
  relaxRot blend_factor this h = Some h' ->
  moves_within h0 h -> joint_active h0 this -> moves_within h0 h'.
Proof.
  unfold relaxRot, write. intros H Hm Hact. open_result H; injection H as <-; moves_solve.
Qed.
#[local] Hint Resolve updateEndOutward_moves updateInward_moves updateOutward_moves
  updateChildLocalRots_moves relaxRot_moves : moves.

Lemma relaxRotationsRecursively_moves (depth : nat) :
  forall (blend_factor : F32) (this : Z) (h h' : Heap),
    relaxRotationsRecursively depth blend_factor this h = Some h' ->
    moves_within h0 h -> joint_active h0 this -> moves_within h0 h'.
Proof.
  induction depth as [|depth IH]; intros blend_factor this h h' H Hm Hact; [discriminate|].
  simpl in H.
  destruct (relaxRot _ this h) as [h1|] eqn:E1; [|discriminate].
  cbn [mbind option_bind] in H.
  destruct (h1 !! this) as [j|]; [|discriminate]. cbn [mbind option_bind] in H.
  assert (Hm1 : moves_within h0 h1) by moves_solve.
  refine (foldM_invariant (moves_within h0) _ _ _ _ _ _ H); [|exact Hm1].
  intros h2 child h3 Hm2 Hstep.
  destruct (h2 !! child) as [c|] eqn:Hc; [|discriminate].
  cbn [mbind option_bind] in Hstep.
  destruct (Joint.isActive c) eqn:Hactive; [|injection Hstep as <-; exact Hm2].
  eapply IH; [exact Hstep | exact Hm2|].
  eapply moves_within_active; eassumption.
Qed.

Lemma elem_of_removelast (x : Z) (l : list Z) : x ∈ removelast l -> x ∈ l.
Proof.
  induction l as [|a [|b l] IH]; simpl; intros Hin; [exact Hin | inversion Hin |].
  apply elem_of_cons in Hin as [->|Hin]; [left | right; apply IH, Hin].
Qed.

Lemma elem_of_middle (x : Z) (chain : list Z) : x ∈ removelast (tail chain) -> x ∈ chain.
Proof.
  intros Hin. apply elem_of_removelast in Hin. destruct chain; [exact Hin|].
  right. exact Hin.
Qed.

Lemma executeFabrikInward_moves (cfgs : ConfigMap) (chain : list Z)
    (enforce_constraints : bool) (h h' : Heap) :
  executeFabrikInward cfgs chain enforce_constraints h = Some h' ->
  moves_within h0 h -> (forall p, p ∈ chain -> joint_active h0 p) ->
  moves_within h0 h'.
Proof.
  unfold executeFabrikInward. intros H Hm Hchain.
  destruct (head chain) as [outer_end|] eqn:Hhead; [|discriminate].
  cbn [mbind option_bind] in H.
  destruct (updateEndInward _ _ _ _) as [h1|] eqn:E1; [|discriminate].
  cbn [mbind option_bind] in H.
  assert (Hm1 : moves_within h0 h1).
  { eapply updateEndInward_moves; [exact E1 | exact Hm|].
    apply Hchain. apply head_Some_elem_of. exact Hhead. }
  refine (foldM_invariant_in (moves_within h0) _ _ _ _ _ _ H); [|exact Hm1].
  intros h2 [this child] h3 Hin Hm2 Hstep. cbn [fst snd] in Hstep.
  eapply updateInward_moves; [exact Hstep | exact Hm2 | |].
  - apply Hchain. apply elem_of_zip_l in Hin. apply elem_of_middle. exact Hin.
  - apply Hchain. apply elem_of_zip_r in Hin. eapply subseteq_take. exact Hin.
Qed.

Lemma executeFabrikOutward_moves (cfgs : ConfigMap) (chain : list Z)
    (enforce_constraints : bool) (h h' : Heap) :
  executeFabrikOutward cfgs chain enforce_constraints h = Some h' ->
  moves_within h0 h -> (forall p, p ∈ chain -> joint_active h0 p) ->
  moves_within h0 h'.
Proof.
  unfold executeFabrikOutward. intros H Hm Hchain.
  match type of H with
  | (?m ≫= _) = _ => destruct m as [h1|] eqn:E1; [|discriminate]
  end.
  cbn [mbind option_bind] in H.
  destruct (head chain) as [outer_end|] eqn:Hhead; [|discriminate].
  cbn [mbind option_bind] in H.
  eapply updateEndOutward_moves; [exact H | |].
  - refine (foldM_invariant_in (moves_within h0) _ _ _ _ _ _ E1); [|exact Hm].
    intros h2 this h3 Hin Hm2 Hstep.
    eapply updateOutward_moves; [exact Hstep | exact Hm2|].
    apply Hchain, elem_of_middle. apply list_elem_of_In, in_rev, list_elem_of_In.
    exact Hin.
  - apply Hchain. apply head_Some_elem_of. exact Hhead.
Qed.

Lemma executeFabrikPass_moves (enforce_constraints : bool) (s : Solver.t) (h' : Heap) :
  executeFabrikPass enforce_constraints s = Some h' ->
  moves_within h0 (mSkeleton s) -> chains_active h0 (mChainMap s) ->
  moves_within h0 h'.
Proof.
  unfold executeFabrikPass. intros H Hm Hchains.
  match type of H with
  | (?m ≫= _) = _ => destruct m as [h1|] eqn:E1; [|discriminate]
  end.
  cbn [mbind option_bind] in H.
  match type of H with
  | (?m ≫= _) = _ => destruct m as [h2|] eqn:E2; [|discriminate]
  end.
  cbn [mbind option_bind] in H.
  assert (Hm1 : moves_within h0 h1).
  { refine (foldM_invariant_in (moves_within h0) _ _ _ _ _ _ E1); [|exact Hm].
    intros h [id chain] h3 Hin Hmh Hstep. cbn [snd] in Hstep.
    eapply executeFabrikInward_moves; [exact Hstep | exact Hmh|].
    intros p Hp. eapply (Hchains id chain); [|exact Hp].
    apply elem_of_map_items. apply list_elem_of_In, in_rev, list_elem_of_In. exact Hin. }
  assert (Hm2 : moves_within h0 h2).
  { refine (foldM_invariant (moves_within h0) _ _ _ _ _ _ E2); [|exact Hm1].
    intros h root h3 Hmh Hstep. eapply updateChildLocalRots_moves; eassumption. }
  refine (foldM_invariant_in (moves_within h0) _ _ _ _ _ _ H); [|exact Hm2].
  intros h [id chain] h3 Hin Hmh Hstep. cbn [snd] in Hstep.
  eapply executeFabrikOutward_moves; [exact Hstep | exact Hmh|].
  intros p Hp. eapply (Hchains id chain); [|exact Hp].
  apply elem_of_map_items. exact Hin.
Qed.

Lemma solveLoop_moves (fuel : nat) :
  forall (loop : Z) (max_error : F32) (s s' : Solver.t) (e : F32),
    (solveLoop fuel loop max_error s).2 = Some (s', e) ->
    moves_within h0 (mSkeleton s) -> chains_active h0 (mChainMap s) ->
    moves_within h0 (mSkeleton s').
Proof.
  induction fuel as [|fuel IH]; intros loop max_error s s' e H Hm Hchains; simpl in H.
  - injection H as <- _. exact Hm.
  - destruct (_ || _); [|injection H as <- _; exact Hm].
    destruct (solveOnce s) as [[s1 e1]|] eqn:E1; [|discriminate].
    cbn [snd] in H. unfold solveOnce in E1.
    destruct (executeFabrikPass true s) as [h1|] eqn:Epass; [|discriminate].
    cbn [mbind option_bind] in E1.
    destruct (measureMaxError _); [|discriminate]. cbn [mbind option_bind] in E1.
    injection E1 as <- _.
    eapply IH; [exact H | |exact Hchains].
    cbn [mSkeleton set_mSkeleton]. eapply executeFabrikPass_moves; eassumption.
Qed.
End Moves.

Section SolveMoves.
Context {K : MathKernel} {P : Projection}.

(** X17: once rebuildAllChains has marked the active joints, solve moves
    only them and their parents: it changes nothing but the world position,
    the world rotation and the local rotation of a joint, and a joint that
    is neither active nor the parent of an active joint is returned exactly
    as rebuildAllChains left it. *)
Theorem solve_moves_active_joints (s s' : Solver.t) (e : F32) :
  solve s = Some (s', e) ->
  exists s1, rebuildAllChains s = Some s1 /\ moves_within (mSkeleton s1) (mSkeleton s').
Proof.
  unfold solve, prepareSolve. intros H.
  destruct (rebuildAllChains s) as [s1|] eqn:E1; [|discriminate].
  exists s1. split; [reflexivity|]. cbn [mbind option_bind] in H.
  destruct (rebuildAllChains_marks s s1 E1) as (Hchains & Hroots).
  destruct (foldM _ (mSkeleton s1) _) as [h2|] eqn:E2; [|discriminate].
  cbn [mbind option_bind] in H. unfold solveIterations in H. cbn [snd] in H.
  destruct (solveLoop _ 0 F32_MAX _).2 as [[s3 e3]|] eqn:E3; [|discriminate].
  injection H as <- _. cbn [mSkeleton set_mLastError].
  eapply solveLoop_moves; [exact E3 | |exact Hchains].
  cbn [mSkeleton set_mSkeleton].
  refine (foldM_invariant_in (moves_within (mSkeleton s1)) _ _ _ _ _ _ E2);
    [|apply moves_within_refl].
  intros h root h3 Hin Hmh Hstep.
  eapply relaxRotationsRecursively_moves; [exact Hstep | exact Hmh|].
  apply Hroots. unfold set_items in Hin. rewrite merge_sort_Permutation in Hin.
  apply elem_of_elements. exact Hin.
Qed.
End SolveMoves.

Lemma solve_moves_active_joints_witness :
  exists s' e s1,
    solve (K := Example.kernel) (P := Example6.projection) Example4.arm = Some (s', e)
    /\ rebuildAllChains (K := Example.kernel) Example4.arm = Some s1
    /\ moves_within (mSkeleton s1) (mSkeleton s').
Proof.
  assert (exists s' e, solve (K := Example.kernel) (P := Example6.projection) Example4.arm
                       = Some (s', e)) as (s' & e & Hsolve)
    by (vm_compute; eexists; eexists; reflexivity).
  destruct (solve_moves_active_joints (K := Example.kernel) (P := Example6.projection)
              Example4.arm s' e Hsolve) as (s1 & Hrebuild & Hmoves).
  exists s', e, s1. split; [exact Hsolve|]. split; [exact Hrebuild | exact Hmoves].
Defined.

(** ** compute_clamped_angle *)

(** X18: with ordered limits, the angle that compute_clamped_angle returns is
    never below min_angle, and it is above max_angle only when it is
    neither below nor above the invalid bisector, that is, when the angle,
    its full cycles removed, falls exactly on the bisector; an angle within
    the limits is returned as it is. *)
Theorem compute_clamped_angle_range (angle min_angle max_angle a : F32) :
  F32.gtb min_angle max_angle = false ->
  compute_clamped_angle angle min_angle max_angle = Some a ->
  F32.ltb a min_angle = false
  /\ (F32.gtb a max_angle = true ->
        F32.ltb a (invalid_bisector min_angle max_angle) = false
        /\ F32.gtb a (invalid_bisector min_angle max_angle) = false)
  /\ (F32.gtb angle max_angle = false -> F32.ltb angle min_angle = false -> a = angle).
Proof.
  intros Hordered. unfold compute_clamped_angle. fold (invalid_bisector min_angle max_angle).
  set (bisector := invalid_bisector min_angle max_angle).
  destruct (F32.gtb angle max_angle) eqn:Hgt; cbn [orb].
  - destruct (F32.to_S32 _) as [n|]; [|discriminate]. cbn [mbind option_bind].
    set (reduced := F32.sub angle _).
    destruct (F32.gtb reduced max_angle) eqn:Hrmax; cbn [andb].
    + destruct (F32.ltb reduced bisector) eqn:Hrbis; cbn [orb].
      * intros [= <-]. split; [exact Hordered|]. split; [|discriminate].
        unfold F32.gtb. rewrite SFltb_irrefl. discriminate.
      * destruct (F32.ltb reduced (F32.sub bisector F_TWO_PI)).
        { intros [= <-]. split; [exact Hordered|]. split; [|discriminate].
          unfold F32.gtb. rewrite SFltb_irrefl. discriminate. }
        destruct (F32.ltb reduced min_angle) eqn:Hrmin; cbn [orb].
        { intros [= <-]. split; [apply SFltb_irrefl|]. split; [|discriminate].
          rewrite Hordered. discriminate. }
        destruct (F32.gtb reduced bisector) eqn:Hrgt.
        { intros [= <-]. split; [apply SFltb_irrefl|]. split; [|discriminate].
          rewrite Hordered. discriminate. }
        intros [= <-]. split; [exact Hrmin|]. split; [|discriminate].
        intros _. split; [exact Hrbis | exact Hrgt].
    + cbn [orb]. destruct (F32.ltb reduced (F32.sub bisector F_TWO_PI)).
      { intros [= <-]. split; [exact Hordered|]. split; [|discriminate].
        unfold F32.gtb. rewrite SFltb_irrefl. discriminate. }
      destruct (F32.ltb reduced min_angle) eqn:Hrmin; cbn [orb].
      { intros [= <-]. split; [apply SFltb_irrefl|]. split; [|discriminate].
        rewrite Hordered. discriminate. }
      destruct (F32.gtb reduced bisector) eqn:Hrgt.
      { intros [= <-]. split; [apply SFltb_irrefl|]. split; [|discriminate].
        rewrite Hordered. discriminate. }
      intros [= <-]. split; [exact Hrmin|]. split; [|discriminate].
      rewrite Hrmax. discriminate.
  - destruct (F32.ltb angle min_angle) eqn:Hlt.
    + destruct (F32.to_S32 _) as [n|]; [|discriminate]. cbn [mbind option_bind].
      set (reduced := F32.sub angle _).
      destruct (F32.gtb reduced max_angle) eqn:Hrmax; cbn [andb].
      * destruct (F32.ltb reduced bisector) eqn:Hrbis; cbn [orb].
        { intros [= <-]. split; [exact Hordered|]. split; [|discriminate].
          unfold F32.gtb. rewrite SFltb_irrefl. discriminate. }
        destruct (F32.ltb reduced (F32.sub bisector F_TWO_PI)).
        { intros [= <-]. split; [exact Hordered|]. split; [|discriminate].
          unfold F32.gtb. rewrite SFltb_irrefl. discriminate. }
        destruct (F32.ltb reduced min_angle) eqn:Hrmin; cbn [orb].
        { intros [= <-]. split; [apply SFltb_irrefl|]. split; [|discriminate].
          rewrite Hordered. discriminate. }
        destruct (F32.gtb reduced bisector) eqn:Hrgt.
        { intros [= <-]. split; [apply SFltb_irrefl|]. split; [|discriminate].
          rewrite Hordered. discriminate. }
        intros [= <-]. split; [exact Hrmin|]. split; [|discriminate].
        intros _. split; [exact Hrbis | exact Hrgt].
      * cbn [orb]. destruct (F32.ltb reduced (F32.sub bisector F_TWO_PI)).
        { intros [= <-]. split; [exact Hordered|]. split; [|discriminate].
          unfold F32.gtb. rewrite SFltb_irrefl. discriminate. }
        destruct (F32.ltb reduced min_angle) eqn:Hrmin; cbn [orb].
        { intros [= <-]. split; [apply SFltb_irrefl|]. split; [|discriminate].
          rewrite Hordered. discriminate. }
        destruct (F32.gtb reduced bisector) eqn:Hrgt.
        { intros [= <-]. split; [apply SFltb_irrefl|]. split; [|discriminate].
          rewrite Hordered. discriminate. }
        intros [= <-]. split; [exact Hrmin|]. split; [|discriminate].
        rewrite Hrmax. discriminate.
    + intros [= <-]. split; [exact Hlt|]. split; [rewrite Hgt; discriminate|].
      reflexivity.
Qed.

(* the angle PI with the limits [-1, 1]: the bisector is PI, and PI is
   returned *)
Lemma compute_clamped_angle_range_witness :
  F32.ltb F_PI (F32.opp F32.one) = false
  /\ (F32.gtb F_PI F32.one = true ->
        F32.ltb F_PI (invalid_bisector (F32.opp F32.one) F32.one) = false
        /\ F32.gtb F_PI (invalid_bisector (F32.opp F32.one) F32.one) = false)
  /\ (F32.gtb F_PI F32.one = false -> F32.ltb F_PI (F32.opp F32.one) = false -> F_PI = F_PI).
Proof.
  apply (compute_clamped_angle_range F_PI (F32.opp F32.one) F32.one F_PI);
    vm_compute; reflexivity.
Defined.

(* the clamped angle can exceed the upper limit: on the bisector, here PI
   for the limits [-1, 1], the angle is returned as it is *)
Lemma compute_clamped_angle_on_bisector :
  compute_clamped_angle F_PI (F32.opp F32.one) F32.one = Some F_PI
  /\ F32.gtb F_PI F32.one = true.
Proof. vm_compute. split; reflexivity. Qed.

(** ** The loop over the pending sub-bases *)

Section SubBaseLoopProps.
Context {K : MathKernel}.

Lemma buildSubBaseChains_step (s : Solver.t) (rounds : nat) (b : Build) :
  buildSubBaseChains s (S rounds) b
  = if bool_decide (b_sub_bases b = ∅) then Some b
    else b' ← subBaseRound s b; buildSubBaseChains s rounds b'.
Proof. reflexivity. Qed.

Lemma buildSubBaseChains_fixed (s : Solver.t) (b : Build) :
  b_sub_bases b <> ∅ -> subBaseRound s b = Some b ->
  forall rounds : nat, buildSubBaseChains s rounds b = None.
Proof.
  intros Hne Hround rounds. induction rounds as [|rounds IH].
  - cbn [buildSubBaseChains]. rewrite bool_decide_eq_false_2 by exact Hne. reflexivity.
  - rewrite buildSubBaseChains_step, bool_decide_eq_false_2 by exact Hne.
    rewrite Hround. exact IH.
Qed.

Lemma rebuildAllChains_pending (s : Solver.t) (b : Build) :
  configuredBuild s = Some b ->
  buildSubBaseChains s (S (size (mSkeleton s))) b = None ->
  rebuildAllChains s = None.
Proof.
  unfold configuredBuild, rebuildAllChains. intros Hconf Hloop.
  destruct (foldM _ (mSkeleton s) (map_items (mChainMap s))) as [h|]; [|reflexivity].
  cbn [mbind option_bind] in Hconf |- *. cbv zeta. rewrite Hconf.
  cbn [mbind option_bind]. rewrite Hloop. reflexivity.
Qed.

(** X20: the loop over the pending sub-bases need not end.  When a round of
    the loop maps a state with pending sub-bases to itself, the loop started
    in that state, or in a state with pending sub-bases that one round maps
    to it, has no result whatever the bound on its rounds is: the loop of
    the source repeats the state; rebuildAllChains then has no result. *)
Theorem buildSubBaseChains_repeats (s : Solver.t) (b0 b : Build) :
  b_sub_bases b0 <> ∅ -> subBaseRound s b0 = Some b ->
  b_sub_bases b <> ∅ -> subBaseRound s b = Some b ->
  (forall rounds : nat, buildSubBaseChains s rounds b = None)
  /\ (forall rounds : nat, buildSubBaseChains s rounds b0 = None)
  /\ (configuredBuild s = Some b0 -> rebuildAllChains s = None).
Proof.
  intros Hne0 Hround0 Hne Hround.
  assert (Hfixed := buildSubBaseChains_fixed s b Hne Hround).
  assert (Hfirst : forall rounds : nat, buildSubBaseChains s rounds b0 = None).
  { intros [|rounds].
    - cbn [buildSubBaseChains]. rewrite bool_decide_eq_false_2 by exact Hne0. reflexivity.
    - rewrite buildSubBaseChains_step, bool_decide_eq_false_2 by exact Hne0.
      rewrite Hround0. apply Hfixed. }
  split; [exact Hfixed|]. split; [exact Hfirst|].
  intros Hconf. eapply rebuildAllChains_pending; [exact Hconf|apply Hfirst].
Qed.
End SubBaseLoopProps.

(* at the fork whose joint 1 carries the number 2, with a target for joint 3:
   the chain of 3 stops at joint 1 and leaves the id 2 pending; the chain
   built from the joint filed under 2 stops at joint 1 as well and leaves 2
   pending again *)
Lemma buildSubBaseChains_repeats_witness :
  let s := ExampleMismatch.targeted in
  configuredBuild (K := Example.kernel) s = Some ExampleMismatch.pending
  /\ (map_items (b_chains ExampleMismatch.pending),
      set_items (b_sub_bases ExampleMismatch.pending)) = ([(3, [3; 1])], [2])
  /\ (map_items (b_chains ExampleMismatch.repeating),
      set_items (b_sub_bases ExampleMismatch.repeating))
     = ([(2, [2; 1]); (3, [3; 1])], [2])
  /\ (forall rounds : nat,
        buildSubBaseChains s rounds ExampleMismatch.pending = None)
  /\ rebuildAllChains (K := Example.kernel) s = None
  /\ is_Some (rebuildAllChains (K := Example.kernel) Example.fork).
Proof.
  cbv zeta.
  assert (Hconf : configuredBuild (K := Example.kernel) ExampleMismatch.targeted
                  = Some ExampleMismatch.pending) by (vm_compute; reflexivity).
  destruct (buildSubBaseChains_repeats (K := Example.kernel) ExampleMismatch.targeted
              ExampleMismatch.pending ExampleMismatch.repeating)
    as (_ & Hloop & Hrebuild).
  - intros Hempty. apply (f_equal set_items) in Hempty. vm_compute in Hempty.
    discriminate Hempty.
  - vm_compute. reflexivity.
  - intros Hempty. apply (f_equal set_items) in Hempty. vm_compute in Hempty.
    discriminate Hempty.
  - vm_compute. reflexivity.
  - split; [exact Hconf|]. split; [vm_compute; reflexivity|].
    split; [vm_compute; reflexivity|]. split; [exact Hloop|].
    split; [exact (Hrebuild Hconf)|]. vm_compute. eexists. reflexivity.
Defined.
